(** * Riona-AI-Agent: quota tracking, concurrency gate, session registry

    A shallow embedding of the scheduling core of the repository:

    - [src/utils/activityTracker.ts]: the [ActivityTracker] class (hourly
      quota log) and the [pLimit] concurrency gate;
    - [src/utils/browserHelper.ts]: [killChromeProcessByProfile];
    - [IgClient.init], [IgClient.isConnected], [IgClient.close];
    - [src/app.ts]: [processAccount] and the [activeSessions] registry,
      [runInstagram];
    - [IgClient.interactWithPosts]: the loop over the posts of the feed, with
      its quota checks and records;
    - [src/Agent/index.ts]: [chooseCharacter] and [getNextAgentApiKey];
    - [src/config/logger]: the directory name of [createAccountLogger];
    - [src/utils/scheduleTracker.ts]: [isSleepTime], [getNextActiveTime],
      [setNextActiveTime];
    - [src/services/JobHistory.ts] and [JobAnalyzer.getNextKey].

    Conventions.  Timestamps are the integer milliseconds of [Date.now()],
    modelled in [Z].  A JavaScript object used as a dictionary is the [gmap]
    of its own properties, keyed by strings; where the code reads
    [this.data[id]], a key the object does not have is looked up in
    [Object.prototype], whose state in the running process is carried along
    as a [Realm].  A test on a string that may be absent ([if (dir)],
    [dir ? ... : ...]) takes the empty string as absent ([truthy]).
    Mutable objects are threaded explicitly through small state monads.
    Logging calls ([logger.info], [console.error], ...) have no effect on
    the modelled state and are left out; the construction of an account's
    logger, which creates a directory, is kept as a step that may throw. *)

From Stdlib Require Import Ascii.
From stdpp Require Import base numbers option list sorting strings gmap.

Local Open Scope Z_scope.

(** ** Part I.  Definitions *)

(** *** The activity log ([interface ActivityLog]) *)

Inductive Action : Type := Likes | Comments | DMs.

Global Instance Action_eq_dec : EqDecision Action.
Proof. solve_decision. Defined.

(** One account's entry: [{ likes: number[]; comments: number[]; dms: number[] }].
    A key may be absent in the JSON file, hence the options ([None]: the
    object has no such property of its own). *)
Record AccountLog : Type := mkAccountLog {
  likes : option (list Z);
  comments : option (list Z);
  dms : option (list Z)
}.

(** The object [JSON.parse] returns, as the map of its own properties. *)
Abbreviation ActivityLog := (gmap string AccountLog).

(** The own property [action] of an object. *)
Definition get_field (a : Action) (e : AccountLog) : option (list Z) :=
  match a with
  | Likes => likes e
  | Comments => comments e
  | DMs => dms e
  end.

(** The object with its own property [action] set to [v]. *)
Definition set_field (a : Action) (v : list Z) (e : AccountLog) : AccountLog :=
  match a with
  | Likes => {| likes := Some v; comments := comments e; dms := dms e |}
  | Comments => {| likes := likes e; comments := Some v; dms := dms e |}
  | DMs => {| likes := likes e; comments := comments e; dms := Some v |}
  end.

(** [{ likes: [], comments: [], dms: [] }] *)
Definition empty_entry : AccountLog :=
  {| likes := Some []; comments := Some []; dms := Some [] |}.

(** An object with none of the three properties. *)
Definition no_fields : AccountLog :=
  {| likes := None; comments := None; dms := None |}.

(** [x || []] on an array-or-undefined value. *)
Definition or_empty (o : option (list Z)) : list Z := default [] o.

(** *** What [this.data[this.accountId]] can be *)

(** [this.data] is a plain object, so [this.data[id]] is its own property
    [id] or, when it has none, the property [id] of [Object.prototype]: for
    the id [__proto__] that is [Object.prototype] itself, and for the names
    below it is a built-in function.  These objects are truthy: for such an
    id the code creates no entry, and reads and writes the properties
    [likes], [comments] and [dms] of the built-in object instead.  They
    belong to the process, not to the log. *)
Definition proto_functions : list string :=
  ["constructor"; "__defineGetter__"; "__defineSetter__"; "hasOwnProperty";
   "__lookupGetter__"; "__lookupSetter__"; "isPrototypeOf";
   "propertyIsEnumerable"; "toString"; "valueOf"; "toLocaleString"]%string.

Definition action_name (a : Action) : string :=
  match a with
  | Likes => "likes"
  | Comments => "comments"
  | DMs => "dms"
  end.

Definition action_named (id : string) : option Action :=
  if decide (id = "likes"%string) then Some Likes
  else if decide (id = "comments"%string) then Some Comments
  else if decide (id = "dms"%string) then Some DMs
  else None.

(** The part of the process's built-in objects that the tracker can reach,
    as far as the tracker's own code can have changed it:
    - [op_props]: the arrays that [Object.prototype] has as its properties
      [likes], [comments] and [dms] (every object without such a property of
      its own inherits them);
    - [member_props]: the properties [likes], [comments] and [dms] that the
      object [Object.prototype[name]] has of its own, where [name] is one of
      [proto_functions] or, when [Object.prototype] has that array, one of
      [likes], [comments], [dms].
    Properties that other code puts on these objects are not modelled. *)
Record Realm : Type := mkRealm {
  op_props : AccountLog;
  member_props : gmap string AccountLog
}.

(** The built-in objects as Node starts them. *)
Definition realm_clean : Realm :=
  {| op_props := no_fields; member_props := ∅ |}.

(** The object that [this.data[id]] evaluates to. *)
Inductive Obj : Type :=
  | OEntry                   (* the own property [id] of [this.data] *)
  | OProto                   (* [Object.prototype] *)
  | OMember (name : string). (* [Object.prototype[name]] *)

(** Whether [Object.prototype] has a property [id], besides [__proto__]:
    one of its functions, or an array that was put there. *)
Definition inherits (rl : Realm) (id : string) : bool :=
  bool_decide (id ∈ proto_functions)
  || match action_named id with
     | Some f => bool_decide (is_Some (get_field f (op_props rl)))
     | None => false
     end.

(** [this.data[id]], for [this.data] with the own properties [d]; [None]
    for [undefined]. *)
Definition resolve (rl : Realm) (d : ActivityLog) (id : string) : option Obj :=
  match d !! id with
  | Some _ => Some OEntry
  | None =>
      if decide (id = "__proto__"%string) then Some OProto
      else if inherits rl id then Some (OMember id)
      else None
  end.

(** The own property [action] of such an object. *)
Definition own_field (rl : Realm) (d : ActivityLog) (id : string) (o : Obj)
    (a : Action) : option (list Z) :=
  match o with
  | OEntry => d !! id ≫= get_field a
  | OProto => get_field a (op_props rl)
  | OMember name => member_props rl !! name ≫= get_field a
  end.

(** [o[action]]: the own property, else the one inherited from
    [Object.prototype]. *)
Definition js_get (rl : Realm) (d : ActivityLog) (id : string) (o : Obj)
    (a : Action) : option (list Z) :=
  match own_field rl d id o a with
  | Some l => Some l
  | None =>
      match o with
      | OProto => None
      | _ => get_field a (op_props rl)
      end
  end.

(** *** The environment of a tracker: the log file and the clock *)

(** [log_file] is the parsed content of [logs/activity_history.json]; [None]
    stands for a file that is missing or cannot be read or parsed.
    [log_writable] tells whether [fs.writeFileSync] succeeds.  [now] is the
    value of [Date.now()]; a single method call reads one clock value. *)
Record Env : Type := mkEnv {
  log_file : option ActivityLog;
  log_writable : bool;
  now : Z
}.

Record ActivityTracker : Type := mkTracker {
  accountId : string;
  data : ActivityLog
}.

(** A method runs on its receiver, the environment and the built-in objects
    of the process. *)
Record TState : Type := mkTState {
  this : ActivityTracker;
  env : Env;
  realm : Realm
}.

Definition TM (A : Type) : Type := TState -> A * TState.

Definition tret {A} (x : A) : TM A := fun s => (x, s).
Definition tbind {A B} (m : TM A) (k : A -> TM B) : TM B :=
  fun s => let (x, s') := m s in k x s'.

Declare Scope tm_scope.
Delimit Scope tm_scope with tm.
Notation "'do' x <- m ; k" := (tbind m (fun x => k))
  (at level 10, x name, m at level 100, k at level 200) : tm_scope.
Notation "m ;; k" := (tbind m (fun _ => k))
  (at level 100, k at level 200, right associativity) : tm_scope.

Definition HOUR : Z := 60 * 60 * 1000.
Definition DAY : Z := 24 * 60 * 60 * 1000.

Module Tracker.
Local Open Scope tm_scope.

(** [Date.now()] *)
Definition Date_now : TM Z := fun s => (now (env s), s).

(** [this.data = d] *)
Definition set_data (d : ActivityLog) : TM unit :=
  fun s => (tt, {| this := {| accountId := accountId (this s); data := d |};
                   env := env s; realm := realm s |}).

Definition get_data : TM ActivityLog := fun s => (data (this s), s).
Definition get_accountId : TM string := fun s => (accountId (this s), s).
Definition get_realm : TM Realm := fun s => (realm s, s).

Definition set_realm (rl : Realm) : TM unit :=
  fun s => (tt, {| this := this s; env := env s; realm := rl |}).

(** [loadData]: the parsed file, or [{}] when it is missing or unreadable. *)
Definition loadData : TM ActivityLog :=
  fun s => (default ∅ (log_file (env s)), s).

(** [saveData]: overwrite the file with the own properties of [this.data];
    a failed write is logged and swallowed. *)
Definition saveData : TM unit :=
  fun s =>
    if log_writable (env s)
    then (tt, {| this := this s;
                 env := {| log_file := Some (data (this s));
                           log_writable := log_writable (env s);
                           now := now (env s) |};
                 realm := realm s |})
    else (tt, s).

(** [this.data[this.accountId]] *)
Definition entry : TM (option Obj) :=
  do id <- get_accountId;
  do d <- get_data;
  do rl <- get_realm;
  tret (resolve rl d id).

(** [if (!this.data[this.accountId]) this.data[this.accountId] =
    { likes: [], comments: [], dms: [] }], and the object that
    [this.data[this.accountId]] is afterwards.  (The assignment is reached
    only for an id that [Object.prototype] has no property for, so it
    defines an own property.) *)
Definition ensure_entry : TM Obj :=
  do o <- entry;
  match o with
  | Some o => tret o
  | None =>
      do id <- get_accountId;
      do d <- get_data;
      set_data (<[id := empty_entry]> d) ;;
      tret OEntry
  end.

(** [o[action]] *)
Definition field (o : Obj) (action : Action) : TM (option (list Z)) :=
  do id <- get_accountId;
  do d <- get_data;
  do rl <- get_realm;
  tret (js_get rl d id o action).

(** The own property [action] of [o] becomes [v]. *)
Definition write_own (o : Obj) (action : Action) (v : list Z) : TM unit :=
  do id <- get_accountId;
  do d <- get_data;
  do rl <- get_realm;
  match o with
  | OEntry =>
      set_data (<[id := set_field action v (default no_fields (d !! id))]> d)
  | OProto =>
      set_realm {| op_props := set_field action v (op_props rl);
                   member_props := member_props rl |}
  | OMember name =>
      set_realm {| op_props := op_props rl;
                   member_props :=
                     <[name := set_field action v
                                 (default no_fields (member_props rl !! name))]>
                       (member_props rl) |}
  end.

(** [o[action] = v] for a new array [v].  The assignment defines or
    replaces the own property of [o]; a new array that becomes a property of
    [Object.prototype] has no properties of its own. *)
Definition assign (o : Obj) (action : Action) (v : list Z) : TM unit :=
  write_own o action v ;;
  match o with
  | OProto =>
      do rl <- get_realm;
      set_realm {| op_props := op_props rl;
                   member_props :=
                     delete (action_name action) (member_props rl) |}
  | _ => tret tt
  end.

(** [o[action].push(t)]: the array is changed in place, where [o[action]]
    finds it: it is the own property of [o], or the property of
    [Object.prototype] that [o] inherits.  (When [o[action]] is [undefined]
    the source throws a [TypeError]; [trackAction] sets the property
    first.) *)
Definition push (o : Obj) (action : Action) (t : Z) : TM unit :=
  do id <- get_accountId;
  do d <- get_data;
  do rl <- get_realm;
  match own_field rl d id o action with
  | Some l => write_own o action (l ++ [t])
  | None =>
      match get_field action (op_props rl) with
      | Some l => write_own OProto action (l ++ [t])
      | None => tret tt
      end
  end.

(** [getHistory] *)
Definition getHistory (action : Action) : TM (list Z) :=
  do o <- ensure_entry;
  do h <- field o action;
  tret (or_empty h).

(** [cleanOldEntries]: keep the last 24 hours of the three arrays of
    [this.data[this.accountId]] (the three assignments do not change which
    object that is). *)
Definition cleanOldEntries : TM unit :=
  do t <- Date_now;
  let cutoff := t - DAY in
  do o <- entry;
  match o with
  | Some o =>
      do l <- field o Likes;
      assign o Likes (filter (λ t, cutoff < t) (or_empty l)) ;;
      do c <- field o Comments;
      assign o Comments (filter (λ t, cutoff < t) (or_empty c)) ;;
      do m <- field o DMs;
      assign o DMs (filter (λ t, cutoff < t) (or_empty m))
  | None => tret tt
  end.

Definition canPerformAction (action : Action) (limitPerHour : Z) : TM bool :=
  do d <- loadData;
  set_data d ;;
  cleanOldEntries ;;
  do history <- getHistory action;
  do t <- Date_now;
  let oneHourAgo := t - HOUR in
  let recentActions := filter (λ t, oneHourAgo < t) history in
  tret (Z.of_nat (length recentActions) <? limitPerHour).

Definition trackAction (action : Action) : TM unit :=
  do d <- loadData;
  set_data d ;;
  do o <- ensure_entry;
  do h <- field o action;
  (match h with
   | None => assign o action []
   | Some _ => tret tt
   end) ;;
  do t <- Date_now;
  push o action t ;;
  saveData.

Definition getRecentCount (action : Action) : TM Z :=
  do d <- loadData;
  set_data d ;;
  do history <- getHistory action;
  do t <- Date_now;
  let oneHourAgo := t - HOUR in
  tret (Z.of_nat (length (filter (λ t, oneHourAgo < t) history))).

(** [getTimeUntilAvailable].  When the limit is not positive and the window
    is empty, [recentActions[0]] is [undefined], the arithmetic yields [NaN],
    [NaN > 0] is false and the method returns 0: the [[]] branch below. *)
Definition getTimeUntilAvailable (action : Action) (limitPerHour : Z) : TM Z :=
  do d <- loadData;
  set_data d ;;
  do history <- getHistory action;
  do t <- Date_now;
  let oneHourAgo := t - HOUR in
  let recentActions := filter (λ t, oneHourAgo < t) history in
  if Z.of_nat (length recentActions) <? limitPerHour then tret 0
  else
    match merge_sort Z.le recentActions with
    | [] => tret 0
    | oldestRelevantAction :: _ =>
        let nextSlotTime := oldestRelevantAction + HOUR in
        do t' <- Date_now;
        let waitTime := nextSlotTime - t' in
        tret (if 0 <? waitTime then waitTime else 0)
    end.

(** [new ActivityTracker(accountId)], in a process with the built-in
    objects [rl]. *)
Definition new_in (rl : Realm) (id : string) (e : Env) : TState :=
  {| this := {| accountId := id; data := default ∅ (log_file e) |};
     env := e; realm := rl |}.

(** [new ActivityTracker(accountId)] in a process just started. *)
Definition new (id : string) (e : Env) : TState := new_in realm_clean id e.

End Tracker.

(** *** Views of the log used in the statements *)

(** The timestamps recorded in the log file for an account and an action. *)
Definition durable_history (e : Env) (id : string) (a : Action) : list Z :=
  match default ∅ (log_file e) !! id with
  | Some en => or_empty (get_field a en)
  | None => []
  end.

(** [(this.data[id] || {})[action] || []], for [this.data] with the own
    properties [d]. *)
Definition read_history (rl : Realm) (d : ActivityLog) (id : string)
    (a : Action) : list Z :=
  match resolve rl d id with
  | Some o => or_empty (js_get rl d id o a)
  | None => []
  end.

(** The values of [this.data[this.accountId]] and of [o[action]] in a
    state. *)
Definition entry_of (s : TState) : option Obj :=
  resolve (realm s) (data (this s)) (accountId (this s)).

Definition field_of (s : TState) (o : Obj) (a : Action) : option (list Z) :=
  js_get (realm s) (data (this s)) (accountId (this s)) o a.

(** The timestamps a tracker of the account reads for an action after it
    has reloaded the file. *)
Definition history_of (rl : Realm) (e : Env) (id : string) (a : Action)
  : list Z :=
  read_history rl (default ∅ (log_file e)) id a.

(** Whether the records of an account and action are those of the log
    file: the account has an entry in the file with the action's key (or
    there is no array to inherit for it), or it has no entry and its id is
    not the name of a property of [Object.prototype]. *)
Definition kept_in_file (rl : Realm) (e : Env) (id : string) (a : Action)
  : bool :=
  match default ∅ (log_file e) !! id with
  | Some en =>
      match get_field a en, get_field a (op_props rl) with
      | None, Some _ => false
      | _, _ => true
      end
  | None => bool_decide (id ≠ "__proto__"%string) && negb (inherits rl id)
  end.

(** Whether the record of a [trackAction] is there afterwards: it went to a
    built-in object, or it went to the file and the file could be written. *)
Definition lands (rl : Realm) (e : Env) (id : string) (a : Action) : bool :=
  negb (kept_in_file rl e id a) || log_writable e.

(** An id that is not the name of a member of [Object.prototype]. *)
Definition own_key (id : string) : bool :=
  bool_decide (id ≠ "__proto__"%string) && bool_decide (id ∉ proto_functions).

(** The count the code compares with the limit: records newer than one hour
    before the clock value, with no upper bound. *)
Definition recent_count (rl : Realm) (e : Env) (id : string) (a : Action)
  : nat :=
  length (filter (λ t, now e - HOUR < t) (history_of rl e id a)).

(** The quota window as the specification words it: the records with
    timestamp in the interval (now - 1h, now]. *)
Definition spec_window (rl : Realm) (e : Env) (id : string) (a : Action)
  : list Z :=
  filter (λ t, now e - HOUR < t ∧ t ≤ now e) (history_of rl e id a).

Definition spec_window_count (rl : Realm) (e : Env) (id : string) (a : Action)
  : nat :=
  length (spec_window rl e id a).

(** Records stamped after the clock value. *)
Definition future_count (rl : Realm) (e : Env) (id : string) (a : Action)
  : nat :=
  length (filter (λ t, now e < t) (history_of rl e id a)).

(** The minimum of a list of timestamps. *)
Definition min_list (l : list Z) : option Z :=
  match l with
  | [] => None
  | x :: l' => Some (foldr Z.min x l')
  end.

(** The oldest record of the specification's window. *)
Definition oldest_in_window (rl : Realm) (e : Env) (id : string) (a : Action)
  : option Z :=
  min_list (spec_window rl e id a).

(** The same environment read at another reference time. *)
Definition at_time (r : Z) (e : Env) : Env :=
  {| log_file := log_file e; log_writable := log_writable e; now := r |}.

(** The value of [getTimeUntilAvailable], in terms of the records read. *)
Definition wait_of (rl : Realm) (e : Env) (id : string) (a : Action) (L : Z)
  : Z :=
  let recent := filter (λ t, now e - HOUR < t) (history_of rl e id a) in
  if Z.of_nat (length recent) <? L then 0
  else match merge_sort Z.le recent with
       | [] => 0
       | oldest :: _ =>
           if 0 <? oldest + HOUR - now e then oldest + HOUR - now e else 0
       end.

(** A tracker state read at another reference time. *)
Definition state_at (r : Z) (s : TState) : TState :=
  {| this := this s; env := at_time r (env s); realm := realm s |}.

(** The read-only methods, and runs of them. *)
Inductive Query : Type :=
  | QCanPerformAction (a : Action) (L : Z)
  | QGetRecentCount (a : Action)
  | QGetTimeUntilAvailable (a : Action) (L : Z).

Definition run_query (q : Query) (s : TState) : TState :=
  match q with
  | QCanPerformAction a L => (Tracker.canPerformAction a L s).2
  | QGetRecentCount a => (Tracker.getRecentCount a s).2
  | QGetTimeUntilAvailable a L => (Tracker.getTimeUntilAvailable a L s).2
  end.

Definition run_queries (qs : list Query) (s : TState) : TState :=
  foldl (fun s q => run_query q s) s qs.

(** Concrete logs used in examples. *)
Definition entry_of_likes (l : list Z) : AccountLog :=
  {| likes := Some l; comments := Some []; dms := Some [] |}.

Definition MINUTE : Z := 60 * 1000.

(** Ten likes of account a1, five minutes apart, from 55 to 5 minutes
    before the clock value 10 000 000. *)
Definition env_ten_likes : Env :=
  {| log_file := Some {[ "a1"%string := entry_of_likes
       (map (fun k => 10000000 - (55 - 5 * k) * MINUTE) [0;1;2;3;4;5;6;7;8;9]) ]};
     log_writable := true;
     now := 10000000 |}.

(** One like stamped one millisecond after the clock value. *)
Definition env_future_like : Env :=
  {| log_file := Some {[ "a1"%string := entry_of_likes [1001] ]};
     log_writable := true;
     now := 1000 |}.

(** No log file yet. *)
Definition env_fresh (t : Z) : Env :=
  {| log_file := None; log_writable := true; now := t |}.

(** One like older than 24 hours and one recent like. *)
Definition env_old_like : Env :=
  {| log_file := Some {[ "a1"%string := entry_of_likes [5; 100000000 - 7] ]};
     log_writable := true;
     now := 100000000 |}.

Ltac tracker_unfold :=
  unfold Tracker.canPerformAction, Tracker.getTimeUntilAvailable,
    Tracker.getRecentCount, Tracker.trackAction, Tracker.cleanOldEntries,
    Tracker.getHistory, Tracker.ensure_entry, Tracker.entry, Tracker.field,
    Tracker.assign, Tracker.push, Tracker.write_own, Tracker.saveData,
    Tracker.loadData, Tracker.set_data, Tracker.get_data,
    Tracker.get_accountId, Tracker.get_realm, Tracker.set_realm,
    Tracker.Date_now, tbind, tret.


(** *** The concurrency gate ([pLimit], src/utils/activityTracker.ts) *)

(** A task is the closure [() => run(fn, resolve, reject)] built by one call
    of [enqueue]; it is identified by a number.  [fn]'s promise settles with
    a value or with an error. *)
Definition TaskId : Type := nat.

Inductive Outcome : Type :=
  | Fulfilled (value : Z)
  | Rejected (err : string).

(** The closure state of [pLimit] ([concurrency], [queue], [activeCount]),
    together with the promises it has in flight: [running] are the tasks
    whose [fn] was called and whose [await] is pending, [settled] the promises
    returned by [enqueue] that were resolved or rejected, [started] the order
    of the calls of [fn] and [submitted] the order of the calls of
    [enqueue]. *)
Record Gate : Type := mkGate {
  concurrency : Z;
  queue : list TaskId;
  activeCount : Z;
  running : list TaskId;
  settled : list (TaskId * Outcome);
  started : list TaskId;
  submitted : list TaskId
}.

Module PLimit.

(** [run], up to its [await]: [activeCount++] and the call of [fn]. *)
Definition run (id : TaskId) (g : Gate) : Gate :=
  {| concurrency := concurrency g;
     queue := queue g;
     activeCount := activeCount g + 1;
     running := running g ++ [id];
     settled := settled g;
     started := started g ++ [id];
     submitted := submitted g |}.

(** [next]: [activeCount--], then the head of the queue, if any, is shifted
    and called. *)
Definition next (g : Gate) : Gate :=
  let g1 := {| concurrency := concurrency g;
               queue := queue g;
               activeCount := activeCount g - 1;
               running := running g;
               settled := settled g;
               started := started g;
               submitted := submitted g |} in
  match queue g1 with
  | [] => g1
  | nextTask :: rest =>
      run nextTask {| concurrency := concurrency g1;
                      queue := rest;
                      activeCount := activeCount g1;
                      running := running g1;
                      settled := settled g1;
                      started := started g1;
                      submitted := submitted g1 |}
  end.

(** [run], from its [await] on: [resolve(value)] or [reject(err)] on the
    task's own promise, and [next()] in the [finally]. *)
Definition run_settled (id : TaskId) (o : Outcome) (g : Gate) : Gate :=
  next {| concurrency := concurrency g;
          queue := queue g;
          activeCount := activeCount g;
          running := filter (λ x, x ≠ id) (running g);
          settled := settled g ++ [(id, o)];
          started := started g;
          submitted := submitted g |}.

(** [enqueue]: the executor of the new promise runs at once. *)
Definition enqueue (id : TaskId) (g : Gate) : Gate :=
  let g1 := {| concurrency := concurrency g;
               queue := queue g;
               activeCount := activeCount g;
               running := running g;
               settled := settled g;
               started := started g;
               submitted := submitted g ++ [id] |} in
  if activeCount g1 <? concurrency g1 then run id g1
  else {| concurrency := concurrency g1;
          queue := queue g1 ++ [id];
          activeCount := activeCount g1;
          running := running g1;
          settled := settled g1;
          started := started g1;
          submitted := submitted g1 |}.

Definition pLimit (concurrency : Z) : Gate :=
  {| concurrency := concurrency;
     queue := [];
     activeCount := 0;
     running := [];
     settled := [];
     started := [];
     submitted := [] |}.

(** What can happen to a gate: a call of [enqueue] with a new task, or the
    promise of a running task settling. *)
Inductive Event : Type :=
  | Enqueue (id : TaskId)
  | Settle (id : TaskId) (o : Outcome).

Definition step (g : Gate) (ev : Event) : option Gate :=
  match ev with
  | Enqueue id =>
      if decide (id ∈ submitted g) then None else Some (enqueue id g)
  | Settle id o =>
      if decide (id ∈ running g) then Some (run_settled id o g) else None
  end.

Fixpoint exec (evs : list Event) (g : Gate) : option Gate :=
  match evs with
  | [] => Some g
  | ev :: evs' =>
      match step g ev with
      | Some g' => exec evs' g'
      | None => None
      end
  end.

(** The [Settle] events of a run, in order. *)
Definition settle_events (evs : list Event) : list (TaskId * Outcome) :=
  omap (fun ev => match ev with
                  | Settle id o => Some (id, o)
                  | Enqueue _ => None
                  end) evs.

(** Let the running tasks finish, one at a time, [pick] choosing which of
    them settles next and [out] with what. *)
Fixpoint drain (pick : list TaskId -> TaskId) (out : TaskId -> Outcome)
    (fuel : nat) (g : Gate) : Gate :=
  match fuel with
  | O => g
  | S fuel' =>
      match running g with
      | [] => g
      | _ :: _ =>
          let id := pick (running g) in
          drain pick out fuel' (run_settled id (out id) g)
      end
  end.

(** The tasks submitted and not yet started or not yet settled. *)
Definition pending (g : Gate) : nat := (length (queue g) + length (running g))%nat.

(** A choice of the task that settles next: the oldest running one. *)
Definition pick_first (l : list TaskId) : TaskId := hd 0%nat l.

(** A choice of the task that settles next: the youngest running one. *)
Definition pick_last (l : list TaskId) : TaskId := List.last l 0%nat.

End PLimit.


(** The invariant of the gate that the properties below rest on. *)
Definition gate_inv (g : Gate) : Prop :=
  activeCount g = Z.of_nat (length (running g))
  ∧ submitted g = started g ++ queue g
  ∧ started g ≡ₚ running g ++ (settled g).*1
  ∧ NoDup (submitted g)
  ∧ (queue g ≠ [] -> concurrency g ≤ activeCount g)
  ∧ activeCount g ≤ Z.max 0 (concurrency g).


(** *** Results of fallible code *)

(** A computation returns a value or throws; an error is identified with
    its message. *)
Inductive Res (A : Type) : Type :=
  | Ok (a : A)
  | Throw (err : string).
Arguments Ok {A} a.
Arguments Throw {A} err.

(** The truthiness test of a string that may be absent, as in
    [if (this.userDataDir)] and [userDataDir ? ... : ...]: the string when it
    is set and not empty. *)
Definition truthy (o : option string) : option string :=
  match o with
  | Some s => if decide (s = EmptyString) then None else Some s
  | None => None
  end.

(** *** The host system *)

Inductive Platform : Type := Win32 | Linux | OtherPlatform.

(** What the code reads from the host: [process.platform], the functions of
    the [path] module ([path_resolve d] is [path.resolve(process.cwd(), d)]),
    and the number [parseInt(process.env.MAX_CONCURRENT_SESSIONS || '5')],
    with [None] for [NaN]. *)
Record Sys : Type := mkSys {
  platform : Platform;
  path_resolve : string -> string;
  path_basename : string -> string;
  path_join : string -> string -> string;
  maxSessions : option Z
}.

(** *** Observable effects *)

(** The two commands of [killChromeProcessByProfile]:
    - [Wmic p] is the command
      wmic process where name='chrome.exe' and commandline like
      '%user-data-dir=p%' delete;
    - [Pkill p] is the command pkill -f p. *)
Inductive KillCommand : Type :=
  | Wmic (pattern : string)
  | Pkill (pattern : string).

Inductive Effect : Type :=
  | EffLaunch                       (* puppeteerExtra.launch and newPage *)
  | EffBrowserClose                 (* browser.close() *)
  | EffExec (cmd : KillCommand)     (* child_process.exec *)
  | EffUnlink (path : string)       (* fs.unlink *)
  | EffDelay (ms : Z)               (* await delay(ms) *)
  | EffAlert (username message : string). (* emailService.sendErrorAlert *)

(** *** [killChromeProcessByProfile] (src/utils/browserHelper.ts) *)

(** [absolutePath.replace(/\\/g, '\\\\')]: every backslash is doubled. *)
Fixpoint escape_backslashes (s : string) : string :=
  match s with
  | EmptyString => EmptyString
  | String c rest =>
      if Ascii.eqb c "\"%char
      then String "\"%char (String "\"%char (escape_backslashes rest))
      else String c (escape_backslashes rest)
  end.

Definition killChromeProcessByProfile (sys : Sys) (userDataDir : string)
  : list Effect :=
  let absolutePath := path_resolve sys userDataDir in
  let profileFolder := path_basename sys absolutePath in
  match platform sys with
  | Win32 => [EffExec (Wmic (escape_backslashes absolutePath))]
  | Linux => [EffExec (Pkill profileFolder)]
  | OtherPlatform => []
  end.

(** *** [IgClient] *)

(** [browser] is [None] for [null] and [Some c] for a [Browser] whose
    [isConnected()] answers [c]; [page] tells whether [this.page] is set. *)
Record IgClient : Type := mkIgClient {
  browser : option bool;
  page : bool;
  userDataDir : option string
}.

(** What the browser does when [init] and the interactions call it. *)
Inductive LaunchResult : Type :=
  | LaunchOk
  | LaunchFails (err : string)      (* puppeteerExtra.launch throws *)
  | NewPageFails (err : string).    (* the browser opens, newPage throws *)

(** [launch_result k] is the result of the launch made when [attempt] is
    [k]; [lock_present k f] tells whether the lock file [f] exists at the
    cleanup made when [attempt] is [k]; [post_launch] is the error, if any,
    of the steps after the launch (proxy, user agent, login). *)
Record InitOracle : Type := mkInitOracle {
  launch_result : Z -> LaunchResult;
  lock_present : Z -> string -> bool;
  post_launch : option string
}.

Module Client.

(** [new IgClient(config, ...)] *)
Definition new (dir : option string) : IgClient :=
  {| browser := None; page := false; userDataDir := dir |}.

Definition isConnected (c : IgClient) : bool :=
  match browser c with
  | Some connected => connected
  | None => false
  end.

(** [close]: errors of [browser.close()] are caught. *)
Definition close (c : IgClient) : IgClient * list Effect :=
  match browser c with
  | Some _ =>
      ({| browser := None; page := false; userDataDir := userDataDir c |},
       [EffBrowserClose])
  | None => (c, [])
  end.

Definition maxAttempts : Z := 5.

Definition lockFiles : list string :=
  ["SingletonLock"; "SingletonCookie"; "SingletonSocket"]%string.

(** The cleanup between two attempts: kill the processes of the profile,
    then delete the lock files that exist. *)
Definition force_cleanup (sys : Sys) (o : InitOracle) (attempt : Z)
    (c : IgClient) : list Effect :=
  match truthy (userDataDir c) with
  | Some dir =>
      killChromeProcessByProfile sys dir
      ++ omap (fun file =>
                 if lock_present o attempt file
                 then Some (EffUnlink (path_join sys (path_resolve sys dir) file))
                 else None) lockFiles
  | None => []
  end.

(** The loop [while (attempt < maxAttempts)] of [init].  The result is
    [None] when [fuel] iterations do not suffice. *)
Fixpoint launch_loop (sys : Sys) (o : InitOracle) (fuel : nat) (attempt : Z)
    (c : IgClient) : option (Res unit * IgClient * list Effect) :=
  match fuel with
  | O => None
  | S fuel' =>
      if attempt <? maxAttempts then
        match launch_result o attempt with
        | LaunchOk =>
            Some (Ok tt,
                  {| browser := Some true; page := true;
                     userDataDir := userDataDir c |},
                  [EffLaunch])
        | LaunchFails err | NewPageFails err =>
            let opened :=
              match launch_result o attempt with
              | NewPageFails _ => Some true
              | _ => browser c
              end in
            let attempt := attempt + 1 in
            let closing :=
              match opened with Some _ => [EffBrowserClose] | None => [] end in
            let c1 := {| browser := None; page := page c;
                         userDataDir := userDataDir c |} in
            if maxAttempts <=? attempt
            then Some (Throw err, c1, [EffLaunch] ++ closing)
            else
              let cleanup := force_cleanup sys o attempt c1 in
              let waitTime := 8000 + attempt * 2000 in
              match launch_loop sys o fuel' attempt c1 with
              | Some (r, c2, evs) =>
                  Some (r, c2,
                        [EffLaunch] ++ closing ++ cleanup
                        ++ [EffDelay waitTime] ++ evs)
              | None => None
              end
        end
      else Some (Ok tt, c, [])
  end.

(** [init] *)
Definition init (sys : Sys) (o : InitOracle) (c : IgClient)
  : option (Res unit * IgClient * list Effect) :=
  if isConnected c then Some (Ok tt, c, [])
  else
    let proactive :=
      match truthy (userDataDir c) with
      | Some dir => killChromeProcessByProfile sys dir ++ [EffDelay 2000]
      | None => []
      end in
    match launch_loop sys o (Z.to_nat maxAttempts) 0 c with
    | None => None
    | Some (Throw err, c1, evs) => Some (Throw err, c1, proactive ++ evs)
    | Some (Ok _, c1, evs) =>
        match browser c1, page c1 with
        | Some _, true =>
            match post_launch o with
            | Some err => Some (Throw err, c1, proactive ++ evs)
            | None => Some (Ok tt, c1, proactive ++ evs)
            end
        | _, _ =>
            Some (Throw "Browser/Page failed to initialize after multiple attempts.",
                  c1, proactive ++ evs)
        end
    end.

End Client.


(** *** The world of [processAccount] (src/app.ts) *)

(** [IgClient] objects live in [heap] and are referred to by address;
    [activeSessions] is the module-level [Map<string, IgClient>]; [w_realm]
    is the state of the built-in objects that the trackers of the process
    share; [effects] collects what was done to the outside, oldest first. *)
Record World : Type := mkWorld {
  w_env : Env;
  w_realm : Realm;
  heap : gmap nat IgClient;
  next_addr : nat;
  activeSessions : gmap string nat;
  effects : list Effect
}.

Definition AM (A : Type) : Type := World -> Res A * World.

Definition aret {A} (x : A) : AM A := fun w => (Ok x, w).
Definition athrow {A} (err : string) : AM A := fun w => (Throw err, w).
Definition abind {A B} (m : AM A) (k : A -> AM B) : AM B :=
  fun w => match m w with
           | (Ok x, w') => k x w'
           | (Throw err, w') => (Throw err, w')
           end.

(** [try { m } catch (err) { h err }] *)
Definition try_catch {A} (m : AM A) (h : string -> AM A) : AM A :=
  fun w => match m w with
           | (Ok x, w') => (Ok x, w')
           | (Throw err, w') => h err w'
           end.

(** [try { m } finally { f }]: [f] runs in both cases; the completion of
    [m] stands unless [f] throws. *)
Definition try_finally {A} (m : AM A) (f : AM unit) : AM A :=
  fun w => match m w with
           | (r, w') =>
               match f w' with
               | (Ok _, w'') => (r, w'')
               | (Throw err, w'') => (Throw err, w'')
               end
           end.

Declare Scope am_scope.
Delimit Scope am_scope with am.
Notation "'do' x <- m ; k" := (abind m (fun x => k))
  (at level 10, x name, m at level 100, k at level 200) : am_scope.
Notation "m ;; k" := (abind m (fun _ => k))
  (at level 100, k at level 200, right associativity) : am_scope.

(** Settings: a flag or a number may be absent ([undefined]). *)
Record Behavior : Type := mkBehavior {
  enableLikes : option bool;
  enableComments : option bool;
  enableAutoDMs : option bool
}.

Record Limits : Type := mkLimits {
  likesPerHour : option Z;
  commentsPerHour : option Z;
  dmsPerHour : option Z
}.

(** [character?.settings?.behavior], [character?.behavior] and
    [character?.limits]. *)
Record Character : Type := mkCharacter {
  c_settings_behavior : option Behavior;
  c_behavior : option Behavior;
  c_limits : option Limits
}.

(** An entry of accounts.json; [a_behavior] and [a_limits] are
    [account.settings?.behavior || {}] and [account.settings?.limits || {}]. *)
Record Account : Type := mkAccount {
  id : string;
  username : string;
  a_userDataDir : option string;
  a_behavior : Behavior;
  a_limits : Limits
}.

(** What an interaction with the site does, as far as the scheduler sees
    it: the actions it records, the time it takes, whether the browser is
    lost meanwhile, and the error it ends with, if any. *)
Record Interaction : Type := mkInteraction {
  tracked : list Action;
  elapsed : Z;
  disconnects : bool;
  failure : option string
}.

(** The outcomes of what one call of [processAccount] leaves to others. *)
Record Oracle : Type := mkOracle {
  stagger : Z;                 (* Math.floor(Math.random() * 5000) *)
  logger_error : option string;(* the error of createAccountLogger, if any *)
  init_oracle : InitOracle;    (* igClient.init() *)
  dm_check : Interaction;      (* igClient.checkAndRespondToDMs *)
  useHashtags : bool;          (* hashtags.length > 0 && Math.random() < hashtagMix *)
  hashtag_run : Interaction;   (* igClient.interactWithHashtags *)
  feed_run : Interaction       (* igClient.interactWithPosts *)
}.

(** [f !== false], [f === false], [f === true] and the truthiness of a
    flag. *)
Definition not_false (f : option bool) : bool :=
  match f with Some false => false | _ => true end.
Definition is_false (f : option bool) : bool :=
  match f with Some false => true | _ => false end.
Definition is_true (f : option bool) : bool :=
  match f with Some true => true | _ => false end.

(** A limit handed to the tracker.  An absent limit makes every comparison
    [length < undefined] false, as the limit 0 does. *)
Definition limit_arg (l : option Z) : Z := default 0 l.

(** [l || d] on a number. *)
Definition or_number (l : option Z) (d : Z) : Z :=
  match l with
  | Some n => if n =? 0 then d else n
  | None => d
  end.

(** [{ ...c, ...a }], field by field. *)
Definition spread {A} (c a : option A) : option A :=
  match a with Some _ => a | None => c end.

Definition merge_behavior (c a : Behavior) : Behavior :=
  {| enableLikes := spread (enableLikes c) (enableLikes a);
     enableComments := spread (enableComments c) (enableComments a);
     enableAutoDMs := spread (enableAutoDMs c) (enableAutoDMs a) |}.

Definition merge_limits (c a : Limits) : Limits :=
  {| likesPerHour := spread (likesPerHour c) (likesPerHour a);
     commentsPerHour := spread (commentsPerHour c) (commentsPerHour a);
     dmsPerHour := spread (dmsPerHour c) (dmsPerHour a) |}.

Definition default_behavior : Behavior :=
  {| enableLikes := Some true; enableComments := Some true;
     enableAutoDMs := None |}.

Definition default_limits : Limits :=
  {| likesPerHour := Some 10; commentsPerHour := Some 5; dmsPerHour := None |}.

(** Whether an action type is enabled, as the availability check reads the
    flags. *)
Definition enabled (b : Behavior) (a : Action) : bool :=
  match a with
  | Likes => not_false (enableLikes b)
  | Comments => not_false (enableComments b)
  | DMs => is_true (enableAutoDMs b)
  end.

(** The hourly limit used for an action type by the availability check. *)
Definition limit_of (l : Limits) (a : Action) : Z :=
  match a with
  | Likes => limit_arg (likesPerHour l)
  | Comments => limit_arg (commentsPerHour l)
  | DMs => or_number (dmsPerHour l) 20
  end.

(** [Math.min(...waits)], for a non-empty array. *)
Definition Math_min (waits : list Z) : Z :=
  match waits with
  | [] => 0
  | x :: rest => foldr Z.min x rest
  end.

(** The local variables of the availability check. *)
Record PreRun : Type := mkPreRun {
  msToNextLike : Z;
  msToNextComment : Z;
  msToNextDM : Z;
  isBlocked : bool;
  maxWaitTime : Z
}.

Module App.
Local Open Scope am_scope.

Definition get_world : AM World := fun w => (Ok w, w).

(** Time passes. *)
Definition advance (ms : Z) : AM unit :=
  fun w => (Ok tt,
            {| w_env := at_time (now (w_env w) + ms) (w_env w);
               w_realm := w_realm w;
               heap := heap w; next_addr := next_addr w;
               activeSessions := activeSessions w; effects := effects w |}).

Definition emit (evs : list Effect) : AM unit :=
  fun w => (Ok tt,
            {| w_env := w_env w; w_realm := w_realm w;
               heap := heap w; next_addr := next_addr w;
               activeSessions := activeSessions w;
               effects := effects w ++ evs |}).

(** A method call on a tracker object. *)
Definition call {A} (t : ActivityTracker) (m : TM A)
  : AM (A * ActivityTracker) :=
  fun w => let (x, s) :=
             m {| this := t; env := w_env w; realm := w_realm w |} in
           (Ok (x, this s),
            {| w_env := env s; w_realm := realm s;
               heap := heap w; next_addr := next_addr w;
               activeSessions := activeSessions w; effects := effects w |}).

(** [new ActivityTracker(id)] *)
Definition new_tracker (trackerId : string) : AM ActivityTracker :=
  fun w => (Ok (this (Tracker.new trackerId (w_env w))), w).

(** The object at an address. *)
Definition client_at (w : World) (a : nat) : IgClient :=
  default (Client.new None) (heap w !! a).

Definition set_client (a : nat) (c : IgClient) : AM unit :=
  fun w => (Ok tt,
            {| w_env := w_env w; w_realm := w_realm w;
               heap := <[a := c]> (heap w); next_addr := next_addr w;
               activeSessions := activeSessions w; effects := effects w |}).

(** [new IgClient(...)]: a new object at a new address. *)
Definition new_client (dir : option string) : AM nat :=
  fun w => (Ok (next_addr w),
            {| w_env := w_env w; w_realm := w_realm w;
               heap := <[next_addr w := Client.new dir]> (heap w);
               next_addr := S (next_addr w);
               activeSessions := activeSessions w; effects := effects w |}).

(** [activeSessions.get], [.set], [.delete] and [.size]. *)
Definition sessions_get (k : string) : AM (option nat) :=
  fun w => (Ok (activeSessions w !! k), w).

Definition sessions_set (k : string) (a : nat) : AM unit :=
  fun w => (Ok tt,
            {| w_env := w_env w; w_realm := w_realm w;
               heap := heap w; next_addr := next_addr w;
               activeSessions := <[k := a]> (activeSessions w);
               effects := effects w |}).

Definition sessions_delete (k : string) : AM unit :=
  fun w => (Ok tt,
            {| w_env := w_env w; w_realm := w_realm w;
               heap := heap w; next_addr := next_addr w;
               activeSessions := delete k (activeSessions w);
               effects := effects w |}).

Definition sessions_size : AM Z :=
  fun w => (Ok (Z.of_nat (size (activeSessions w))), w).

(** [await client.close()] on the object at [a]. *)
Definition client_close (a : nat) : AM unit :=
  do w <- get_world;
  let (c, evs) := Client.close (client_at w a) in
  set_client a c ;; emit evs.

(** The sum of the delays in a list of effects. *)
Definition delays (evs : list Effect) : Z :=
  foldr (fun ev acc => match ev with EffDelay ms => ms + acc | _ => acc end)
        0 evs.

(** [await client.init()] on the object at [a]. *)
Definition client_init (sys : Sys) (o : InitOracle) (a : nat) : AM unit :=
  do w <- get_world;
  match Client.init sys o (client_at w a) with
  | Some (r, c, evs) =>
      set_client a c ;; emit evs ;; advance (delays evs) ;;
      match r with
      | Ok _ => aret tt
      | Throw err => athrow err
      end
  | None => athrow "out of fuel"
  end.

(** [activityTracker.trackAction(a)] for each action of a list. *)
Fixpoint track_all (t : ActivityTracker) (actions : list Action)
  : AM ActivityTracker :=
  match actions with
  | [] => aret t
  | a :: rest =>
      do r <- call t (Tracker.trackAction a);
      track_all (snd r) rest
  end.

(** An interaction of the client at [a]: the recorded actions go through a
    tracker of the client's own, [new ActivityTracker(accountId)]. *)
Definition perform (trackerId : string) (a : nat) (i : Interaction)
  : AM unit :=
  do t <- new_tracker trackerId;
  track_all t (tracked i) ;;
  advance (elapsed i) ;;
  (if disconnects i
   then do w <- get_world;
        set_client a {| browser := option_map (fun _ => false)
                                     (browser (client_at w a));
                        page := page (client_at w a);
                        userDataDir := userDataDir (client_at w a) |}
   else aret tt) ;;
  match failure i with
  | Some err => athrow err
  | None => aret tt
  end.

End App.


Module Scheduler.
Import App.
Local Open Scope am_scope.

(** [(flag) ? activityTracker.getTimeUntilAvailable(action, limit) : 0] *)
Definition time_until (on : bool) (t : ActivityTracker) (a : Action) (L : Z)
  : AM (Z * ActivityTracker) :=
  if on then call t (Tracker.getTimeUntilAvailable a L) else aret (0, t).

(** PRE-RUN AVAILABILITY CHECK (app.ts, lines 108-130). *)
Definition preRunCheck (behavior : Behavior) (limits : Limits)
    (t : ActivityTracker) : AM (PreRun * ActivityTracker) :=
  do r1 <- time_until (not_false (enableLikes behavior)) t Likes
             (limit_arg (likesPerHour limits));
  let (msToNextLike, t) := r1 in
  do r2 <- time_until (not_false (enableComments behavior)) t Comments
             (limit_arg (commentsPerHour limits));
  let (msToNextComment, t) := r2 in
  do r3 <- time_until (is_true (enableAutoDMs behavior)) t DMs
             (or_number (dmsPerHour limits) 20);
  let (msToNextDM, t) := r3 in
  let isBlocked := true in
  let isBlocked :=
    if not_false (enableLikes behavior) && (msToNextLike =? 0)
    then false else isBlocked in
  let isBlocked :=
    if not_false (enableComments behavior) && (msToNextComment =? 0)
    then false else isBlocked in
  let isBlocked :=
    if is_true (enableAutoDMs behavior) && (msToNextDM =? 0)
    then false else isBlocked in
  let waits :=
    (if not_false (enableLikes behavior) then [msToNextLike] else [])
    ++ (if not_false (enableComments behavior) then [msToNextComment] else [])
    ++ (if is_true (enableAutoDMs behavior) then [msToNextDM] else []) in
  let maxWaitTime :=
    if isBlocked
    then (if (0 <? Z.of_nat (length waits))%Z then Math_min waits else 0)
    else 0 in
  aret ({| msToNextLike := msToNextLike;
           msToNextComment := msToNextComment;
           msToNextDM := msToNextDM;
           isBlocked := isBlocked;
           maxWaitTime := maxWaitTime |}, t).

(** The blocked branch (lines 138-145): close the session of the account,
    if there is one, and forget it. *)
Definition closeIfBlocked (account : Account) : AM unit :=
  do existingClient <- sessions_get (id account);
  match existingClient with
  | Some a => client_close a ;; sessions_delete (id account)
  | None => aret tt
  end.

(** REUSE OR CREATE CLIENT (lines 148-171). *)
Definition reuseOrCreateClient (account : Account) : AM nat :=
  do igClient <- sessions_get (id account);
  do w <- get_world;
  do igClient <-
    match igClient with
    | Some a =>
        if negb (Client.isConnected (client_at w a))
        then sessions_delete (id account) ;; aret None
        else aret (Some a)
    | None => aret None
    end;
  match igClient with
  | None =>
      do a <- new_client (a_userDataDir account);
      sessions_set (id account) a ;;
      aret a
  | Some a => aret a
  end.

(** The body of the inner [try] (lines 174-197). *)
Definition runSession (sys : Sys) (behavior : Behavior) (trackerId : string)
    (igClient : nat) (o : Oracle) : AM unit :=
  client_init sys (init_oracle o) igClient ;;
  (if is_true (enableAutoDMs behavior)
   then perform trackerId igClient (dm_check o)
   else aret tt) ;;
  if useHashtags o
  then perform trackerId igClient (hashtag_run o)
  else perform trackerId igClient (feed_run o).

(** [activeSessions.size >= maxSessions]; false when [maxSessions] is
    [NaN]. *)
Definition size_ge (size : Z) (m : option Z) : bool :=
  match m with
  | Some m => m <=? size
  | None => false
  end.

(** The nested conditions that set [limitsReachedNow] (lines 205-210). *)
Definition limitsReached (behavior : Behavior) (nextLike nextComment : Z)
  : bool :=
  if not_false (enableLikes behavior) && (0 <? nextLike)
  then (if is_false (enableComments behavior) || (0 <? nextComment)
        then true else false)
  else if not_false (enableComments behavior) && (0 <? nextComment)
       then (if is_false (enableLikes behavior) || (0 <? nextLike)
             then true else false)
       else false.

(** SMART CLOSE, the [finally] block (lines 201-230).  The result tells
    whether the session was closed. *)
Definition smartClose (sys : Sys) (account : Account) (behavior : Behavior)
    (limits : Limits) (t : ActivityTracker) (igClient : nat) : AM bool :=
  do r1 <- time_until (not_false (enableLikes behavior)) t Likes
             (limit_arg (likesPerHour limits));
  let (nextLike, t) := r1 in
  do r2 <- time_until (not_false (enableComments behavior)) t Comments
             (limit_arg (commentsPerHour limits));
  let (nextComment, t) := r2 in
  let limitsReachedNow := limitsReached behavior nextLike nextComment in
  do size <- sessions_size;
  let shouldClose := limitsReachedNow && size_ge size (maxSessions sys) in
  if shouldClose
  then client_close igClient ;; sessions_delete (id account) ;; aret true
  else aret false.

(** [createAccountLogger(account.id)] (config/logger): it creates the log
    directory of the account with [fs.mkdirSync] and builds the logger, and
    throws when that fails.  The logger itself is not modelled. *)
Definition createAccountLogger (o : Oracle) : AM unit :=
  match logger_error o with
  | Some err => athrow err
  | None => aret tt
  end.

(** Modelled from the spec: [EmailService.sendErrorAlert] is called by
    [processAccount] and is not in the sources at hand.  The specification's
    Notifier is fire-and-forget with failures swallowed, and the call site
    adds [.catch(() => { })]: the alert is an effect and never throws. *)
Definition sendErrorAlert (username message : string) : AM unit :=
  emit [EffAlert username message].

(** [processAccount] *)
Definition processAccount (sys : Sys) (account : Account)
    (character : Character) (emailService : bool) (o : Oracle) : AM unit :=
  advance (stagger o) ;;
  createAccountLogger o ;;
  try_catch
    (let characterBehavior :=
       match c_settings_behavior character with
       | Some b => b
       | None => default default_behavior (c_behavior character)
       end in
     let characterLimits := default default_limits (c_limits character) in
     let behavior := merge_behavior characterBehavior (a_behavior account) in
     let limits := merge_limits characterLimits (a_limits account) in
     let trackerId :=
       match truthy (a_userDataDir account) with
       | Some dir => path_basename sys dir
       | None => username account
       end in
     do activityTracker <- new_tracker trackerId;
     do pre <- preRunCheck behavior limits activityTracker;
     let (pre, activityTracker) := pre in
     if isBlocked pre then closeIfBlocked account
     else
       do igClient <- reuseOrCreateClient account;
       try_finally
         (try_catch (runSession sys behavior trackerId igClient o)
                    (fun err => athrow err))
         (smartClose sys account behavior limits activityTracker igClient ;;
          aret tt))
    (fun err =>
       if emailService
       then sendErrorAlert (username account) err
       else aret tt).

(** The outcome of the gate task [() => processAccount(account, ...)]. *)
Definition task_outcome (r : Res unit) : Outcome :=
  match r with
  | Ok _ => Fulfilled 0
  | Throw err => Rejected err
  end.

(** [await Promise.all(promises)] in [runInstagram], given the promises
    settled so far, in the order they settled: [Throw err] when one of them
    is rejected ([Promise.all] rejects with the first rejection), [Ok tt]
    when it has not rejected. *)
Definition Promise_all (settled_so_far : list (TaskId * Outcome)) : Res unit :=
  match omap (fun p => match snd p with
                       | Rejected err => Some err
                       | Fulfilled _ => None
                       end) settled_so_far with
  | err :: _ => Throw err
  | [] => Ok tt
  end.

End Scheduler.


(** *** Measures on effect lists, and well-formed worlds *)

Global Instance KillCommand_eq_dec : EqDecision KillCommand.
Proof. solve_decision. Defined.

Global Instance Effect_eq_dec : EqDecision Effect.
Proof. solve_decision. Defined.

Global Instance LaunchResult_eq_dec : EqDecision LaunchResult.
Proof. solve_decision. Defined.

(** The number of launches in a list of effects. *)
Definition launches (evs : list Effect) : nat :=
  length (filter (λ ev, ev = EffLaunch) evs).

(** The delays of a list of effects, in order. *)
Definition backoffs (evs : list Effect) : list Z :=
  omap (fun ev => match ev with EffDelay ms => Some ms | _ => None end) evs.

(** The kill commands of a list of effects, in order. *)
Definition execs (evs : list Effect) : list KillCommand :=
  omap (fun ev => match ev with EffExec c => Some c | _ => None end) evs.

(** The files deleted by a list of effects, in order. *)
Definition unlinks (evs : list Effect) : list string :=
  omap (fun ev => match ev with EffUnlink f => Some f | _ => None end) evs.

(** Every launch attempt, from [attempt] on, fails. *)
Definition all_fail (o : InitOracle) (attempt : Z) : Prop :=
  ∀ k, attempt ≤ k < Client.maxAttempts -> launch_result o k ≠ LaunchOk.

(** Addresses in use are below [next_addr]. *)
Definition world_wf (w : World) : Prop :=
  (∀ a c, heap w !! a = Some c -> (a < next_addr w)%nat)
  ∧ (∀ k a, activeSessions w !! k = Some a -> (a < next_addr w)%nat).

(** The settings [processAccount] works with. *)
Definition behavior_of (character : Character) (account : Account) : Behavior :=
  merge_behavior
    (match c_settings_behavior character with
     | Some b => b
     | None => default default_behavior (c_behavior character)
     end)
    (a_behavior account).

Definition limits_of (character : Character) (account : Account) : Limits :=
  merge_limits (default default_limits (c_limits character)) (a_limits account).

Definition trackerId_of (sys : Sys) (account : Account) : string :=
  match truthy (a_userDataDir account) with
  | Some dir => path_basename sys dir
  | None => username account
  end.

(** The value [getTimeUntilAvailable] has for an action type in a world. *)
Definition wait_in (w : World) (trackerId : string) (limits : Limits)
    (a : Action) : Z :=
  wait_of (w_realm w) (w_env w) trackerId a (limit_of limits a).

(** The enabled action types, in the order of the [waits] array. *)
Definition enabled_types (b : Behavior) : list Action :=
  filter (λ a, enabled b a = true) [Likes; Comments; DMs].


Ltac app_unfold :=
  unfold Scheduler.reuseOrCreateClient, Scheduler.closeIfBlocked,
    App.client_close, App.sessions_get, App.sessions_set, App.sessions_delete,
    App.sessions_size, App.new_client, App.set_client, App.emit, App.advance,
    App.get_world, App.new_tracker, App.call, abind, aret, athrow.

(** [path.basename] on a POSIX host: the last component of the path that is
    not empty. *)
Fixpoint components (p : string) (cur : string) : list string :=
  match p with
  | EmptyString => [cur]
  | String c rest =>
      if Ascii.eqb c "/"%char then cur :: components rest EmptyString
      else components rest (cur +:+ String c EmptyString)
  end.

Definition posix_basename (p : string) : string :=
  List.last (filter (λ x, x ≠ EmptyString) (components p EmptyString))
            EmptyString.

(** Concrete hosts, accounts and worlds used in examples.  The working
    directory is /srv/bot; [path_resolve] and [path_join] are given for
    relative paths without dots, as the examples have them. *)
Definition sys_linux (m : option Z) : Sys :=
  {| platform := Linux;
     path_resolve := fun d => ("/srv/bot/" +:+ d)%string;
     path_basename := posix_basename;
     path_join := fun d f => (d +:+ "/" +:+ f)%string;
     maxSessions := m |}.

Definition sys_mac (m : option Z) : Sys :=
  {| platform := OtherPlatform;
     path_resolve := fun d => ("/srv/bot/" +:+ d)%string;
     path_basename := posix_basename;
     path_join := fun d f => (d +:+ "/" +:+ f)%string;
     maxSessions := m |}.

Definition no_overrides : Behavior :=
  {| enableLikes := None; enableComments := None; enableAutoDMs := None |}.

Definition account_a1 (b : Behavior) (l : Limits) : Account :=
  {| id := "a1"; username := "alice"; a_userDataDir := Some "a1"%string;
     a_behavior := b; a_limits := l |}.

Definition no_character : Character :=
  {| c_settings_behavior := None; c_behavior := None; c_limits := None |}.

Definition connected_client : IgClient :=
  {| browser := Some true; page := true; userDataDir := Some "a1"%string |}.

Definition lost_client : IgClient :=
  {| browser := Some false; page := true; userDataDir := Some "a1"%string |}.

(** A world in which account a1 holds a session, at address 0. *)
Definition world_with_session (e : Env) (c : IgClient) : World :=
  {| w_env := e; w_realm := realm_clean;
     heap := {[ 0%nat := c ]};
     next_addr := 1;
     activeSessions := {[ "a1"%string := 0%nat ]};
     effects := [] |}.


(** Account a1 with one like 1 s ago and one comment 2 s ago. *)
Definition env_blocked : Env :=
  {| log_file := Some {[ "a1"%string :=
       {| likes := Some [10000000 - 1000];
          comments := Some [10000000 - 2000];
          dms := Some [] |} ]};
     log_writable := true;
     now := 10000000 |}.

Definition limits_one : Limits :=
  {| likesPerHour := Some 1; commentsPerHour := Some 1; dmsPerHour := None |}.

Definition with_dms : Behavior :=
  {| enableLikes := None; enableComments := None; enableAutoDMs := Some true |}.

Definition idle : Interaction :=
  {| tracked := []; elapsed := 0; disconnects := false; failure := None |}.

Definition init_ok : InitOracle :=
  {| launch_result := fun _ => LaunchOk;
     lock_present := fun _ _ => false;
     post_launch := None |}.

(** A run in which the browser starts at once, there is no message to answer
    and the feed interaction records one like and one comment. *)
Definition oracle_like_and_comment : Oracle :=
  {| stagger := 0;
     logger_error := None;
     init_oracle := init_ok;
     dm_check := idle;
     useHashtags := false;
     hashtag_run := idle;
     feed_run := {| tracked := [Likes; Comments]; elapsed := 60000;
                    disconnects := false; failure := None |} |}.

(** A world without sessions. *)
Definition world_empty (e : Env) : World :=
  {| w_env := e; w_realm := realm_clean; heap := ∅; next_addr := 0;
     activeSessions := ∅; effects := [] |}.


(** *** The retry schedule of [init], as the specification words it *)

(** After the failed launch number [i] (counted from 1) and before the next
    one: the browser is closed if it had opened, the stale lock is broken
    (holders killed, lock files deleted), and the client waits
    8 s + 2 s × i. *)
Definition between_launches (sys : Sys) (o : InitOracle) (c : IgClient)
    (i : Z) : list Effect :=
  match launch_result o (i - 1) with
  | NewPageFails _ => [EffBrowserClose]
  | _ => []
  end
  ++ Client.force_cleanup sys o i c
  ++ [EffDelay (8000 + 2000 * i)].

(** [n] failed launches in a row, the first being launch number [i], each
    followed by the steps above. *)
Fixpoint failed_launches (sys : Sys) (o : InitOracle) (c : IgClient)
    (i : Z) (n : nat) : list Effect :=
  match n with
  | O => []
  | S n' =>
      [EffLaunch] ++ between_launches sys o c i
      ++ failed_launches sys o c (i + 1) n'
  end.

(** Whether [m] preserves the registry entries of the accounts other than
    [k0]. *)
Definition keeps_sessions {A} (k0 : string) (m : AM A) : Prop :=
  ∀ w r w', m w = (r, w') ->
            ∀ k, k ≠ k0 -> activeSessions w' !! k = activeSessions w !! k.

(** Concrete oracles: every launch fails; the first launch fails. *)
Definition init_all_fail : InitOracle :=
  {| launch_result := fun _ => LaunchFails "profile in use";
     lock_present := fun _ f => bool_decide (f = "SingletonLock"%string);
     post_launch := None |}.

Definition init_second_ok : InitOracle :=
  {| launch_result := fun k => if k =? 0 then LaunchFails "profile in use"
                               else LaunchOk;
     lock_present := fun _ f => bool_decide (f = "SingletonLock"%string);
     post_launch := None |}.

Definition oracle_locked : Oracle :=
  {| stagger := 0;
     logger_error := None;
     init_oracle := init_all_fail;
     dm_check := idle;
     useHashtags := false;
     hashtag_run := idle;
     feed_run := idle |}.


Definition account_a2 : Account :=
  {| id := "a2"; username := "bob"; a_userDataDir := Some "a2"%string;
     a_behavior := no_overrides; a_limits := limits_one |}.

(** The log directory of the account cannot be created. *)
Definition oracle_no_logger : Oracle :=
  {| stagger := 0;
     logger_error := Some "EACCES: permission denied, mkdir"%string;
     init_oracle := init_ok;
     dm_check := idle;
     useHashtags := false;
     hashtag_run := idle;
     feed_run := idle |}.

(** *** Runs of [trackAction] calls *)

(** One call of [trackAction]: the object it is called on, the action and
    the clock value at the call.  [trackAction] has no [await]: calls made in
    one process run one after the other. *)
Record Write : Type := mkWrite {
  wr_tracker : ActivityTracker;
  wr_action : Action;
  wr_time : Z
}.

(** What the calls of one process share: its built-in objects and the
    log file. *)
Definition run_write (p : Realm * Env) (w : Write) : Realm * Env :=
  let s := (Tracker.trackAction (wr_action w)
              {| this := wr_tracker w; env := at_time (wr_time w) p.2;
                 realm := p.1 |}).2 in
  (realm s, env s).

Definition run_writes (ws : list Write) (p : Realm * Env) : Realm * Env :=
  foldl run_write p ws.

(** The clock values of the calls that record action [a] for account [id]. *)
Definition stamps_of (id : string) (a : Action) (ws : list Write) : list Z :=
  omap (fun w => if decide (accountId (wr_tracker w) = id ∧ wr_action w = a)
                 then Some (wr_time w) else None) ws.

(** *** [runInstagram] (src/app.ts) *)

(** What [runInstagram] reads from the process: the environment variables
    ([None] for [undefined]) and [parseInt(s, 10)], with [None] for [NaN]. *)
Record Proc : Type := mkProc {
  getenv : string -> option string;
  parseInt10 : string -> option Z
}.

(** [a || b] on values that are strings or [undefined]: the empty string is
    falsy. *)
Definition js_or (a b : option string) : option string :=
  match a with
  | Some s => if decide (s = EmptyString) then b else a
  | None => b
  end.

(** The truthiness of such a value. *)
Definition js_truthy (a : option string) : bool :=
  match a with
  | Some s => if decide (s = EmptyString) then false else true
  | None => false
  end.

(** An entry of accounts.json: the truthiness of its [enabled] field and the
    rest of the entry. *)
Record AccountEntry : Type := mkAccountEntry {
  ae_enabled : bool;
  ae_account : Account
}.

(** [limit(fn)] for each task of a list, in order. *)
Definition enqueue_all (ids : list TaskId) (g : Gate) : Gate :=
  foldl (fun g id => PLimit.enqueue id g) g ids.

(** What [runInstagram] has set up when it reaches [await Promise.all]:
    whether the alert service exists, the accounts whose tasks were handed to
    the gate (the task of the k-th enabled account has the number k) and the
    state of the gate.  A limit that is [NaN] makes [activeCount < concurrency]
    false, as the limit 0 does. *)
Record Submission : Type := mkSubmission {
  alertEmailService : bool;
  tasks : list Account;
  gate : Gate
}.

(** [runInstagram], up to [await Promise.all(promises)]; [None] is the early
    return taken when no account is enabled. *)
Definition runInstagram (p : Proc) (accounts : list AccountEntry)
  : option Submission :=
  let enabledAccounts := filter (λ a, ae_enabled a = true) accounts in
  if (Z.of_nat (length enabledAccounts) =? 0) then None
  else
    let mailUser := js_or (getenv p "IG_ALERT_EMAIL_USER") (getenv p "EMAIL_USER") in
    let mailPass := js_or (getenv p "IG_ALERT_EMAIL_PASS") (getenv p "EMAIL_PASS") in
    let alert := js_truthy mailUser && js_truthy mailPass in
    let maxConcurrent :=
      parseInt10 p (default "5"%string
                      (js_or (getenv p "MAX_CONCURRENT_SESSIONS") None)) in
    let limit := PLimit.pLimit (default 0 maxConcurrent) in
    Some {| alertEmailService := alert;
            tasks := map ae_account enabledAccounts;
            gate := enqueue_all (seq 0 (length enabledAccounts)) limit |}.

(** What a gate with the limit 1 keeps true. *)
Definition serial_inv (g : Gate) : Prop :=
  gate_inv g ∧ concurrency g = 1
  ∧ started g = (settled g).*1 ++ running g.

(** Every launch succeeds and the login fails. *)
Definition init_login_fails : InitOracle :=
  {| launch_result := fun _ => LaunchOk;
     lock_present := fun _ _ => false;
     post_launch := Some "Login failed"%string |}.

(** *** [chooseCharacter] (src/Agent/index.ts) *)

(** A field of a character file that the code reads as an array. *)
Inductive JField : Type :=
  | JFalsy                        (* absent, null, the empty string, 0, false *)
  | JArray (items : list string)
  | JString (s : string)          (* a string that is not empty *)
  | JOther.                       (* a number, true or a plain object *)

(** A parsed character file, as far as [chooseCharacter] reads it:
    [cd_behavior] is [charData.settings?.behavior] and [cd_limits] is
    [charData.limits], [None] when falsy. *)
Record CharData : Type := mkCharData {
  cd_behavior : option Behavior;
  cd_bio : JField;
  cd_lore : JField;
  cd_knowledge : JField;
  cd_topics : JField;
  cd_limits : option Limits
}.

(** The configuration object.  [bc_focusOn] is [None] when
    [aiPersona?.mindset] is falsy and [Some f] otherwise, [f] being
    [mindset.focusOn] ([None] when falsy); [bc_topics] is the same for
    [contentThemes] and [contentThemes.specificTopics]. *)
Record BaseConfig : Type := mkBaseConfig {
  bc_settings_behavior : option Behavior;
  bc_behavior : option Behavior;
  bc_limits : option Limits;
  bc_focusOn : option (option (list string));
  bc_topics : option (option (list string))
}.

Definition set_behavior (v : Behavior) (b : BaseConfig) : BaseConfig :=
  {| bc_settings_behavior := bc_settings_behavior b; bc_behavior := Some v;
     bc_limits := bc_limits b; bc_focusOn := bc_focusOn b;
     bc_topics := bc_topics b |}.

Definition set_limits (v : Limits) (b : BaseConfig) : BaseConfig :=
  {| bc_settings_behavior := bc_settings_behavior b;
     bc_behavior := bc_behavior b; bc_limits := Some v;
     bc_focusOn := bc_focusOn b; bc_topics := bc_topics b |}.

Definition set_focusOn (v : list string) (b : BaseConfig) : BaseConfig :=
  {| bc_settings_behavior := bc_settings_behavior b;
     bc_behavior := bc_behavior b; bc_limits := bc_limits b;
     bc_focusOn := Some (Some v); bc_topics := bc_topics b |}.

Definition set_topics (v : list string) (b : BaseConfig) : BaseConfig :=
  {| bc_settings_behavior := bc_settings_behavior b;
     bc_behavior := bc_behavior b; bc_limits := bc_limits b;
     bc_focusOn := bc_focusOn b; bc_topics := Some (Some v) |}.

(** The object [{}] as a set of limits. *)
Definition no_limits : Limits :=
  {| likesPerHour := None; commentsPerHour := None; dmsPerHour := None |}.

(** [(f || []).map(x => prefix + x)]; [None] when [map] is not a function
    of the value. *)
Definition map_field (prefix : string) (f : JField) : option (list string) :=
  match f with
  | JFalsy => Some []
  | JArray l => Some (map (String.append prefix) l)
  | JString _ | JOther => None
  end.

(** The values [...f] spreads; [None] when [f] is not iterable.  A string
    spreads into its characters. *)
Definition spread_field (f : JField) : option (list string) :=
  match f with
  | JFalsy => Some []
  | JArray l => Some l
  | JString s =>
      Some (map (fun c => String c EmptyString) (String.list_ascii_of_string s))
  | JOther => None
  end.

(** [extraKnowledge] *)
Definition extraKnowledge (cd : CharData) : option (list string) :=
  match map_field "Bio: " (cd_bio cd), map_field "Lore: " (cd_lore cd),
        map_field "Knowledge: " (cd_knowledge cd) with
  | Some bio, Some lore, Some knowledge => Some (bio ++ lore ++ knowledge)
  | _, _, _ => None
  end.

(** Step 4 of the merge. *)
Definition merge_char_limits (cd : CharData) (b : BaseConfig) : BaseConfig :=
  match cd_limits cd with
  | Some cl => set_limits (merge_limits (default no_limits (bc_limits b)) cl) b
  | None => b
  end.

(** The MERGING LOGIC on the configuration object [b].  The steps write to
    [b] one after the other; when one of them throws, the [catch] returns [b]
    as it is by then. *)
Definition merge_character (cd : CharData) (b : BaseConfig) : BaseConfig :=
  let b :=
    match cd_behavior cd with
    | Some cb =>
        set_behavior (merge_behavior (default no_overrides (bc_behavior b)) cb) b
    | None => b
    end in
  match extraKnowledge cd with
  | None => b
  | Some extra =>
      let b :=
        match bc_focusOn b with
        | Some focusOn => set_focusOn (default [] focusOn ++ extra) b
        | None => b
        end in
      match cd_topics cd, bc_topics b with
      | JFalsy, _ | _, None => merge_char_limits cd b
      | topics, Some specificTopics =>
          let b := set_topics (default [] specificTopics) b in
          match spread_field topics with
          | Some items =>
              merge_char_limits cd
                (set_topics (default [] specificTopics ++ items) b)
          | None => b
          end
      end
  end.

(** A file of the characters directory: absent, unreadable (it cannot be
    read or parsed, or holds [null]) or parsed. *)
Inductive CharFile : Type :=
  | FileMissing
  | FileUnreadable
  | FileParsed (cd : CharData).

(** What [require] finds for config/adrian-style: the module does not load,
    it loads and exports neither [default] nor [adrianStyleConfig], or it
    exports a configuration object.  [require] caches the module: every call
    gets the same object, and what a call writes to it stays. *)
Inductive ModuleExport : Type :=
  | LoadFails
  | NoExport
  | Exported (cfg : BaseConfig).

(** What [chooseCharacter] returns: [undefined], the exported object itself,
    or an object made by this call. *)
Inductive ConfigRef : Type :=
  | RUndefined
  | RShared
  | RFresh (cfg : BaseConfig).

(** The Minimal fallback. *)
Definition fallback_config : BaseConfig :=
  {| bc_settings_behavior := None;
     bc_behavior := Some {| enableLikes := Some true;
                            enableComments := Some true;
                            enableAutoDMs := None |};
     bc_limits := Some {| likesPerHour := Some 10;
                          commentsPerHour := Some 2;
                          dmsPerHour := None |};
     bc_focusOn := None;
     bc_topics := None |}.

(** [!characterFilename || characterFilename === 'adrian-style'] *)
Definition no_character_file (characterFilename : option string) : bool :=
  match characterFilename with
  | None => true
  | Some f => bool_decide (f = EmptyString) || bool_decide (f = "adrian-style"%string)
  end.

Definition chooseCharacter (files : string -> CharFile)
    (characterFilename : option string) (m : ModuleExport)
  : ConfigRef * ModuleExport :=
  let charData :=
    if no_character_file characterFilename then None
    else match files (default EmptyString characterFilename) with
         | FileParsed cd => Some cd
         | FileMissing | FileUnreadable => None
         end in
  match m with
  | LoadFails =>
      (RFresh (match charData with
               | Some cd => merge_character cd fallback_config
               | None => fallback_config
               end), m)
  | NoExport => (RUndefined, m)
  | Exported cfg =>
      (RShared, match charData with
                | Some cd => Exported (merge_character cd cfg)
                | None => m
                end)
  end.

(** The object a returned reference stands for. *)
Definition deref (r : ConfigRef) (m : ModuleExport) : option BaseConfig :=
  match r with
  | RUndefined => None
  | RShared => match m with Exported cfg => Some cfg | _ => None end
  | RFresh cfg => Some cfg
  end.

(** The character as [processAccount] reads it. *)
Definition character_of (c : option BaseConfig) : Character :=
  match c with
  | Some b => {| c_settings_behavior := bc_settings_behavior b;
                 c_behavior := bc_behavior b;
                 c_limits := bc_limits b |}
  | None => no_character
  end.

(** [chooseCharacter] called for each name of a list, in order. *)
Definition choose_all (files : string -> CharFile)
    (names : list (option string)) (m : ModuleExport) : ModuleExport :=
  foldl (fun m n => (chooseCharacter files n m).2) m names.

(** A character file with a biography, knowledge and limits. *)
Definition char_alice : CharData :=
  {| cd_behavior := None;
     cd_bio := JArray ["gardener"%string];
     cd_lore := JFalsy;
     cd_knowledge := JArray ["roses"%string; "tulips"%string];
     cd_topics := JFalsy;
     cd_limits := Some {| likesPerHour := Some 3; commentsPerHour := None;
                          dmsPerHour := None |} |}.

(** A character file that only sets a limit on comments. *)
Definition char_bob : CharData :=
  {| cd_behavior := None; cd_bio := JFalsy; cd_lore := JFalsy;
     cd_knowledge := JFalsy; cd_topics := JFalsy;
     cd_limits := Some {| likesPerHour := None; commentsPerHour := Some 1;
                          dmsPerHour := None |} |}.

Definition character_files (name : string) : CharFile :=
  if decide (name = "alice.json"%string) then FileParsed char_alice
  else if decide (name = "bob.json"%string) then FileParsed char_bob
  else FileMissing.

(** An exported configuration with a mindset and limits. *)
Definition base_style : BaseConfig :=
  {| bc_settings_behavior := None;
     bc_behavior := Some default_behavior;
     bc_limits := Some default_limits;
     bc_focusOn := Some (Some ["family"%string]);
     bc_topics := None |}.

(** Whether the merge of a character file into [b] reaches its last step
    (no step throws). *)
Definition merge_completes (cd : CharData) (b : BaseConfig) : bool :=
  match extraKnowledge cd with
  | None => false
  | Some _ =>
      match cd_topics cd, bc_topics b with
      | JOther, Some _ => false
      | _, _ => true
      end
  end.

(** An account that names no character and overrides nothing. *)
Definition account_plain : Account :=
  {| id := "a3"; username := "carol"; a_userDataDir := Some "a3"%string;
     a_behavior := no_overrides; a_limits := no_limits |}.

(** *** [IgClient.interactWithPosts] *)

(** An awaited call on the page: the time it takes and what it gives. *)
Record Step (A : Type) : Type := mkStep {
  took : Z;
  outcome : Res A
}.
Arguments took {A} s.
Arguments outcome {A} s.
Arguments mkStep {A} took outcome.

(** The value of [aria-label] on the like button. *)
Inductive LikeLabel : Type := AriaLike | AriaUnlike | AriaOther.

(** What the page shows and does while the loop handles one post. *)
Record PostView : Type := mkPostView {
  pv_exit : bool;                     (* getShouldExitInteractions() *)
  pv_post : Step bool;                (* page.$(postSelector): the post exists *)
  pv_button : Step (option LikeLabel);(* the like button and its label, if any *)
  pv_connected : Step bool;           (* likeButton.evaluate(el => el.isConnected) *)
  pv_click : Z;                       (* humanLikeClick and the delay after it *)
  pv_caption : Step unit;             (* the caption is read and expanded *)
  pv_comment_box : Step bool;         (* page.$(commentBoxSelector): it exists *)
  pv_comment_post : Step bool;        (* the comment is generated and typed;
                                         true: the Post button is found and clicked *)
  pv_wait : Z;                        (* Math.floor(Math.random() * 5000) + 5000 *)
  pv_scroll : Step unit               (* window.scrollBy *)
}.

(** What the page does during [interactWithPosts]. *)
Record Feed : Type := mkFeed {
  feed_load : Step unit;              (* page.waitForSelector('article') *)
  feed_screenshot : Step unit;        (* page.screenshot, when the feed did not load *)
  feed_post : Z -> PostView           (* the post handled when postIndex is k *)
}.

Module Posts.
Import App.
Local Open Scope am_scope.

(** [await s] *)
Definition await {A} (s : Step A) : AM A :=
  advance (took s) ;;
  match outcome s with
  | Ok x => aret x
  | Throw err => athrow err
  end.

(** [flag !== false && activityTracker.canPerformAction(action, limit)] *)
Definition can (on : bool) (t : ActivityTracker) (a : Action) (L : Z)
  : AM (bool * ActivityTracker) :=
  if on then call t (Tracker.canPerformAction a L) else aret (false, t).

(** LIKING LOGIC *)
Definition likeStep (behavior : Behavior) (maxLikesPerHour : Z)
    (t : ActivityTracker) (v : PostView) (ariaLabel : option LikeLabel)
  : AM ActivityTracker :=
  if not_false (enableLikes behavior) then
    do r <- call t (Tracker.canPerformAction Likes maxLikesPerHour);
    let (ok, t) := r in
    if negb ok then
      do r <- call t (Tracker.getRecentCount Likes);
      aret (snd r)
    else
      match ariaLabel with
      | Some AriaLike =>
          do isConnected <- try_catch (await (pv_connected v))
                              (fun _ => aret false);
          if isConnected then
            advance (pv_click v) ;;
            do r <- call t (Tracker.trackAction Likes);
            aret (snd r)
          else aret t
      | Some AriaUnlike | Some AriaOther | None => aret t
      end
  else aret t.

(** COMMENT LOGIC *)
Definition commentStep (behavior : Behavior) (maxCommentsPerHour : Z)
    (t : ActivityTracker) (v : PostView) : AM ActivityTracker :=
  if not_false (enableComments behavior) then
    do r <- call t (Tracker.canPerformAction Comments maxCommentsPerHour);
    let (ok, t) := r in
    if negb ok then
      do r <- call t (Tracker.getRecentCount Comments);
      aret (snd r)
    else
      do commentBox <- await (pv_comment_box v);
      if commentBox then
        do posted <- await (pv_comment_post v);
        if posted then
          do r <- call t (Tracker.trackAction Comments);
          advance 2000 ;;
          aret (snd r)
        else aret t
      else aret t
  else aret t.

(** One turn of the loop.  [None]: the loop ends ([break] or [return]);
    [Some t]: [postIndex++] and the next turn. *)
Definition iteration (behavior : Behavior)
    (maxLikesPerHour maxCommentsPerHour : Z) (t : ActivityTracker)
    (v : PostView) : AM (option ActivityTracker) :=
  if pv_exit v then aret None
  else
    do r1 <- can (not_false (enableLikes behavior)) t Likes maxLikesPerHour;
    let (canLike, t) := r1 in
    do r2 <- can (not_false (enableComments behavior)) t Comments
               maxCommentsPerHour;
    let (canComment, t) := r2 in
    if negb canLike && negb canComment then aret None
    else
      try_catch
        (do found <- await (pv_post v);
         if negb found then aret None
         else
           do ariaLabel <- await (pv_button v);
           do t <- likeStep behavior maxLikesPerHour t v ariaLabel;
           await (pv_caption v) ;;
           do t <- commentStep behavior maxCommentsPerHour t v;
           advance (pv_wait v) ;;
           advance 1000 ;;
           await (pv_scroll v) ;;
           aret (Some t))
        (fun _ => aret None).

Definition maxPosts : Z := 20.

(** The loop [while (postIndex <= maxPosts)]; it throws "out of fuel" when
    [fuel] turns do not suffice. *)
Fixpoint posts_loop (behavior : Behavior)
    (maxLikesPerHour maxCommentsPerHour : Z) (feed : Feed) (fuel : nat)
    (postIndex : Z) (t : ActivityTracker) : AM unit :=
  match fuel with
  | O => athrow "out of fuel"
  | S fuel' =>
      if postIndex <=? maxPosts then
        do r <- iteration behavior maxLikesPerHour maxCommentsPerHour t
                  (feed_post feed postIndex);
        match r with
        | Some t => posts_loop behavior maxLikesPerHour maxCommentsPerHour
                      feed fuel' (postIndex + 1) t
        | None => aret tt
        end
      else aret tt
  end.

(** [interactWithPosts({ behavior, limits })] on the client [c] of the
    account [username]. *)
Definition interactWithPosts (sys : Sys) (c : IgClient) (username : string)
    (behavior : Behavior) (limits : Limits) (feed : Feed) : AM unit :=
  if negb (page c) then athrow "Page not initialized"
  else
    let maxLikesPerHour := or_number (likesPerHour limits) 10 in
    let maxCommentsPerHour := or_number (commentsPerHour limits) 5 in
    let accountId :=
      match truthy (userDataDir c) with
      | Some dir => path_basename sys dir
      | None => username
      end in
    do activityTracker <- new_tracker accountId;
    do loaded <- try_catch (await (feed_load feed) ;; aret true)
                   (fun _ => await (feed_screenshot feed) ;; aret false);
    if negb loaded then aret tt
    else
      do r1 <- can (not_false (enableLikes behavior)) activityTracker Likes
                 maxLikesPerHour;
      let (initialCanLike, activityTracker) := r1 in
      do r2 <- can (not_false (enableComments behavior)) activityTracker
                 Comments maxCommentsPerHour;
      let (initialCanComment, activityTracker) := r2 in
      if negb initialCanLike && negb initialCanComment then aret tt
      else posts_loop behavior maxLikesPerHour maxCommentsPerHour feed
             (S (Z.to_nat maxPosts)) 1 activityTracker.

End Posts.

(** The clock does not run backwards while the page is used. *)
Definition feed_clock_ok (feed : Feed) : Prop :=
  0 ≤ took (feed_load feed) ∧ 0 ≤ took (feed_screenshot feed)
  ∧ ∀ k, let v := feed_post feed k in
         0 ≤ took (pv_post v) ∧ 0 ≤ took (pv_button v)
         ∧ 0 ≤ took (pv_connected v) ∧ 0 ≤ pv_click v
         ∧ 0 ≤ took (pv_caption v) ∧ 0 ≤ took (pv_comment_box v)
         ∧ 0 ≤ took (pv_comment_post v) ∧ 0 ≤ pv_wait v
         ∧ 0 ≤ took (pv_scroll v).

(** A feed in which every post can be liked and commented on, each step
    taking one second. *)
Definition step1 {A} (x : A) : Step A := {| took := 1000; outcome := Ok x |}.

Definition post_open : PostView :=
  {| pv_exit := false;
     pv_post := step1 true;
     pv_button := step1 (Some AriaLike);
     pv_connected := step1 true;
     pv_click := 800;
     pv_caption := step1 tt;
     pv_comment_box := step1 true;
     pv_comment_post := step1 true;
     pv_wait := 7000;
     pv_scroll := step1 tt |}.

Definition feed_open : Feed :=
  {| feed_load := step1 tt;
     feed_screenshot := step1 tt;
     feed_post := fun _ => post_open |}.

(** The world after [ms] milliseconds. *)
Definition later (ms : Z) (w : World) : World := (App.advance ms w).2.

(** The counts of likes and comments of account [id] that
    [canPerformAction] compares with the limits are within [BL] and [BC]. *)
Definition quota_within (id : string) (BL BC : nat) (w : World) : Prop :=
  (recent_count (w_realm w) (w_env w) id Likes ≤ BL)%nat
  ∧ (recent_count (w_realm w) (w_env w) id Comments ≤ BC)%nat.

(** What [interactWithPosts] for account [id] may change between two
    worlds: the clock advances, likes and comments of [id] are appended to
    the log, and nothing else changes. *)
Definition posts_frame (id : string) (w w' : World) : Prop :=
  now (w_env w) ≤ now (w_env w')
  ∧ log_writable (w_env w') = log_writable (w_env w)
  ∧ heap w' = heap w ∧ next_addr w' = next_addr w
  ∧ activeSessions w' = activeSessions w ∧ effects w' = effects w
  ∧ (∀ id' a, id' ≠ id ∨ a = DMs ->
       durable_history (w_env w') id' a = durable_history (w_env w) id' a)
  ∧ (∀ a, ∃ new, durable_history (w_env w') id a
                 = durable_history (w_env w) id a ++ new
                 ∧ ∀ x, x ∈ new -> now (w_env w) ≤ x ≤ now (w_env w')).

(** The relation the steps of [interactWithPosts] keep between the world
    before and the world after. *)
Definition posts_rel (id : string) (BL BC : nat) (w w' : World) : Prop :=
  posts_frame id w w' ∧ (quota_within id BL BC w -> quota_within id BL BC w').

(** A computation, run from [w], keeps [posts_rel] and returns a value
    that satisfies [P]. *)
Definition posts_sound {A} (id : string) (BL BC : nat) (P : A -> Prop)
    (m : AM A) (w : World) : Prop :=
  ∃ r w', m w = (r, w') ∧ posts_rel id BL BC w w' ∧ ∀ x, r = Ok x -> P x.



(** *** [createAccountLogger]: the directory name (config/logger) *)

(** Strings are read as sequences of code units; the characters of a Rocq
    string stand for the code units 0 to 255. *)

(** A character of the class [a-zA-Z0-9_-]. *)
Definition is_safe_char (c : ascii) : bool :=
  let n := nat_of_ascii c in
  ((97 <=? n) && (n <=? 122))%nat || ((65 <=? n) && (n <=? 90))%nat
  || ((48 <=? n) && (n <=? 57))%nat || (n =? 95)%nat || (n =? 45)%nat.

(** [accountId.replace(/[^a-zA-Z0-9_-]/g, '_')] *)
Fixpoint safeId (accountId : string) : string :=
  match accountId with
  | EmptyString => EmptyString
  | String c rest =>
      String (if is_safe_char c then c else "_"%char) (safeId rest)
  end.

(** Whether every character of a string is of the class. *)
Fixpoint all_safe (s : string) : bool :=
  match s with
  | EmptyString => true
  | String c rest => is_safe_char c && all_safe rest
  end.

(** *** [ScheduleTracker] (src/utils/scheduleTracker.ts) *)

(** logs/schedule_history.json: the own properties of the parsed object; for
    each account, [nextActiveTime], [None] when the entry has no such
    property. *)
Abbreviation ScheduleLog := (gmap string (option Z)).

Record SchedEnv : Type := mkSchedEnv {
  sched_file : option ScheduleLog;   (* None: missing or unreadable *)
  sched_writable : bool
}.

Record ScheduleTracker : Type := mkScheduleTracker {
  st_accountId : string;
  st_data : ScheduleLog
}.

(** As for the activity log, [this.data[id]] falls back on
    [Object.prototype].  [sop_next] is the property [nextActiveTime] of
    [Object.prototype], which this class can set.  [sop_objs] holds the
    properties of [Object.prototype] whose value is an object: its
    functions, and the arrays an [ActivityTracker] may have put there; each
    with its own property [nextActiveTime], when it has one. *)
Record SchedRealm : Type := mkSchedRealm {
  sop_next : option Z;
  sop_objs : gmap string (option Z)
}.

(** The built-in objects of a process that has just started. *)
Definition sched_realm_clean : SchedRealm :=
  {| sop_next := None;
     sop_objs :=
       list_to_map ((fun name => (name, None)) <$> proto_functions) |}.

(** What [this.data[id]] can be: an entry of the log, [Object.prototype],
    an object that is a property of it, or the number
    [Object.prototype.nextActiveTime]. *)
Inductive SchedObj : Type :=
  | SEntry
  | SProto
  | SMember (name : string)
  | SNumber (n : Z).

Module Schedule.

Definition loadData (e : SchedEnv) : ScheduleLog := default ∅ (sched_file e).

(** [saveData]: a failed write is logged and swallowed. *)
Definition saveData (d : ScheduleLog) (e : SchedEnv) : SchedEnv :=
  if sched_writable e
  then {| sched_file := Some d; sched_writable := sched_writable e |}
  else e.

(** [isSleepTime], given the value of [new Date().getHours()]. *)
Definition isSleepTime (sleepStartHour sleepEndHour currentHour : Z) : bool :=
  if sleepEndHour <? sleepStartHour
  then (sleepStartHour <=? currentHour) || (currentHour <? sleepEndHour)
  else (sleepStartHour <=? currentHour) && (currentHour <? sleepEndHour).

(** [this.data[id]] when it is truthy. *)
Definition resolve (rl : SchedRealm) (d : ScheduleLog) (id : string)
  : option SchedObj :=
  match d !! id with
  | Some _ => Some SEntry
  | None =>
      if decide (id = "__proto__"%string) then Some SProto
      else match sop_objs rl !! id with
           | Some _ => Some (SMember id)
           | None =>
               if decide (id = "nextActiveTime"%string)
               then match sop_next rl with
                    | Some n => if n =? 0 then None else Some (SNumber n)
                    | None => None
                    end
               else None
           end
  end.

(** [o.nextActiveTime]: the own property, else the one inherited from
    [Object.prototype]. *)
Definition get_next (rl : SchedRealm) (d : ScheduleLog) (id : string)
    (o : SchedObj) : option Z :=
  match o with
  | SEntry =>
      match d !! id with
      | Some (Some v) => Some v
      | _ => sop_next rl
      end
  | SProto => sop_next rl
  | SMember name =>
      match sop_objs rl !! name with
      | Some (Some v) => Some v
      | _ => sop_next rl
      end
  | SNumber _ => sop_next rl
  end.

Definition getNextActiveTime (t : ScheduleTracker) (e : SchedEnv)
    (rl : SchedRealm) : Z * ScheduleTracker :=
  let d := loadData e in
  (match resolve rl d (st_accountId t) with
   | None => 0
   | Some o => default 0 (get_next rl d (st_accountId t) o)
   end,
   {| st_accountId := st_accountId t; st_data := d |}).

(** [setNextActiveTime].  When [this.data[id]] is falsy the entry
    [{ nextActiveTime: 0 }] is created.  The assignment to a property of a
    number throws a [TypeError] (the code of a module is strict) before
    [saveData] is reached; its message, which names the number, is cut
    short here. *)
Definition setNextActiveTime (timestamp : Z) (t : ScheduleTracker)
    (e : SchedEnv) (rl : SchedRealm)
  : Res unit * ScheduleTracker * SchedEnv * SchedRealm :=
  let id := st_accountId t in
  let d0 := loadData e in
  let (o, d) := match resolve rl d0 id with
                | None => (SEntry, <[id := Some 0]> d0)
                | Some o => (o, d0)
                end in
  match o with
  | SEntry =>
      let d := <[id := Some timestamp]> d in
      (Ok tt, {| st_accountId := id; st_data := d |}, saveData d e, rl)
  | SProto =>
      (Ok tt, {| st_accountId := id; st_data := d |}, saveData d e,
       {| sop_next := Some timestamp; sop_objs := sop_objs rl |})
  | SMember name =>
      (Ok tt, {| st_accountId := id; st_data := d |}, saveData d e,
       {| sop_next := sop_next rl;
          sop_objs := <[name := Some timestamp]> (sop_objs rl) |})
  | SNumber _ =>
      (Throw "TypeError: Cannot create property 'nextActiveTime' on number",
       {| st_accountId := id; st_data := d |}, e, rl)
  end.

End Schedule.

(** *** [JobHistory] (src/services/JobHistory.ts) *)

(** data/job_history.json: missing, blank, not parseable, or parsed, with
    its [searched_jobs] array ([None] when the parsed value has none). *)
Inductive HistoryFile : Type :=
  | HMissing
  | HBlank
  | HCorrupt
  | HParsed (searched_jobs : option (list string)).

Record JHEnv : Type := mkJHEnv {
  jh_file : HistoryFile;
  jh_writable : bool
}.

(** The object: [this.history.searched_jobs]. *)
Record JobHistory : Type := mkJobHistory {
  searched_jobs : option (list string)
}.

Module History.

(** [ensureFile]: writes an empty history when the file is missing; the
    write is not guarded. *)
Definition ensureFile (e : JHEnv) : Res unit * JHEnv :=
  match jh_file e with
  | HMissing =>
      if jh_writable e
      then (Ok tt, {| jh_file := HParsed (Some []); jh_writable := true |})
      else (Throw "EACCES: permission denied", e)
  | _ => (Ok tt, e)
  end.

Definition loadHistory (e : JHEnv) : option (list string) :=
  match jh_file e with
  | HMissing | HBlank | HCorrupt => Some []
  | HParsed jobs => jobs
  end.

Definition saveHistory (h : JobHistory) (e : JHEnv) : JHEnv :=
  if jh_writable e
  then {| jh_file := HParsed (searched_jobs h); jh_writable := true |}
  else e.

(** [new JobHistory()] *)
Definition new (e : JHEnv) : Res JobHistory * JHEnv :=
  match ensureFile e with
  | (Ok _, e') => (Ok {| searched_jobs := loadHistory e' |}, e')
  | (Throw err, e') => (Throw err, e')
  end.

(** [isProcessed]: [includes] on a missing array throws. *)
Definition isProcessed (limitId : string) (h : JobHistory) : Res bool :=
  match searched_jobs h with
  | Some jobs => Ok (bool_decide (limitId ∈ jobs))
  | None => Throw "TypeError: Cannot read properties of undefined"
  end.

Definition addProcessed (limitId : string) (h : JobHistory) (e : JHEnv)
  : Res unit * JobHistory * JHEnv :=
  match isProcessed limitId h with
  | Throw err => (Throw err, h, e)
  | Ok true => (Ok tt, h, e)
  | Ok false =>
      let h' := {| searched_jobs :=
                     Some (default [] (searched_jobs h) ++ [limitId]) |} in
      (Ok tt, h', saveHistory h' e)
  end.

End History.

(** *** [JobAnalyzer.getNextKey] (src/services/JobAnalyzer.ts) *)

Record KeyRing : Type := mkKeyRing {
  apiKeys : list string;
  currentKeyIndex : nat
}.

(** [getNextKey]; the key is [None] for [undefined]. *)
Definition getNextKey (r : KeyRing) : option string * KeyRing :=
  if (length (apiKeys r) =? 0)%nat then (Some EmptyString, r)
  else
    (apiKeys r !! currentKeyIndex r,
     {| apiKeys := apiKeys r;
        currentKeyIndex := (currentKeyIndex r + 1) mod length (apiKeys r) |}).

(** [k] calls of [getNextKey], with the keys they return. *)
Fixpoint getNextKeys (k : nat) (r : KeyRing) : list (option string) * KeyRing :=
  match k with
  | O => ([], r)
  | S k' =>
      let (key, r1) := getNextKey r in
      let (keys, r2) := getNextKeys k' r1 in
      (key :: keys, r2)
  end.

(** *** [getNextAgentApiKey] (src/Agent/index.ts) *)

(** The module's state: [currentAgentApiKeyIndex] ([None] for [NaN], which
    [% 0] gives) and [triedAgentApiKeys]. *)
Record AgentKeys : Type := mkAgentKeys {
  currentAgentApiKeyIndex : option nat;
  triedAgentApiKeys : gset (option nat)
}.

Definition all_keys_tried : string :=
  "All API keys have reached their rate limits. Please try again later.".

(** [getNextAgentApiKey], for the key list [geminiApiKeys]; the key returned
    is [None] for [undefined]. *)
Definition getNextAgentApiKey (geminiApiKeys : list string) (st : AgentKeys)
  : Res (option string) * AgentKeys :=
  let tried := {[ currentAgentApiKeyIndex st ]} ∪ triedAgentApiKeys st in
  let index :=
    match currentAgentApiKeyIndex st with
    | Some i =>
        if (length geminiApiKeys =? 0)%nat then None
        else Some ((i + 1) mod length geminiApiKeys)%nat
    | None => None
    end in
  if (length geminiApiKeys <=? size tried)%nat
  then (Throw all_keys_tried,
        {| currentAgentApiKeyIndex := index; triedAgentApiKeys := ∅ |})
  else (Ok (index ≫= (geminiApiKeys !!.)),
        {| currentAgentApiKeyIndex := index; triedAgentApiKeys := tried |}).

(** [k] calls in a row, with their results. *)
Fixpoint agent_key_calls (k : nat) (geminiApiKeys : list string)
    (st : AgentKeys) : list (Res (option string)) * AgentKeys :=
  match k with
  | O => ([], st)
  | S k' =>
      let (r, st1) := getNextAgentApiKey geminiApiKeys st in
      let (rs, st2) := agent_key_calls k' geminiApiKeys st1 in
      (r :: rs, st2)
  end.

(** Effects that start no browser and touch no process or file: a browser
    is closed, or an alert is sent. *)
Definition quiet (evs : list Effect) : Prop :=
  Forall (λ ev, ev = EffBrowserClose ∨ ∃ u m, ev = EffAlert u m) evs.

(** From [w] to [w'] only such effects were added. *)
Definition quiet_from (w w' : World) : Prop :=
  ∃ evs, effects w' = effects w ++ evs ∧ quiet evs.

(** Whether a computation, run from [w], adds only such effects. *)
Definition keeps_quiet {A} (m : AM A) (w : World) : Prop :=
  ∀ r w', m w = (r, w') -> quiet_from w w'.


(** ** Part II.  Properties *)

(** *** Lists of timestamps *)

Lemma filter_hour_day (t : Z) (l : list Z) :
  filter (λ x, t - HOUR < x) (filter (λ x, t - DAY < x) l)
  = filter (λ x, t - HOUR < x) l.
Proof.
  apply list_filter_filter_l. intros x. unfold HOUR, DAY. lia.
Qed.

Lemma length_filter_split (P Q R : Z -> Prop)
    `{!∀ x, Decision (P x), !∀ x, Decision (Q x), !∀ x, Decision (R x)}
    (l : list Z) :
  (∀ x, P x ↔ (Q x ∨ R x)) -> (∀ x, Q x -> R x -> False) ->
  length (filter P l) = (length (filter Q l) + length (filter R l))%nat.
Proof.
  intros HP Hdisj. induction l as [|x l IH]; [done|].
  rewrite !filter_cons.
  destruct (decide (P x)) as [p|np].
  - apply HP in p as [q|r].
    + rewrite (decide_True _ _ q), (decide_False (P:=R x)) by eauto.
      simpl. lia.
    + rewrite (decide_True _ _ r), (decide_False (P:=Q x)) by eauto.
      simpl. lia.
  - rewrite (decide_False (P:=Q x)), (decide_False (P:=R x)); [done| |].
    + intros r. apply np, HP. by right.
    + intros q. apply np, HP. by left.
Qed.

Lemma min_list_elem (l : list Z) (m : Z) :
  min_list l = Some m -> m ∈ l ∧ ∀ x, x ∈ l -> m ≤ x.
Proof.
  destruct l as [|a l]; [done|]. simpl. intros [= <-].
  induction l as [|b l IH] in a |- *; simpl.
  - split; [apply list_elem_of_here|].
    intros x Hx. apply list_elem_of_singleton in Hx. lia.
  - destruct (IH a) as [Hin Hle]. split.
    + destruct (Z.min_spec b (foldr Z.min a l)) as [[_ ->]|[_ ->]].
      * apply list_elem_of_further, list_elem_of_here.
      * apply elem_of_cons in Hin as [Hin|Hin].
        -- rewrite Hin. apply list_elem_of_here.
        -- by do 2 apply list_elem_of_further.
    + intros x Hx.
      apply elem_of_cons in Hx as [->|Hx].
      * specialize (Hle a (list_elem_of_here _ _)). lia.
      * apply elem_of_cons in Hx as [->|Hx]; [lia|].
        specialize (Hle x (list_elem_of_further _ _ _ Hx)). lia.
Qed.

Lemma head_merge_sort_min (l : list Z) (h : Z) (tl : list Z) :
  merge_sort Z.le l = h :: tl -> h ∈ l ∧ ∀ x, x ∈ l -> h ≤ x.
Proof.
  intros Hs.
  pose proof (merge_sort_Permutation Z.le l) as Hp.
  pose proof (StronglySorted_merge_sort Z.le l) as Hss.
  rewrite Hs in Hp, Hss. split.
  - rewrite <- Hp. apply list_elem_of_here.
  - intros x Hx. rewrite <- Hp in Hx.
    apply elem_of_cons in Hx as [->|Hx]; [lia|].
    apply StronglySorted_inv in Hss as [_ Hall].
    rewrite Forall_forall in Hall. by apply Hall.
Qed.

(** *** What the tracker's methods compute *)

Lemma get_set_field (a a' : Action) (v : list Z) (e : AccountLog) :
  get_field a' (set_field a v e) = if decide (a' = a) then Some v else get_field a' e.
Proof. by destruct a, a'. Qed.

Lemma inherits_set_field (rl : Realm) (mp : gmap string AccountLog) (a : Action)
    (v : list Z) (id : string) :
  inherits rl id = true ->
  inherits {| op_props := set_field a v (op_props rl); member_props := mp |} id
  = true.
Proof.
  unfold inherits. simpl. intros H.
  apply orb_true_iff in H as [H|H]; [by rewrite H|].
  apply orb_true_iff. right.
  destruct (action_named id) as [f|]; [|done].
  apply bool_decide_eq_true in H. apply bool_decide_eq_true.
  rewrite get_set_field. by destruct (decide (f = a)).
Qed.

Lemma inherits_member_props (op : AccountLog) (mp mp' : gmap string AccountLog)
    (id : string) :
  inherits {| op_props := op; member_props := mp |} id
  = inherits {| op_props := op; member_props := mp' |} id.
Proof. done. Qed.

(** What [this.data[this.accountId]] is when it is [o]. *)
Lemma entry_of_inv (s : TState) (o : Obj) :
  entry_of s = Some o ->
  (o = OEntry ∧ is_Some (data (this s) !! accountId (this s)))
  ∨ (o = OProto ∧ data (this s) !! accountId (this s) = None
     ∧ accountId (this s) = "__proto__"%string)
  ∨ (o = OMember (accountId (this s))
     ∧ data (this s) !! accountId (this s) = None
     ∧ accountId (this s) ≠ "__proto__"%string
     ∧ inherits (realm s) (accountId (this s)) = true).
Proof.
  unfold entry_of, resolve.
  destruct (data (this s) !! accountId (this s)) as [en|].
  - intros [= <-]. left. eauto.
  - destruct (decide _) as [Hp|Hp].
    + intros [= <-]. right. left. eauto.
    + destruct (inherits _ _) eqn:Hi; [|done].
      intros [= <-]. right. right. eauto.
Qed.

(** [o[action] = v] *)
Lemma assign_spec (o : Obj) (a : Action) (v : list Z) (s : TState) :
  entry_of s = Some o ->
  let s' := (Tracker.assign o a v s).2 in
  env s' = env s
  ∧ accountId (this s') = accountId (this s)
  ∧ entry_of s' = Some o
  ∧ (∀ a', field_of s' o a'
           = if decide (a' = a) then Some v else field_of s o a')
  ∧ (o = OEntry -> realm s' = realm s)
  ∧ (o ≠ OEntry -> data (this s') = data (this s)).
Proof.
  intros Ho.
  apply entry_of_inv in Ho
    as [(-> & en & Hen)|[(-> & Hd & Hid)|(-> & Hd & Hid & Hi)]];
    destruct s as [[id d] e [op mp]]; simpl in *;
    unfold entry_of, field_of, resolve, js_get, own_field; tracker_unfold;
    simpl.
  - rewrite Hen, !lookup_insert_eq. simpl. repeat split; try done.
    intros a'. rewrite get_set_field. by destruct (decide (a' = a)).
  - rewrite Hd, Hid. simpl. repeat split; try done.
    intros a'. rewrite get_set_field. by destruct (decide (a' = a)).
  - rewrite Hd, !lookup_insert_eq. simpl.
    rewrite decide_False by done.
    rewrite (inherits_member_props op _ mp), Hi.
    repeat split; try done.
    intros a'. rewrite get_set_field.
    destruct (decide (a' = a)); [done|].
    destruct (mp !! id); simpl; [done|by destruct a'].
Qed.

Lemma set_field_twice (a : Action) (v v' : list Z) (e : AccountLog) :
  set_field a v (set_field a v' e) = set_field a v e.
Proof. by destruct a. Qed.

Lemma get_field_empty_entry (a : Action) : get_field a empty_entry = Some [].
Proof. by destruct a. Qed.

Lemma get_field_no_fields (a : Action) : get_field a no_fields = None.
Proof. by destruct a. Qed.

(** The state [trackAction] leaves.  When the records of the account and
    action are kept in the file, the new one goes to the account's entry,
    which is created when it is absent, and the built-in objects are
    untouched; otherwise the loaded data is unchanged and the record goes to
    a built-in object. *)
Lemma trackAction_state (s : TState) (a : Action) :
  let id := accountId (this s) in
  let d := default ∅ (log_file (env s)) in
  let l := read_history (realm s) d id a in
  ∃ d' rl',
    (Tracker.trackAction a s).2
    = {| this := {| accountId := id; data := d' |};
         env := if log_writable (env s)
                then {| log_file := Some d'; log_writable := true;
                        now := now (env s) |}
                else env s;
         realm := rl' |}
    ∧ if kept_in_file (realm s) (env s) id a
      then rl' = realm s
           ∧ d' = <[id := set_field a (l ++ [now (env s)])
                            (default empty_entry (d !! id))]> d
      else d' = d
           ∧ ∀ a', read_history rl' d id a'
                   = read_history (realm s) d id a'
                     ++ (if decide (a' = a) then [now (env s)] else []).
Proof.
  destruct s as [[id d0] [f wr t] [op mp]]. simpl.
  set (d := default ∅ f).
  unfold kept_in_file, read_history, resolve, js_get, own_field.
  tracker_unfold. simpl. fold d.
  unfold resolve, js_get, own_field. simpl.
  destruct (d !! id) as [en|] eqn:Hd.
  - repeat first [rewrite Hd | progress simpl].
    destruct (get_field a en) as [l|] eqn:Hown.
    + repeat first [rewrite Hd | rewrite Hown | progress simpl].
      eexists _, _. split; [by destruct wr|]. done.
    + destruct (get_field a op) as [l|] eqn:Hop.
      * repeat first [rewrite Hd | rewrite Hown | rewrite Hop | progress simpl].
        eexists _, _. split; [by destruct wr|]. split; [done|].
        intros a'. simpl. rewrite get_set_field.
        destruct (decide (a' = a)) as [->|]; [by rewrite Hown, Hop|].
        by rewrite app_nil_r.
      * repeat first [rewrite Hd | rewrite Hown | rewrite Hop
                     | rewrite lookup_insert_eq | rewrite get_set_field
                     | rewrite decide_True by done | progress simpl].
        eexists _, _. split; [by destruct wr|]. split; [done|].
        by rewrite insert_insert_eq, set_field_twice.
  - destruct (decide (id = "__proto__"%string)) as [Hp|Hp].
    + rewrite bool_decide_eq_false_2 by (by intros ?). simpl.
      destruct (get_field a op) as [l|] eqn:Hop.
      * repeat first [rewrite Hd | rewrite Hop | progress simpl].
        eexists _, _. split; [by destruct wr|]. split; [done|].
        intros a'. simpl. rewrite get_set_field.
        destruct (decide (a' = a)) as [->|]; [by rewrite Hop|].
        by rewrite app_nil_r.
      * repeat first [rewrite Hd | rewrite Hop | rewrite get_set_field
                     | rewrite decide_True by done | progress simpl].
        eexists _, _. split; [by destruct wr|]. split; [done|].
        intros a'. simpl. rewrite !get_set_field.
        destruct (decide (a' = a)) as [->|]; [by rewrite Hop|].
        by rewrite app_nil_r.
    + rewrite bool_decide_eq_true_2 by done. simpl.
      destruct (inherits _ id) eqn:Hi; simpl.
      * destruct (mp !! id ≫= get_field a) as [l|] eqn:Hown.
        -- repeat first [rewrite Hd | rewrite Hown | progress simpl].
           eexists _, _. split; [by destruct wr|]. split; [done|].
           intros a'. simpl.
           rewrite (inherits_member_props op _ mp), Hi, lookup_insert_eq.
           simpl. rewrite get_set_field.
           destruct (decide (a' = a)) as [->|]; [by rewrite Hown|].
           rewrite app_nil_r.
           destruct (mp !! id); simpl; [done|by rewrite get_field_no_fields].
        -- destruct (get_field a op) as [l|] eqn:Hop.
           ++ repeat first [rewrite Hd | rewrite Hown | rewrite Hop
                           | progress simpl].
              eexists _, _. split; [by destruct wr|]. split; [done|].
              intros a'. simpl.
              rewrite (inherits_set_field
                         {| op_props := op; member_props := mp |}) by done.
              rewrite get_set_field.
              destruct (decide (a' = a)) as [->|]; [by rewrite Hown, Hop|].
              by rewrite app_nil_r.
           ++ repeat first [rewrite Hd | rewrite Hown | rewrite Hop
                           | rewrite lookup_insert_eq | rewrite get_set_field
                           | rewrite decide_True by done | progress simpl].
              eexists _, _. split; [by destruct wr|]. split; [done|].
              intros a'. simpl.
              rewrite (inherits_member_props op _ mp), Hi, lookup_insert_eq.
              simpl. rewrite !get_set_field.
              destruct (decide (a' = a)) as [->|]; [by rewrite Hown, Hop|].
              rewrite app_nil_r.
              destruct (mp !! id); simpl; [done|by rewrite get_field_no_fields].
      * repeat first [rewrite lookup_insert_eq | rewrite get_field_empty_entry
                     | progress simpl].
        eexists _, _. split; [by destruct wr|]. split; [done|].
        by rewrite insert_insert_eq.
Qed.

Lemma getHistory_spec (s : TState) (a : Action) :
  (Tracker.getHistory a s).1
  = read_history (realm s) (data (this s)) (accountId (this s)) a
  ∧ env (Tracker.getHistory a s).2 = env s
  ∧ realm (Tracker.getHistory a s).2 = realm s
  ∧ accountId (this (Tracker.getHistory a s).2) = accountId (this s).
Proof.
  unfold read_history. tracker_unfold. simpl.
  destruct (resolve _ _ _) as [o|] eqn:E; simpl; [done|].
  split; [|done].
  unfold js_get, own_field. rewrite lookup_insert_eq. simpl.
  by rewrite get_field_empty_entry.
Qed.

Lemma read_history_field (s : TState) (o : Obj) (a : Action) :
  entry_of s = Some o ->
  read_history (realm s) (data (this s)) (accountId (this s)) a
  = or_empty (field_of s o a).
Proof. unfold read_history, entry_of, field_of. by intros ->. Qed.

Lemma cleanOldEntries_spec (s : TState) :
  let s' := (Tracker.cleanOldEntries s).2 in
  env s' = env s
  ∧ accountId (this s') = accountId (this s)
  ∧ (∀ o, entry_of s = Some o ->
          entry_of s' = Some o
          ∧ (o = OEntry -> realm s' = realm s)
          ∧ (o ≠ OEntry -> data (this s') = data (this s)))
  ∧ (entry_of s = None -> s' = s)
  ∧ ∀ a, read_history (realm s') (data (this s')) (accountId (this s)) a
         = filter (λ x, now (env s) - DAY < x)
             (read_history (realm s) (data (this s)) (accountId (this s)) a).
Proof.
  unfold Tracker.cleanOldEntries, Tracker.Date_now, Tracker.entry,
    Tracker.field, Tracker.get_accountId, Tracker.get_data, Tracker.get_realm,
    tbind, tret.
  simpl. fold (entry_of s).
  destruct (entry_of s) as [o|] eqn:Ho; simpl.
  2:{ split; [done|]. split; [done|]. split; [done|]. split; [done|].
      intros a. unfold read_history. unfold entry_of in Ho. by rewrite Ho. }
  set (cut := λ x : Z, now (env s) - DAY < x).
  fold (field_of s o Likes).
  destruct (Tracker.assign o Likes _ s) as [[] s1] eqn:E1.
  pose proof (assign_spec o Likes (filter cut (or_empty (field_of s o Likes)))
                s Ho) as H1.
  rewrite E1 in H1. simpl in H1.
  destruct H1 as (He1 & Hi1 & Ho1 & Hf1 & Hr1 & Hd1).
  fold (field_of s1 o Comments).
  destruct (Tracker.assign o Comments _ s1) as [[] s2] eqn:E2.
  pose proof (assign_spec o Comments
                (filter cut (or_empty (field_of s1 o Comments))) s1 Ho1) as H2.
  rewrite E2 in H2. simpl in H2.
  destruct H2 as (He2 & Hi2 & Ho2 & Hf2 & Hr2 & Hd2).
  fold (field_of s2 o DMs).
  pose proof (assign_spec o DMs
                (filter cut (or_empty (field_of s2 o DMs))) s2 Ho2) as H3.
  destruct (Tracker.assign o DMs _ s2) as [[] s3] eqn:E3.
  simpl in H3. destruct H3 as (He3 & Hi3 & Ho3 & Hf3 & Hr3 & Hd3). simpl.
  split; [congruence|]. split; [congruence|].
  split; [intros o' [= <-]; split; [done|]; split;
          [intros ->; rewrite Hr3, Hr2, Hr1; done
          |intros Hne; rewrite Hd3, Hd2, Hd1; done]|].
  split; [done|].
  intros a.
  replace (accountId (this s)) with (accountId (this s3)) at 1 by congruence.
  rewrite (read_history_field s3 o) by done.
  rewrite (read_history_field s o) by done.
  rewrite Hf3.
  destruct a; simpl.
  - rewrite Hf2. simpl. by rewrite Hf1.
  - rewrite Hf2. simpl. by rewrite Hf1.
  - rewrite Hf2. simpl. by rewrite Hf1.
Qed.

(** The state after the reload [this.data = this.loadData()]. *)
Lemma canPerformAction_fst (s : TState) (a : Action) (L : Z) :
  (Tracker.canPerformAction a L s).1
  = (Z.of_nat (recent_count (realm s) (env s) (accountId (this s)) a) <? L).
Proof.
  unfold Tracker.canPerformAction, Tracker.loadData, Tracker.set_data,
    Tracker.Date_now, tbind, tret. simpl.
  set (s0 := {| this := {| accountId := accountId (this s);
                           data := default ∅ (log_file (env s)) |};
                env := env s; realm := realm s |}).
  pose proof (cleanOldEntries_spec s0) as (He & Hi & _ & _ & Hh).
  destruct (Tracker.cleanOldEntries s0) as [[] s1]. simpl in *.
  pose proof (getHistory_spec s1 a) as (Hv & He' & _).
  destruct (Tracker.getHistory a s1) as [h s2]. simpl in *.
  subst h. rewrite Hi, Hh, He', He. simpl.
  unfold recent_count, history_of. by rewrite filter_hour_day.
Qed.



Lemma getTimeUntilAvailable_fst (s : TState) (a : Action) (L : Z) :
  (Tracker.getTimeUntilAvailable a L s).1
  = wait_of (realm s) (env s) (accountId (this s)) a L.
Proof.
  unfold Tracker.getTimeUntilAvailable, Tracker.loadData, Tracker.set_data,
    Tracker.Date_now, tbind, tret. simpl.
  set (s0 := {| this := {| accountId := accountId (this s);
                           data := default ∅ (log_file (env s)) |};
                env := env s; realm := realm s |}).
  pose proof (getHistory_spec s0 a) as (Hv & He' & _).
  destruct (Tracker.getHistory a s0) as [h s2]. simpl in *.
  subst h. rewrite He'. unfold wait_of, history_of.
  destruct (_ <? L); [done|].
  destruct (merge_sort _ _); simpl; [done|]. by rewrite He'.
Qed.

(** The three query methods leave the environment as it is and keep the
    receiver's id. *)
Lemma canPerformAction_frame (s : TState) (a : Action) (L : Z) :
  env (Tracker.canPerformAction a L s).2 = env s
  ∧ accountId (this (Tracker.canPerformAction a L s).2) = accountId (this s).
Proof.
  unfold Tracker.canPerformAction, Tracker.loadData, Tracker.set_data,
    Tracker.Date_now, tbind, tret. simpl.
  set (s0 := {| this := {| accountId := accountId (this s);
                           data := default ∅ (log_file (env s)) |};
                env := env s; realm := realm s |}).
  pose proof (cleanOldEntries_spec s0) as (He & Hi & _).
  destruct (Tracker.cleanOldEntries s0) as [[] s1]. simpl in *.
  pose proof (getHistory_spec s1 a) as (_ & He' & _ & Hi').
  destruct (Tracker.getHistory a s1) as [h s2]. simpl in *.
  split; congruence.
Qed.

Lemma canPerformAction_env (s : TState) (a : Action) (L : Z) :
  env (Tracker.canPerformAction a L s).2 = env s.
Proof. apply canPerformAction_frame. Qed.

Lemma getRecentCount_frame (s : TState) (a : Action) :
  env (Tracker.getRecentCount a s).2 = env s
  ∧ realm (Tracker.getRecentCount a s).2 = realm s
  ∧ accountId (this (Tracker.getRecentCount a s).2) = accountId (this s).
Proof.
  unfold Tracker.getRecentCount, Tracker.loadData, Tracker.set_data,
    Tracker.Date_now, tbind, tret. simpl.
  set (s0 := {| this := {| accountId := accountId (this s);
                           data := default ∅ (log_file (env s)) |};
                env := env s; realm := realm s |}).
  pose proof (getHistory_spec s0 a) as (_ & He' & Hr' & Hi').
  by destruct (Tracker.getHistory a s0) as [h s2].
Qed.

Lemma getRecentCount_env (s : TState) (a : Action) :
  env (Tracker.getRecentCount a s).2 = env s.
Proof. apply getRecentCount_frame. Qed.

Lemma getTimeUntilAvailable_frame (s : TState) (a : Action) (L : Z) :
  env (Tracker.getTimeUntilAvailable a L s).2 = env s
  ∧ realm (Tracker.getTimeUntilAvailable a L s).2 = realm s
  ∧ accountId (this (Tracker.getTimeUntilAvailable a L s).2)
    = accountId (this s).
Proof.
  unfold Tracker.getTimeUntilAvailable, Tracker.loadData, Tracker.set_data,
    Tracker.Date_now, tbind, tret. simpl.
  set (s0 := {| this := {| accountId := accountId (this s);
                           data := default ∅ (log_file (env s)) |};
                env := env s; realm := realm s |}).
  pose proof (getHistory_spec s0 a) as (_ & He' & Hr' & Hi').
  destruct (Tracker.getHistory a s0) as [h s2]. simpl in *.
  destruct (_ <? L); [done|]. by destruct (merge_sort _ _).
Qed.

Lemma getTimeUntilAvailable_env (s : TState) (a : Action) (L : Z) :
  env (Tracker.getTimeUntilAvailable a L s).2 = env s.
Proof. apply getTimeUntilAvailable_frame. Qed.

(** *** Where the records are kept *)

(** When the records of an account and action are kept in the file, the
    tracker reads what the file holds. *)
Lemma kept_history (rl : Realm) (e : Env) (id : string) (a : Action) :
  kept_in_file rl e id a = true ->
  history_of rl e id a = durable_history e id a.
Proof.
  unfold kept_in_file, history_of, read_history, durable_history, resolve,
    js_get, own_field.
  destruct (default ∅ (log_file e) !! id) as [en|]; simpl.
  - destruct (get_field a en); [done|].
    by destruct (get_field a (op_props rl)).
  - intros [Hp Hi]%andb_true_iff. apply bool_decide_eq_true in Hp.
    rewrite decide_False by done. apply negb_true_iff in Hi. by rewrite Hi.
Qed.

(** That is so for every id that is not the name of a member of
    [Object.prototype], as long as [Object.prototype] has not been given
    arrays of its own. *)
Lemma own_key_kept (rl : Realm) (e : Env) (id : string) (a : Action) :
  own_key id = true -> op_props rl = no_fields ->
  kept_in_file rl e id a = true.
Proof.
  unfold own_key, kept_in_file, inherits.
  intros [Hp Hf]%andb_true_iff Hop. rewrite Hop, get_field_no_fields.
  destruct (default ∅ (log_file e) !! id) as [en|].
  - by destruct (get_field a en).
  - rewrite Hp. simpl. apply bool_decide_eq_true in Hf.
    rewrite (bool_decide_eq_false_2 (id ∈ proto_functions)) by done. simpl.
    destruct (action_named id) as [f|]; [|done].
    rewrite get_field_no_fields. apply negb_true_iff, bool_decide_eq_false.
    by intros [? ?].
Qed.

Lemma history_of_at_time (r : Z) (rl : Realm) (e : Env) (id : string)
    (a : Action) :
  history_of rl (at_time r e) id a = history_of rl e id a.
Proof. done. Qed.

Lemma durable_history_at_time (r : Z) (e : Env) (id : string) (a : Action) :
  durable_history (at_time r e) id a = durable_history e id a.
Proof. done. Qed.

Lemma kept_in_file_at_time (r : Z) (rl : Realm) (e : Env) (id : string)
    (a : Action) :
  kept_in_file rl (at_time r e) id a = kept_in_file rl e id a.
Proof. done. Qed.

(** *** Quota availability *)

Lemma recent_count_split (rl : Realm) (e : Env) (id : string) (a : Action) :
  recent_count rl e id a
  = (spec_window_count rl e id a + future_count rl e id a)%nat.
Proof.
  unfold recent_count, spec_window_count, spec_window, future_count.
  apply length_filter_split.
  - intros x. unfold HOUR. lia.
  - intros x. lia.
Qed.

(** C2, as the code has it.  [canPerformAction] answers false exactly when
    the limit is at most the number of timestamps it reads for the account
    and action that are newer than one hour before the clock value.  The
    filter has no upper bound: that number is the count of the window
    (now - 1h, now] plus the count of the records stamped after now.  What
    it reads is what the log file holds at the call when the records of the
    account are kept in the file, and they are for every id that is not the
    name of a member of [Object.prototype] (in a process where
    [Object.prototype] has no arrays of its own). *)
Theorem canPerformAction_false_iff (s : TState) (a : Action) (L : Z) :
  let id := accountId (this s) in
  ((Tracker.canPerformAction a L s).1 = false
   ↔ L ≤ Z.of_nat (recent_count (realm s) (env s) id a))
  ∧ recent_count (realm s) (env s) id a
    = (spec_window_count (realm s) (env s) id a
       + future_count (realm s) (env s) id a)%nat
  ∧ (kept_in_file (realm s) (env s) id a = true ->
     history_of (realm s) (env s) id a = durable_history (env s) id a)
  ∧ (own_key id = true -> op_props (realm s) = no_fields ->
     kept_in_file (realm s) (env s) id a = true).
Proof.
  intros id. split; [|split; [apply recent_count_split|split]].
  - rewrite canPerformAction_fst. apply Z.ltb_ge.
  - apply kept_history.
  - apply own_key_kept.
Qed.

(** C2 as worded fails: with one like stamped after the clock value and a
    limit of 1, the window (now - 1h, now] is empty, yet the answer is
    false. *)
Lemma canPerformAction_window_counterexample :
  ¬ (∀ (s : TState) (a : Action) (L : Z),
       (Tracker.canPerformAction a L s).1 = false
       ↔ L ≤ Z.of_nat (spec_window_count (realm s) (env s)
                         (accountId (this s)) a)).
Proof.
  intros H.
  destruct (H (Tracker.new "a1" env_future_like) Likes 1) as [H1 _].
  assert (Hle : 1 ≤ 0); [|lia].
  apply H1. vm_compute. reflexivity.
Qed.

(** The scenario of the specification: ten likes in the last hour, all in
    the file and none stamped after the clock value; the answer is false
    for a limit of 10. *)
Lemma canPerformAction_false_iff_witness :
  let s := Tracker.new "a1" env_ten_likes in
  own_key "a1" = true
  ∧ op_props (realm s) = no_fields
  ∧ (Tracker.canPerformAction Likes 10 s).1 = false
  ∧ spec_window_count (realm s) (env s) "a1" Likes = 10%nat
  ∧ future_count (realm s) (env s) "a1" Likes = 0%nat
  ∧ history_of (realm s) (env s) "a1" Likes
    = durable_history (env s) "a1" Likes.
Proof.
  intros s.
  destruct (canPerformAction_false_iff s Likes 10)
    as (Hiff & Hsplit & Hread & Hkept).
  assert (H1 : own_key "a1" = true) by reflexivity.
  assert (H2 : op_props (realm s) = no_fields) by reflexivity.
  split; [exact H1|]. split; [exact H2|].
  split; [apply Hiff; vm_compute; discriminate|].
  split; [vm_compute; reflexivity|]. split; [vm_compute; reflexivity|].
  exact (Hread (Hkept H1 H2)).
Defined.

(** An id that names a member of [Object.prototype] is not kept in the file.
    A tracker for the id [constructor] records a like on a fresh log: the
    file is written without it, the same process counts it, and a process
    started afterwards does not. *)
Example prototype_id_not_in_file :
  let s1 := (Tracker.trackAction Likes
               (Tracker.new "constructor" (env_fresh 100))).2 in
  log_file (env s1) = Some ∅
  ∧ (Tracker.canPerformAction Likes 1 s1).1 = false
  ∧ (Tracker.canPerformAction Likes 1
       (Tracker.new "constructor" (env s1))).1 = true.
Proof. vm_compute. done. Qed.

(** *** Wait computation *)

Lemma spec_window_recent (rl : Realm) (e : Env) (id : string) (a : Action)
    (x : Z) :
  x ∈ spec_window rl e id a ->
  x ∈ filter (λ t, now e - HOUR < t) (history_of rl e id a) ∧ x ≤ now e.
Proof.
  unfold spec_window. rewrite !list_elem_of_filter. tauto.
Qed.

Lemma recent_spec_window (rl : Realm) (e : Env) (id : string) (a : Action)
    (x : Z) :
  x ∈ filter (λ t, now e - HOUR < t) (history_of rl e id a) ->
  x ≤ now e -> x ∈ spec_window rl e id a.
Proof.
  unfold spec_window. rewrite !list_elem_of_filter. tauto.
Qed.

(** The head of the sorted list is the minimum. *)
Lemma head_merge_sort_min_list (l : list Z) :
  head (merge_sort Z.le l) = min_list l.
Proof.
  destruct (merge_sort Z.le l) as [|h tl] eqn:Hs.
  - pose proof (merge_sort_Permutation Z.le l) as Hp. rewrite Hs in Hp.
    apply Permutation_nil_l in Hp. by subst l.
  - apply head_merge_sort_min in Hs as [Hh Hle].
    destruct (min_list l) as [m|] eqn:Hm.
    + apply min_list_elem in Hm as [Hin Hmin]. simpl. f_equal.
      pose proof (Hle m Hin). pose proof (Hmin h Hh). lia.
    + destruct l; [by apply elem_of_nil in Hh|done].
Qed.

(** The wait of a blocked action, by the oldest of the records counted. *)
Lemma wait_of_min (rl : Realm) (e : Env) (id : string) (a : Action) (L : Z) :
  (Z.of_nat (recent_count rl e id a) <? L) = false ->
  wait_of rl e id a L
  = match min_list (filter (λ t, now e - HOUR < t) (history_of rl e id a)) with
    | Some m => Z.max 0 (m + HOUR - now e)
    | None => 0
    end.
Proof.
  intros Hlim. unfold wait_of. unfold recent_count in Hlim. rewrite Hlim.
  rewrite <- head_merge_sort_min_list.
  destruct (merge_sort Z.le _) as [|h tl]; simpl; [done|].
  destruct (0 <? h + HOUR - now e) eqn:Hpos.
  - apply Z.ltb_lt in Hpos. lia.
  - apply Z.ltb_ge in Hpos. lia.
Qed.

Lemma filter_window_no_future (t : Z) (l : list Z) :
  filter (λ x, t < x) l = [] ->
  filter (λ x, t - HOUR < x ∧ x ≤ t) l = filter (λ x, t - HOUR < x) l.
Proof.
  induction l as [|x l IH]; [done|]. rewrite filter_cons.
  destruct (decide (t < x)); [done|]. intros Hfut.
  rewrite !filter_cons, IH by done.
  destruct (decide (t - HOUR < x)).
  - by rewrite decide_True by lia.
  - by rewrite decide_False by lia.
Qed.

(** When the window (now - 1h, now] has an oldest record and no record is
    stamped after now, it is the head of the sorted list the code builds. *)
Lemma wait_of_oldest (rl : Realm) (e : Env) (id : string) (a : Action)
    (L m : Z) :
  (Z.of_nat (recent_count rl e id a) <? L) = false ->
  future_count rl e id a = 0%nat ->
  oldest_in_window rl e id a = Some m ->
  wait_of rl e id a L = Z.max 0 (m + HOUR - now e).
Proof.
  intros Hlim Hfut Hm. rewrite wait_of_min by done.
  unfold oldest_in_window, spec_window in Hm.
  unfold future_count in Hfut. apply length_zero_iff_nil in Hfut.
  rewrite <- filter_window_no_future by done.
  unfold oldest_in_window, spec_window in Hm. by rewrite Hm.
Qed.

(** C3, as the code has it.  [getTimeUntilAvailable] returns 0 whenever
    [canPerformAction] answers true.  When it answers false, the result is
    max(0, m + 1h - now) for the oldest [m] of the records newer than one
    hour before the clock value, those stamped after the clock value
    included, and 0 when there is no such record, which requires a limit of
    0 or less.  When no record is stamped after the clock value, [m] is the
    oldest record of the window (now - 1h, now].  The result is a function
    of the records read and the clock value alone. *)
Theorem getTimeUntilAvailable_spec (s : TState) (a : Action) (L : Z) :
  let id := accountId (this s) in
  let recent := filter (λ t, now (env s) - HOUR < t)
                  (history_of (realm s) (env s) id a) in
  ((Tracker.canPerformAction a L s).1 = true ->
   (Tracker.getTimeUntilAvailable a L s).1 = 0)
  ∧ ((Tracker.canPerformAction a L s).1 = false ->
     (Tracker.getTimeUntilAvailable a L s).1
     = match min_list recent with
       | Some m => Z.max 0 (m + HOUR - now (env s))
       | None => 0
       end
     ∧ (min_list recent = None -> L ≤ 0)
     ∧ (future_count (realm s) (env s) id a = 0%nat ->
        ∀ m, oldest_in_window (realm s) (env s) id a = Some m ->
             (Tracker.getTimeUntilAvailable a L s).1
             = Z.max 0 (m + HOUR - now (env s))))
  ∧ (Tracker.getTimeUntilAvailable a L s).1
    = wait_of (realm s) (env s) id a L.
Proof.
  intros id recent.
  rewrite canPerformAction_fst, getTimeUntilAvailable_fst.
  split; [|split; [|done]].
  - intros Hcan. unfold wait_of. unfold recent_count in Hcan. by rewrite Hcan.
  - intros Hcan. split; [by apply wait_of_min|]. split.
    + intros Hnone. apply Z.ltb_ge in Hcan. unfold recent_count in Hcan.
      fold id recent in Hcan. destruct recent; [simpl in Hcan; lia|done].
    + intros Hfut m Hm. by apply wait_of_oldest.
Qed.

(** C3 as worded fails when a record is stamped after the clock value: with
    one like one millisecond ahead and a limit of 1, the action is blocked,
    the window (now - 1h, now] is empty, and the wait is one hour and one
    millisecond, which is the wait for no record of the window.  It also
    fails for a limit of 0 on an empty log: the action is blocked and the
    wait is 0. *)
Lemma getTimeUntilAvailable_window_counterexample :
  (Tracker.canPerformAction Likes 1 (Tracker.new "a1" env_future_like)).1
  = false
  ∧ spec_window realm_clean env_future_like "a1" Likes = []
  ∧ (Tracker.getTimeUntilAvailable Likes 1
       (Tracker.new "a1" env_future_like)).1 = HOUR + 1
  ∧ (Tracker.canPerformAction Likes 0 (Tracker.new "a1" (env_fresh 1000))).1
    = false
  ∧ (Tracker.getTimeUntilAvailable Likes 0
       (Tracker.new "a1" (env_fresh 1000))).1 = 0
  ∧ ¬ (∀ (s : TState) (a : Action) (L : Z),
         (Tracker.canPerformAction a L s).1 = false ->
         ∃ m, oldest_in_window (realm s) (env s) (accountId (this s)) a
              = Some m
              ∧ (Tracker.getTimeUntilAvailable a L s).1
                = Z.max 0 (m + HOUR - now (env s))).
Proof.
  split; [vm_compute; reflexivity|]. split; [vm_compute; reflexivity|].
  split; [vm_compute; reflexivity|]. split; [vm_compute; reflexivity|].
  split; [vm_compute; reflexivity|].
  intros H.
  destruct (H (Tracker.new "a1" env_future_like) Likes 1) as (m & Hm & _).
  - vm_compute. reflexivity.
  - vm_compute in Hm. discriminate Hm.
Qed.

(** The scenario of the specification: a limit of 10 likes per hour and ten
    likes from 55 to 5 minutes ago; the account is blocked and the wait is
    five minutes.  With a limit of 11 the account is available and the wait
    is 0. *)
Lemma getTimeUntilAvailable_spec_witness :
  (Tracker.canPerformAction Likes 10 (Tracker.new "a1" env_ten_likes)).1 = false
  ∧ future_count realm_clean env_ten_likes "a1" Likes = 0%nat
  ∧ oldest_in_window realm_clean env_ten_likes "a1" Likes
    = Some (10000000 - 55 * MINUTE)
  ∧ (Tracker.getTimeUntilAvailable Likes 10 (Tracker.new "a1" env_ten_likes)).1
    = 5 * MINUTE
  ∧ (Tracker.canPerformAction Likes 11 (Tracker.new "a1" env_ten_likes)).1 = true
  ∧ (Tracker.getTimeUntilAvailable Likes 11 (Tracker.new "a1" env_ten_likes)).1 = 0.
Proof.
  assert (H1 : (Tracker.canPerformAction Likes 10
                  (Tracker.new "a1" env_ten_likes)).1 = false)
    by (vm_compute; reflexivity).
  assert (H0 : future_count realm_clean env_ten_likes "a1" Likes = 0%nat)
    by (vm_compute; reflexivity).
  assert (H2 : oldest_in_window realm_clean env_ten_likes "a1" Likes
               = Some (10000000 - 55 * MINUTE))
    by (vm_compute; reflexivity).
  assert (H3 : (Tracker.canPerformAction Likes 11
                  (Tracker.new "a1" env_ten_likes)).1 = true)
    by (vm_compute; reflexivity).
  split; [exact H1|]. split; [exact H0|]. split; [exact H2|]. split.
  - destruct (getTimeUntilAvailable_spec
                (Tracker.new "a1" env_ten_likes) Likes 10)
      as (_ & Hblocked & _).
    destruct (Hblocked H1) as (_ & _ & Hold).
    rewrite (Hold H0 _ H2). vm_compute. reflexivity.
  - split; [exact H3|].
    exact (proj1 (getTimeUntilAvailable_spec
                    (Tracker.new "a1" env_ten_likes) Likes 11) H3).
Defined.

(** *** Recording an action *)

Lemma trackAction_env (s : TState) (a : Action) :
  now (env (Tracker.trackAction a s).2) = now (env s)
  ∧ log_writable (env (Tracker.trackAction a s).2) = log_writable (env s)
  ∧ accountId (this (Tracker.trackAction a s).2) = accountId (this s).
Proof.
  destruct (trackAction_state s a) as (d' & rl' & -> & _). simpl.
  by destruct (log_writable (env s)) eqn:E.
Qed.

Lemma trackAction_now (s : TState) (a : Action) :
  now (env (Tracker.trackAction a s).2) = now (env s).
Proof. apply trackAction_env. Qed.

Lemma trackAction_accountId (s : TState) (a : Action) :
  accountId (this (Tracker.trackAction a s).2) = accountId (this s).
Proof. apply trackAction_env. Qed.

(** [trackAction] leaves the built-in objects as they are when the record
    is kept in the file. *)
Lemma trackAction_realm (s : TState) (a : Action) :
  kept_in_file (realm s) (env s) (accountId (this s)) a = true ->
  realm (Tracker.trackAction a s).2 = realm s.
Proof.
  intros Hk. destruct (trackAction_state s a) as (d' & rl' & -> & H).
  rewrite Hk in H. simpl. by destruct H.
Qed.

(** In the file, [trackAction] appends the clock value to the receiver's
    history of the action, when the record is kept in the file and the write
    succeeds, and changes no other history. *)
Lemma trackAction_history (s : TState) (a a' : Action) (id' : string) :
  durable_history (env (Tracker.trackAction a s).2) id' a'
  = durable_history (env s) id' a'
    ++ (if log_writable (env s)
           && kept_in_file (realm s) (env s) (accountId (this s)) a
           && bool_decide (id' = accountId (this s) ∧ a' = a)
        then [now (env s)] else []).
Proof.
  destruct (trackAction_state s a) as (d' & rl' & -> & H). simpl.
  destruct (log_writable (env s)) eqn:Hw; simpl; [|by rewrite app_nil_r].
  destruct (kept_in_file _ _ _ a) eqn:Hk; simpl.
  - destruct H as [_ ->].
    pose proof (kept_history _ _ _ _ Hk) as Hkh. unfold history_of in Hkh.
    rewrite Hkh. unfold durable_history. simpl.
    destruct (decide (id' = accountId (this s))) as [->|Hid].
    + rewrite lookup_insert_eq, get_set_field.
      destruct (decide (a' = a)) as [->|Ha].
      * rewrite bool_decide_eq_true_2 by done. simpl.
        by destruct (default ∅ (log_file (env s)) !! accountId (this s)).
      * rewrite bool_decide_eq_false_2 by (by intros [_ ?]).
        rewrite app_nil_r.
        destruct (default ∅ (log_file (env s)) !! accountId (this s));
          simpl; [done|by rewrite get_field_empty_entry].
    + rewrite lookup_insert_ne by done.
      rewrite bool_decide_eq_false_2 by (by intros [? _]).
      by rewrite app_nil_r.
  - destruct H as [-> _]. by rewrite app_nil_r.
Qed.

(** For the trackers of the process, the record is there afterwards unless
    it was meant for the file and the write failed. *)
Lemma trackAction_history_of (s : TState) (a a' : Action) :
  history_of (realm (Tracker.trackAction a s).2)
    (env (Tracker.trackAction a s).2) (accountId (this s)) a'
  = history_of (realm s) (env s) (accountId (this s)) a'
    ++ (if decide (a' = a)
        then if lands (realm s) (env s) (accountId (this s)) a
             then [now (env s)] else []
        else []).
Proof.
  destruct (trackAction_state s a) as (d' & rl' & -> & H). simpl.
  unfold lands, history_of.
  destruct (kept_in_file _ _ _ a) eqn:Hk; simpl.
  - destruct H as [-> ->].
    destruct (log_writable (env s)) eqn:Hw; simpl.
    2:{ destruct (decide (a' = a)); by rewrite app_nil_r. }
    unfold read_history at 1. unfold resolve, js_get, own_field.
    rewrite lookup_insert_eq. simpl. rewrite get_set_field.
    destruct (decide (a' = a)) as [->|Ha]; [done|].
    rewrite app_nil_r. unfold read_history, resolve, js_get, own_field.
    unfold kept_in_file in Hk.
    destruct (default ∅ (log_file (env s)) !! accountId (this s)) as [en|];
      simpl; [done|].
    rewrite get_field_empty_entry. simpl.
    apply andb_true_iff in Hk as [Hp Hi].
    apply bool_decide_eq_true in Hp. apply negb_true_iff in Hi.
    by rewrite decide_False, Hi by done.
  - destruct H as [-> H].
    replace (default ∅ (log_file (if log_writable (env s)
               then {| log_file := Some (default ∅ (log_file (env s)));
                       log_writable := true; now := now (env s) |}
               else env s)))
      with (default ∅ (log_file (env s)))
      by (by destruct (log_writable (env s))).
    apply H.
Qed.

(** The count of [canPerformAction] at reference time [r], before and after
    a record stamped [now]. *)
Lemma recent_count_trackAction (s : TState) (a : Action) (r : Z) :
  recent_count (realm (Tracker.trackAction a s).2)
    (at_time r (env (Tracker.trackAction a s).2)) (accountId (this s)) a
  = (recent_count (realm s) (at_time r (env s)) (accountId (this s)) a
     + (if lands (realm s) (env s) (accountId (this s)) a
        then if decide (r - HOUR < now (env s))%Z then 1 else 0
        else 0))%nat.
Proof.
  unfold recent_count. rewrite !history_of_at_time, trackAction_history_of.
  rewrite filter_app, length_app. f_equal. simpl.
  rewrite decide_True by done.
  destruct (lands _ _ _ _); [|done].
  rewrite filter_cons, filter_nil.
  by destruct (decide (r - HOUR < now (env s))).
Qed.

(** C4 as worded fails: on a fresh log, a like recorded at time 100 turns
    the answer for the reference time 50 and the limit 1 from true to
    false. *)
Lemma trackAction_past_counterexample :
  ¬ (∀ (s : TState) (a : Action) (L r : Z),
       r < now (env s) ->
       (Tracker.canPerformAction a L
          (state_at r (Tracker.trackAction a s).2)).1
       = (Tracker.canPerformAction a L (state_at r s)).1).
Proof.
  intros H.
  specialize (H (Tracker.new "a1" (env_fresh 100)) Likes 1 50 ltac:(simpl; lia)).
  vm_compute in H. discriminate H.
Qed.

(** C4, as the code has it.  [trackAction] only appends.  In the file, the
    history of the account and action becomes the old one followed by the
    clock value [ts] when the account's records are kept in the file and the
    write succeeds, and no other history of the file changes.  For the
    trackers of the process the record is there afterwards, unless it was
    meant for the file and the write failed.  For a reference time [r]
    before [ts] the count of the window (r - 1h, r] is unchanged, but
    [canPerformAction] has no upper bound and counts the new record: its
    answer at [r] can change from true to false only.  The answer is
    unchanged at every reference time from [ts + 1h] on. *)
Theorem trackAction_past (s : TState) (a : Action) (L r : Z) :
  let s' := (Tracker.trackAction a s).2 in
  let id := accountId (this s) in
  (∀ id' a',
     durable_history (env s') id' a'
     = durable_history (env s) id' a'
       ++ (if log_writable (env s) && kept_in_file (realm s) (env s) id a
              && bool_decide (id' = id ∧ a' = a)
           then [now (env s)] else []))
  ∧ history_of (realm s') (env s') id a
    = history_of (realm s) (env s) id a
      ++ (if lands (realm s) (env s) id a then [now (env s)] else [])
  ∧ (r < now (env s) ->
     spec_window_count (realm s') (at_time r (env s')) id a
     = spec_window_count (realm s) (at_time r (env s)) id a)
  ∧ ((Tracker.canPerformAction a L (state_at r s')).1 = true ->
     (Tracker.canPerformAction a L (state_at r s)).1 = true)
  ∧ (now (env s) + HOUR ≤ r ->
     (Tracker.canPerformAction a L (state_at r s')).1
     = (Tracker.canPerformAction a L (state_at r s)).1).
Proof.
  intros s' id. subst s' id.
  split; [|split; [|split; [|split]]].
  - intros id' a'. apply trackAction_history.
  - rewrite trackAction_history_of. by rewrite decide_True.
  - intros Hr. unfold spec_window_count, spec_window.
    rewrite !history_of_at_time, trackAction_history_of.
    rewrite filter_app, length_app. simpl. rewrite decide_True by done.
    destruct (lands _ _ _ _); [|simpl; lia].
    rewrite filter_cons, filter_nil.
    rewrite decide_False by lia. simpl. lia.
  - rewrite !canPerformAction_fst. simpl. rewrite trackAction_accountId.
    rewrite recent_count_trackAction. rewrite !Z.ltb_lt. lia.
  - intros Hr. rewrite !canPerformAction_fst. simpl.
    rewrite trackAction_accountId, recent_count_trackAction.
    destruct (lands _ _ _ _); [|by rewrite Nat.add_0_r].
    rewrite decide_False by lia. by rewrite Nat.add_0_r.
Qed.

(** A like recorded at time 100 on a fresh log: it is in the file, and it
    is read at the reference times 50 and 100 + 1h. *)
Lemma trackAction_past_witness :
  let s := Tracker.new "a1" (env_fresh 100) in
  let s' := (Tracker.trackAction Likes s).2 in
  50 < now (env s)
  ∧ durable_history (env s') "a1" Likes = [100]
  ∧ spec_window_count (realm s') (at_time 50 (env s')) "a1" Likes = 0%nat
  ∧ (Tracker.canPerformAction Likes 1 (state_at (100 + HOUR) s')).1 = true.
Proof.
  intros s s'.
  pose proof (trackAction_past s Likes 1 50) as (Hd & _ & H50 & _ & _).
  pose proof (trackAction_past s Likes 1 (100 + HOUR)) as (_ & _ & _ & _ & Hlate).
  assert (Hlt : 50 < now (env s)) by (simpl; lia).
  split; [exact Hlt|]. split; [|split].
  - refine (eq_trans (Hd "a1"%string Likes) _). vm_compute. reflexivity.
  - refine (eq_trans (H50 Hlt) _). vm_compute. reflexivity.
  - refine (eq_trans (Hlate _) _); [simpl; lia|]. vm_compute. reflexivity.
Defined.

(** *** The query methods do not write *)

Lemma run_query_env (q : Query) (s : TState) : env (run_query q s) = env s.
Proof.
  destruct q; simpl.
  - apply canPerformAction_env.
  - apply getRecentCount_env.
  - apply getTimeUntilAvailable_env.
Qed.

Lemma run_query_accountId (q : Query) (s : TState) :
  accountId (this (run_query q s)) = accountId (this s).
Proof.
  destruct q as [a L|a|a L]; simpl.
  - apply canPerformAction_frame.
  - apply getRecentCount_frame.
  - apply getTimeUntilAvailable_frame.
Qed.

(** Whether the records of the receiver's account are kept in the file is
    not changed by [canPerformAction], which writes to the built-in objects
    only when they are not. *)
Lemma canPerformAction_kept (s : TState) (a a' : Action) (L : Z) :
  kept_in_file (realm (Tracker.canPerformAction a L s).2) (env s)
    (accountId (this s)) a'
  = kept_in_file (realm s) (env s) (accountId (this s)) a'.
Proof.
  unfold Tracker.canPerformAction, Tracker.loadData, Tracker.set_data,
    Tracker.Date_now, tbind, tret. simpl.
  set (s0 := {| this := {| accountId := accountId (this s);
                           data := default ∅ (log_file (env s)) |};
                env := env s; realm := realm s |}).
  pose proof (cleanOldEntries_spec s0) as (_ & _ & Hsome & Hnone & _).
  destruct (Tracker.cleanOldEntries s0) as [[] s1]. simpl in *.
  pose proof (getHistory_spec s1 a) as (_ & _ & Hr & _).
  destruct (Tracker.getHistory a s1) as [h s2]. simpl in *. rewrite Hr.
  destruct (entry_of s0) as [o|] eqn:Ho.
  - destruct (Hsome o eq_refl) as (Ho1 & Hrl & _).
    pose proof (entry_of_inv s0 o Ho) as Hinv.
    pose proof (entry_of_inv s1 o Ho1) as Hinv1.
    destruct Hinv as [(-> & _)|[(-> & Hd & Hid)|(-> & Hd & Hid & Hi)]].
    + by rewrite Hrl.
    + simpl in Hd, Hid. unfold kept_in_file. rewrite Hd.
      by rewrite !bool_decide_eq_false_2 by (by intros ?).
    + destruct Hinv1 as [(? & _)|[(? & _)|(Heq & _ & _ & Hi1)]]; try done.
      simpl in *. injection Heq as Heq.
      unfold kept_in_file. rewrite Hd. rewrite Hi.
      rewrite <- Heq in Hi1. by rewrite Hi1.
  - by rewrite (Hnone eq_refl).
Qed.

(** [canPerformAction] may prune the arrays of a built-in object; the
    records it counts for the receiver's account stay the same. *)
Lemma canPerformAction_recent (s : TState) (a a' : Action) (L : Z) :
  recent_count (realm (Tracker.canPerformAction a L s).2) (env s)
    (accountId (this s)) a'
  = recent_count (realm s) (env s) (accountId (this s)) a'.
Proof.
  unfold Tracker.canPerformAction, Tracker.loadData, Tracker.set_data,
    Tracker.Date_now, tbind, tret. simpl.
  set (s0 := {| this := {| accountId := accountId (this s);
                           data := default ∅ (log_file (env s)) |};
                env := env s; realm := realm s |}).
  pose proof (cleanOldEntries_spec s0) as (_ & _ & Hsome & Hnone & Hh).
  destruct (Tracker.cleanOldEntries s0) as [[] s1]. simpl in *.
  pose proof (getHistory_spec s1 a) as (_ & _ & Hr & _).
  destruct (Tracker.getHistory a s1) as [h s2]. simpl in *. rewrite Hr.
  destruct (entry_of s0) as [o|] eqn:Ho.
  - destruct (Hsome o eq_refl) as (_ & Hrl & Hdt).
    assert (o = OEntry ∨ o ≠ OEntry) as [->|Hne]
      by (destruct o; [by left|by right|by right]);
      [by rewrite Hrl|].
    unfold recent_count, history_of.
    specialize (Hh a'). rewrite (Hdt Hne) in Hh. rewrite Hh.
    by rewrite filter_hour_day.
  - by rewrite (Hnone eq_refl).
Qed.

Lemma run_query_kept (q : Query) (s : TState) (a : Action) :
  kept_in_file (realm (run_query q s)) (env s) (accountId (this s)) a
  = kept_in_file (realm s) (env s) (accountId (this s)) a.
Proof.
  destruct q as [a0 L|a0|a0 L]; simpl.
  - apply canPerformAction_kept.
  - by rewrite (proj1 (proj2 (getRecentCount_frame s a0))).
  - by rewrite (proj1 (proj2 (getTimeUntilAvailable_frame s a0 L))).
Qed.

Lemma run_queries_env (qs : list Query) (s : TState) :
  env (run_queries qs s) = env s
  ∧ accountId (this (run_queries qs s)) = accountId (this s)
  ∧ ∀ a, kept_in_file (realm (run_queries qs s)) (env s) (accountId (this s)) a
         = kept_in_file (realm s) (env s) (accountId (this s)) a.
Proof.
  unfold run_queries. induction qs as [|q qs IH] in s |- *; [done|].
  simpl. destruct (IH (run_query q s)) as (-> & -> & Hk).
  rewrite run_query_env, run_query_accountId. split; [done|]. split; [done|].
  intros a. rewrite <- (run_query_kept q s a).
  specialize (Hk a). by rewrite run_query_env, run_query_accountId in Hk.
Qed.

(** What [trackAction] leaves on disk depends on the receiver's account, on
    the environment and on whether the account's records are kept in the
    file, not on the receiver's copy of the log. *)
Lemma trackAction_env_indep (s1 s2 : TState) (a : Action) :
  env s1 = env s2 -> accountId (this s1) = accountId (this s2) ->
  kept_in_file (realm s1) (env s1) (accountId (this s1)) a
  = kept_in_file (realm s2) (env s2) (accountId (this s2)) a ->
  env (Tracker.trackAction a s1).2 = env (Tracker.trackAction a s2).2.
Proof.
  intros He Hid Hk.
  destruct (trackAction_state s1 a) as (d1 & rl1 & -> & H1).
  destruct (trackAction_state s2 a) as (d2 & rl2 & -> & H2). simpl.
  destruct (kept_in_file (realm s1) _ _ _) eqn:Hk1.
  - symmetry in Hk. rewrite Hk in H2.
    destruct H1 as [_ ->]. destruct H2 as [_ ->].
    pose proof (kept_history _ _ _ _ Hk1) as Hh1.
    pose proof (kept_history _ _ _ _ Hk) as Hh2.
    unfold history_of in Hh1, Hh2. rewrite Hh1, Hh2. by rewrite He, Hid.
  - symmetry in Hk. rewrite Hk in H2.
    destruct H1 as [-> _]. destruct H2 as [-> _]. by rewrite He.
Qed.

(** C10.  A run of [canPerformAction], [getRecentCount] and
    [getTimeUntilAvailable] calls, in any order and number, leaves the log
    file (and the rest of the environment) as it was; and a [trackAction]
    after such a run writes the same file as a [trackAction] without it, so
    nothing the queries did to the receiver's copy of the log reaches the
    disk. *)
Theorem queries_write_free (qs : list Query) (s : TState) (a : Action) :
  log_file (env (run_queries qs s)) = log_file (env s)
  ∧ env (run_queries qs s) = env s
  ∧ env (Tracker.trackAction a (run_queries qs s)).2
    = env (Tracker.trackAction a s).2.
Proof.
  destruct (run_queries_env qs s) as (He & Hid & Hk).
  split; [by rewrite He|]. split; [done|].
  apply trackAction_env_indep; [done|done|].
  by rewrite He, Hid, Hk.
Qed.

(** The pruning of [canPerformAction] is seen in memory and not on disk: the
    like stamped 5 is dropped from the receiver's copy, stays in the file, and
    is still in the file after the next [trackAction]. *)
Example pruning_not_persisted :
  let s1 := (Tracker.canPerformAction Likes 10 (Tracker.new "a1" env_old_like)).2 in
  let s2 := (Tracker.trackAction Likes s1).2 in
  data (this s1) !! "a1"%string = Some (entry_of_likes [100000000 - 7])
  ∧ durable_history (env s1) "a1" Likes = [5; 100000000 - 7]
  ∧ durable_history (env s2) "a1" Likes = [5; 100000000 - 7; 100000000].
Proof. vm_compute. done. Qed.
(** *** The concurrency gate *)

Lemma filter_ne_notin (id : TaskId) (l : list TaskId) :
  id ∉ l -> filter (λ x, x ≠ id) l = l.
Proof.
  induction l as [|x l IH]; [done|].
  rewrite not_elem_of_cons. intros [Hx Hl].
  rewrite filter_cons_True by done. by rewrite IH.
Qed.

Lemma filter_ne_perm (id : TaskId) (l : list TaskId) :
  NoDup l -> id ∈ l -> l ≡ₚ id :: filter (λ x, x ≠ id) l.
Proof.
  induction l as [|x l IH]; intros Hnd Hin.
  - by apply elem_of_nil in Hin.
  - apply NoDup_cons in Hnd as [Hx Hnd].
    destruct (decide (x = id)) as [->|Hne].
    + rewrite filter_cons_False by (intros H; by apply H).
      by rewrite filter_ne_notin.
    + rewrite filter_cons_True by done.
      apply elem_of_cons in Hin as [->|Hin]; [done|].
      rewrite (IH Hnd Hin) at 1. apply Permutation_swap.
Qed.

Lemma perm_settle (F S : list TaskId) (id : TaskId) :
  (id :: F) ++ S ≡ₚ F ++ S ++ [id].
Proof.
  rewrite app_assoc. rewrite (Permutation_app_comm (F ++ S) [id]). done.
Qed.

Lemma perm_settle_next (F S : list TaskId) (id n : TaskId) :
  ((id :: F) ++ S) ++ [n] ≡ₚ (F ++ [n]) ++ S ++ [id].
Proof.
  rewrite perm_settle. rewrite <- !app_assoc. apply Permutation_app_head.
  rewrite (Permutation_app_comm [n] (S ++ [id])). by rewrite <- app_assoc.
Qed.

Lemma gate_inv_running_NoDup (g : Gate) : gate_inv g -> NoDup (running g).
Proof.
  intros (_ & Hsub & Hst & Hnd & _).
  rewrite Hsub in Hnd. apply NoDup_app in Hnd as [Hnd _].
  rewrite Hst in Hnd. by apply NoDup_app in Hnd as [Hnd _].
Qed.

Lemma gate_inv_pLimit (N : Z) : gate_inv (PLimit.pLimit N).
Proof.
  unfold gate_inv, PLimit.pLimit. simpl. repeat split; try done.
  - apply NoDup_nil_2.
  - lia.
Qed.

Lemma gate_inv_enqueue (id : TaskId) (g : Gate) :
  gate_inv g -> id ∉ submitted g -> gate_inv (PLimit.enqueue id g).
Proof.
  intros (Hac & Hsub & Hst & Hnd & Hq & Hmax) Hfresh.
  unfold PLimit.enqueue. simpl.
  destruct (activeCount g <? concurrency g) eqn:Hlt.
  - apply Z.ltb_lt in Hlt.
    assert (queue g = []) as Hq0.
    { destruct (queue g) eqn:E; [done|]. assert (concurrency g ≤ activeCount g)
        by (apply Hq; done). lia. }
    unfold gate_inv, PLimit.run. simpl. rewrite Hq0 in *.
    rewrite app_nil_r in *. repeat split.
    + rewrite length_app. simpl. lia.
    + by rewrite Hsub.
    + rewrite Hst. rewrite <- !app_assoc. apply Permutation_app_head.
      apply Permutation_app_comm.
    + apply NoDup_app. repeat split; [done| |apply NoDup_singleton].
      intros x Hx ->%list_elem_of_singleton. by apply Hfresh.
    + done.
    + lia.
  - apply Z.ltb_ge in Hlt. unfold gate_inv. simpl. repeat split.
    + done.
    + by rewrite Hsub, app_assoc.
    + done.
    + apply NoDup_app. repeat split; [done| |apply NoDup_singleton].
      intros x Hx ->%list_elem_of_singleton. by apply Hfresh.
    + done.
    + done.
Qed.

Lemma gate_inv_run_settled (id : TaskId) (o : Outcome) (g : Gate) :
  gate_inv g -> id ∈ running g -> gate_inv (PLimit.run_settled id o g).
Proof.
  intros Hinv Hin. pose proof (gate_inv_running_NoDup g Hinv) as Hndr.
  destruct Hinv as (Hac & Hsub & Hst & Hnd & Hq & Hmax).
  pose proof (filter_ne_perm id (running g) Hndr Hin) as Hperm.
  assert (Hlen : length (running g)
                 = S (length (filter (λ x, x ≠ id) (running g)))).
  { by rewrite Hperm at 1. }
  unfold PLimit.run_settled, PLimit.next. simpl.
  destruct (queue g) as [|nextTask rest] eqn:Eq; unfold gate_inv; simpl.
  - repeat split.
    + lia.
    + done.
    + rewrite Hst, Hperm at 1. rewrite fmap_app. simpl.
      apply (perm_settle _ _ id).
    + done.
    + done.
    + lia.
  - assert (concurrency g ≤ activeCount g) as Hfull by (apply Hq; done).
    repeat split.
    + rewrite length_app. simpl. lia.
    + rewrite Hsub. by rewrite <- app_assoc.
    + rewrite Hst, Hperm at 1. rewrite fmap_app. simpl.
      apply (perm_settle_next _ _ id nextTask).
    + done.
    + intros _. lia.
    + lia.
Qed.

Lemma gate_inv_step (g g' : Gate) (ev : PLimit.Event) :
  gate_inv g -> PLimit.step g ev = Some g' -> gate_inv g'.
Proof.
  intros Hinv. destruct ev as [id|id o]; simpl; case_decide; intros [= <-].
  - by apply gate_inv_enqueue.
  - by apply gate_inv_run_settled.
Qed.

Lemma gate_inv_exec (evs : list PLimit.Event) (g g' : Gate) :
  gate_inv g -> PLimit.exec evs g = Some g' -> gate_inv g'.
Proof.
  induction evs as [|ev evs IH] in g |- *; simpl.
  - by intros ? [= <-].
  - intros Hinv. destruct (PLimit.step g ev) as [g1|] eqn:Hs; [|done].
    apply IH. by eapply gate_inv_step.
Qed.

Lemma run_settled_pending (id : TaskId) (o : Outcome) (g : Gate) :
  gate_inv g -> id ∈ running g ->
  S (PLimit.pending (PLimit.run_settled id o g)) = PLimit.pending g.
Proof.
  intros Hinv Hin. pose proof (gate_inv_running_NoDup g Hinv) as Hndr.
  pose proof (filter_ne_perm id (running g) Hndr Hin) as Hperm.
  assert (Hlen : length (running g)
                 = S (length (filter (λ x, x ≠ id) (running g)))).
  { by rewrite Hperm at 1. }
  unfold PLimit.pending, PLimit.run_settled, PLimit.next. simpl.
  destruct (queue g) as [|n rest]; simpl; [lia|].
  rewrite length_app. simpl. lia.
Qed.

Lemma run_settled_frame (id : TaskId) (o : Outcome) (g : Gate) :
  concurrency (PLimit.run_settled id o g) = concurrency g
  ∧ submitted (PLimit.run_settled id o g) = submitted g
  ∧ settled (PLimit.run_settled id o g) = settled g ++ [(id, o)].
Proof.
  unfold PLimit.run_settled, PLimit.next. simpl. by destruct (queue g).
Qed.

Lemma step_concurrency (g g' : Gate) (ev : PLimit.Event) :
  PLimit.step g ev = Some g' -> concurrency g' = concurrency g.
Proof.
  destruct ev as [id|id o]; simpl; case_decide; intros [= <-].
  - unfold PLimit.enqueue. simpl. by destruct (_ <? _).
  - apply run_settled_frame.
Qed.

Lemma exec_concurrency (evs : list PLimit.Event) (g g' : Gate) :
  PLimit.exec evs g = Some g' -> concurrency g' = concurrency g.
Proof.
  induction evs as [|ev evs IH] in g |- *; simpl.
  - by intros [= <-].
  - destruct (PLimit.step g ev) as [g1|] eqn:Hs; [|done].
    intros H. rewrite (IH _ H). by eapply step_concurrency.
Qed.

(** With a limit of at least 1, a gate with nothing running has nothing
    queued, and all that was submitted is settled. *)
Lemma gate_quiescent (g : Gate) :
  gate_inv g -> 1 ≤ concurrency g -> running g = [] ->
  queue g = [] ∧ ∀ id, id ∈ submitted g -> id ∈ (settled g).*1.
Proof.
  intros (Hac & Hsub & Hst & Hnd & Hq & Hmax) HN Hrun.
  assert (queue g = []) as Hq0.
  { destruct (queue g) eqn:E; [done|].
    assert (concurrency g ≤ activeCount g) by (apply Hq; done).
    rewrite Hrun in Hac. simpl in Hac. lia. }
  split; [done|]. intros id Hid.
  rewrite Hsub, Hq0, app_nil_r, Hst, Hrun in Hid. done.
Qed.

Section Drain.
Variable pick : list TaskId -> TaskId.
Variable out : TaskId -> Outcome.
Hypothesis pick_valid : ∀ l, l ≠ [] -> pick l ∈ l.

Lemma drain_complete (fuel : nat) (g : Gate) :
  gate_inv g -> 1 ≤ concurrency g -> (PLimit.pending g ≤ fuel)%nat ->
  let g' := PLimit.drain pick out fuel g in
  gate_inv g' ∧ running g' = [] ∧ concurrency g' = concurrency g
  ∧ submitted g' = submitted g.
Proof.
  induction fuel as [|fuel IH] in g |- *; intros Hinv HN Hfuel; simpl.
  - unfold PLimit.pending in Hfuel.
    destruct (running g); [done|simpl in Hfuel; lia].
  - destruct (running g) as [|x l] eqn:Hr; [done|].
    assert (pick (x :: l) ∈ running g) as Hin.
    { rewrite Hr. by apply pick_valid. }
    pose proof (run_settled_pending _ (out (pick (x :: l))) g Hinv Hin) as Hp.
    pose proof (run_settled_frame (pick (x :: l)) (out (pick (x :: l))) g)
      as (Hc & Hs & _).
    destruct (IH (PLimit.run_settled (pick (x :: l)) (out (pick (x :: l))) g))
      as (Hinv' & Hrun' & Hc' & Hs').
    + by apply gate_inv_run_settled.
    + by rewrite Hc.
    + lia.
    + rewrite Hc', Hs', Hc, Hs. done.
Qed.
End Drain.

Lemma pick_first_valid (l : list TaskId) : l ≠ [] -> PLimit.pick_first l ∈ l.
Proof. destruct l; [done|]. intros _. apply list_elem_of_here. Qed.

Lemma pick_last_valid (l : list TaskId) : l ≠ [] -> PLimit.pick_last l ∈ l.
Proof.
  unfold PLimit.pick_last. induction l as [|x l IH]; [done|]. intros _.
  destruct l as [|y l]; [apply list_elem_of_here|].
  apply list_elem_of_further. by apply IH.
Qed.

(** C5, for a limit of at least 1.  In every state the gate can reach, at
    most [N] tasks are running; the tasks were started in the order of their
    submission and the queue holds the rest in that order; the queue is
    non-empty only when [N] tasks are running, and when a running task
    settles the head of the queue starts at once; and when the running tasks
    settle one after the other, in any order, all submitted tasks are
    settled after at most as many steps as there were submissions. *)
Theorem pLimit_bound_fifo_complete (N : Z) (evs : list PLimit.Event) (g : Gate)
    (pick : list TaskId -> TaskId) (out : TaskId -> Outcome) :
  1 ≤ N ->
  (∀ l, l ≠ [] -> pick l ∈ l) ->
  PLimit.exec evs (PLimit.pLimit N) = Some g ->
  (activeCount g ≤ N ∧ Z.of_nat (length (running g)) ≤ N)
  ∧ submitted g = started g ++ queue g
  ∧ (queue g ≠ [] -> activeCount g = N)
  ∧ (∀ id o n rest, id ∈ running g -> queue g = n :: rest ->
       started (PLimit.run_settled id o g) = started g ++ [n]
       ∧ queue (PLimit.run_settled id o g) = rest)
  ∧ (let g' := PLimit.drain pick out (length (submitted g)) g in
     running g' = [] ∧ queue g' = [] ∧ submitted g' = submitted g
     ∧ ∀ id, id ∈ submitted g -> id ∈ (settled g').*1).
Proof.
  intros HN Hpick Hexec.
  pose proof (gate_inv_exec _ _ _ (gate_inv_pLimit N) Hexec) as Hinv.
  pose proof (exec_concurrency _ _ _ Hexec) as Hc. simpl in Hc.
  pose proof Hinv as (Hac & Hsub & Hst & Hnd & Hq & Hmax).
  rewrite Hc in Hmax, Hq.
  split; [lia|]. split; [done|]. split; [intros Hne; specialize (Hq Hne); lia|].
  split.
  - intros id o n rest Hin Hqueue.
    unfold PLimit.run_settled, PLimit.next. simpl. by rewrite Hqueue.
  - assert (PLimit.pending g ≤ length (submitted g))%nat as Hfuel.
    { unfold PLimit.pending. rewrite Hsub, Hst, !length_app. lia. }
    destruct (drain_complete pick out Hpick (length (submitted g)) g)
      as (Hinv' & Hrun' & Hc' & Hs'); [done|by rewrite Hc|done|].
    destruct (gate_quiescent _ Hinv') as [Hq' Hall];
      [by rewrite Hc', Hc|done|].
    simpl. repeat split; try done.
    intros id Hid. apply Hall. by rewrite Hs'.
Qed.

(** The scenario of the specification: a limit of 2 and three tasks
    submitted together.  Two start at once and the third is queued; when
    task 1 settles (here with an error) task 2 starts; in the end all three
    are settled. *)
Lemma pLimit_bound_fifo_complete_witness :
  let evs := [PLimit.Enqueue 0%nat; PLimit.Enqueue 1%nat; PLimit.Enqueue 2%nat] in
  ∃ g, PLimit.exec evs (PLimit.pLimit 2) = Some g
       ∧ running g = [0%nat; 1%nat] ∧ queue g = [2%nat]
       ∧ activeCount g ≤ 2
       ∧ started (PLimit.run_settled 1%nat (Rejected "boom") g)
         = [0%nat; 1%nat; 2%nat]
       ∧ ∀ id, id ∈ [0%nat; 1%nat; 2%nat] ->
           id ∈ (settled (PLimit.drain PLimit.pick_last
                            (fun _ => Fulfilled 0) 3 g)).*1.
Proof.
  simpl. eexists. split; [vm_compute; reflexivity|].
  split; [reflexivity|]. split; [reflexivity|].
  pose proof (pLimit_bound_fifo_complete 2
    [PLimit.Enqueue 0%nat; PLimit.Enqueue 1%nat; PLimit.Enqueue 2%nat]
    _ PLimit.pick_last (fun _ => Fulfilled 0)
    ltac:(lia) pick_last_valid ltac:(vm_compute; reflexivity))
    as ((Hb & _) & _ & _ & Hnext & Hdone).
  split; [exact Hb|]. split.
  - refine (eq_trans (proj1 (Hnext 1%nat (Rejected "boom") 2%nat []
                               _ eq_refl)) eq_refl).
    apply list_elem_of_further, list_elem_of_here.
  - exact (proj2 (proj2 (proj2 Hdone))).
Defined.

(** A gate whose limit is not positive starts nothing, whatever happens. *)
Lemma pLimit_nonpositive_stuck (evs : list PLimit.Event) (g g' : Gate) :
  concurrency g ≤ 0 -> activeCount g = 0 -> running g = [] ->
  started g = [] -> settled g = [] ->
  PLimit.exec evs g = Some g' ->
  started g' = [] ∧ settled g' = [] ∧ running g' = [].
Proof.
  induction evs as [|ev evs IH] in g |- *; simpl; intros HN Hac Hr Hst Hse.
  - by intros [= <-].
  - destruct ev as [id|id o]; simpl.
    + case_decide; [done|].
      assert ((activeCount g <? concurrency g) = false) as Hf
        by (apply Z.ltb_ge; lia).
      apply IH; unfold PLimit.enqueue; simpl; rewrite Hf; simpl; done.
    + rewrite Hr. rewrite decide_False by apply not_elem_of_nil. done.
Qed.

(** C5 as worded fails for the limit 0: the single task submitted is queued
    and, whatever happens afterwards, is never started and never settled. *)
Lemma pLimit_zero_counterexample :
  ∃ g, PLimit.exec [PLimit.Enqueue 0%nat] (PLimit.pLimit 0) = Some g
       ∧ submitted g = [0%nat] ∧ queue g = [0%nat] ∧ running g = []
       ∧ ∀ evs g', PLimit.exec (PLimit.Enqueue 0%nat :: evs) (PLimit.pLimit 0)
                   = Some g' ->
                   (0%nat ∉ started g') ∧ (0%nat ∉ (settled g').*1).
Proof.
  eexists. split; [reflexivity|]. repeat split; try reflexivity.
  - destruct (pLimit_nonpositive_stuck (PLimit.Enqueue 0%nat :: evs)
                (PLimit.pLimit 0) g') as (-> & _ & _); try done.
    apply not_elem_of_nil.
  - destruct (pLimit_nonpositive_stuck (PLimit.Enqueue 0%nat :: evs)
                (PLimit.pLimit 0) g') as (_ & -> & _); try done.
    apply not_elem_of_nil.
Qed.

(** *** Errors at the gate *)

Lemma exec_settled (evs : list PLimit.Event) (g g' : Gate) :
  PLimit.exec evs g = Some g' ->
  settled g' = settled g ++ PLimit.settle_events evs.
Proof.
  induction evs as [|ev evs IH] in g |- *; simpl.
  - intros [= <-]. by rewrite app_nil_r.
  - destruct (PLimit.step g ev) as [g1|] eqn:Hs; [|done].
    intros H. rewrite (IH _ H). destruct ev as [id|id o]; simpl in Hs;
      case_decide; try done; injection Hs as <-.
    + unfold PLimit.settle_events. simpl.
      unfold PLimit.enqueue. simpl. by destruct (_ <? _).
    + destruct (run_settled_frame id o g) as (_ & _ & ->).
      unfold PLimit.settle_events. simpl. by rewrite <- app_assoc.
Qed.

(** The state of the gate after a task settles does not depend on how it
    settled, except for the value handed to that task's promise. *)
Lemma run_settled_outcome_indep (id : TaskId) (o1 o2 : Outcome) (g : Gate) :
  queue (PLimit.run_settled id o1 g) = queue (PLimit.run_settled id o2 g)
  ∧ activeCount (PLimit.run_settled id o1 g)
    = activeCount (PLimit.run_settled id o2 g)
  ∧ running (PLimit.run_settled id o1 g) = running (PLimit.run_settled id o2 g)
  ∧ started (PLimit.run_settled id o1 g) = started (PLimit.run_settled id o2 g).
Proof.
  unfold PLimit.run_settled, PLimit.next. simpl. by destruct (queue g).
Qed.

(** *** Session reuse *)

Lemma reuse_connected (account : Account) (w : World) (h : nat) :
  activeSessions w !! id account = Some h ->
  Client.isConnected (App.client_at w h) = true ->
  Scheduler.reuseOrCreateClient account w = (Ok h, w).
Proof.
  intros Hs Hc. app_unfold. simpl. rewrite Hs. simpl. by rewrite Hc.
Qed.

Lemma reuse_registers (account : Account) (w w1 : World) (h : nat) :
  Scheduler.reuseOrCreateClient account w = (Ok h, w1) ->
  activeSessions w1 !! id account = Some h.
Proof.
  app_unfold. simpl.
  destruct (activeSessions w !! id account) as [a|] eqn:Hs; simpl.
  - destruct (Client.isConnected (App.client_at w a)) eqn:Hc; simpl.
    + by intros [= <- <-].
    + intros [= <- <-]. simpl. apply lookup_insert_eq.
  - intros [= <- <-]. simpl. apply lookup_insert_eq.
Qed.

Lemma create_when_lost (account : Account) (w : World) (h : nat) :
  activeSessions w !! id account = Some h ->
  Client.isConnected (App.client_at w h) = false ->
  Scheduler.reuseOrCreateClient account w
  = (Ok (next_addr w),
     {| w_env := w_env w; w_realm := w_realm w;
        heap := <[next_addr w := Client.new (a_userDataDir account)]> (heap w);
        next_addr := S (next_addr w);
        activeSessions := <[id account := next_addr w]> (activeSessions w);
        effects := effects w |}).
Proof.
  intros Hs Hc. app_unfold. simpl. rewrite Hs. simpl. rewrite Hc. simpl.
  by rewrite insert_delete_eq.
Qed.

Lemma create_when_absent (account : Account) (w : World) :
  activeSessions w !! id account = None ->
  Scheduler.reuseOrCreateClient account w
  = (Ok (next_addr w),
     {| w_env := w_env w; w_realm := w_realm w;
        heap := <[next_addr w := Client.new (a_userDataDir account)]> (heap w);
        next_addr := S (next_addr w);
        activeSessions := <[id account := next_addr w]> (activeSessions w);
        effects := effects w |}).
Proof. intros Hs. app_unfold. simpl. rewrite Hs. done. Qed.

(** C7.  A session acquisition that finds the account's registered client
    connected returns that very object and leaves the world as it is, so no
    client is constructed.  Whatever an acquisition returns is the handle
    registered for the account; hence a second acquisition, made while the
    handle is still registered and connected, returns the same handle.  When
    the registered client reports disconnected, a new client is constructed
    at a fresh address, distinct from the old one, and registered in its
    place: the registry has the same size and the entries of the other
    accounts are as before. *)
Theorem session_reuse (account : Account) (w : World) :
  (∀ h, activeSessions w !! id account = Some h ->
        Client.isConnected (App.client_at w h) = true ->
        Scheduler.reuseOrCreateClient account w = (Ok h, w))
  ∧ (∀ h1 w1 w2,
       Scheduler.reuseOrCreateClient account w = (Ok h1, w1) ->
       activeSessions w1 !! id account = Some h1
       ∧ (activeSessions w2 !! id account = Some h1 ->
          Client.isConnected (App.client_at w2 h1) = true ->
          Scheduler.reuseOrCreateClient account w2 = (Ok h1, w2)))
  ∧ (∀ h, activeSessions w !! id account = Some h ->
          world_wf w ->
          Client.isConnected (App.client_at w h) = false ->
          ∃ w', Scheduler.reuseOrCreateClient account w = (Ok (next_addr w), w')
                ∧ next_addr w ≠ h
                ∧ heap w !! next_addr w = None
                ∧ App.client_at w' (next_addr w)
                  = Client.new (a_userDataDir account)
                ∧ activeSessions w'
                  = <[id account := next_addr w]> (activeSessions w)
                ∧ size (activeSessions w') = size (activeSessions w)
                ∧ ∀ k, k ≠ id account ->
                       activeSessions w' !! k = activeSessions w !! k).
Proof.
  split; [|split].
  - intros h. apply reuse_connected.
  - intros h1 w1 w2 Hacq. split; [by eapply reuse_registers|].
    apply reuse_connected.
  - intros h Hs [Hheap Hreg] Hc. eexists.
    split; [by apply (create_when_lost account w h)|]. simpl.
    repeat split.
    + specialize (Hreg _ _ Hs). lia.
    + destruct (heap w !! next_addr w) as [c|] eqn:E; [|done].
      specialize (Hheap _ _ E). lia.
    + unfold App.client_at. simpl. by rewrite lookup_insert_eq.
    + apply map_size_insert_Some. by exists h.
    + intros k Hk. by rewrite lookup_insert_ne.
Qed.

(** Account a1 has no session: the acquisition creates the client at
    address 0; once [init] has connected it, the next acquisition returns
    address 0 again and changes nothing.  With the registered session lost,
    the acquisition returns the new address 1. *)
Lemma session_reuse_witness :
  let acct := account_a1 no_overrides default_limits in
  let w1 := (Scheduler.reuseOrCreateClient acct (world_empty (env_fresh 0))).2 in
  let w2 := (App.client_init (sys_linux None) init_ok 0%nat w1).2 in
  let w_lost := world_with_session (env_fresh 0) lost_client in
  Scheduler.reuseOrCreateClient acct (world_empty (env_fresh 0)) = (Ok 0%nat, w1)
  ∧ Client.isConnected (App.client_at w2 0%nat) = true
  ∧ Scheduler.reuseOrCreateClient acct w2 = (Ok 0%nat, w2)
  ∧ (Scheduler.reuseOrCreateClient acct w_lost).1 = Ok 1%nat.
Proof.
  intros acct w1 w2 w_lost.
  assert (Hfirst : Scheduler.reuseOrCreateClient acct (world_empty (env_fresh 0))
                   = (Ok 0%nat, w1)) by reflexivity.
  assert (Hconn : Client.isConnected (App.client_at w2 0%nat) = true)
    by (vm_compute; reflexivity).
  assert (Hwf : world_wf w_lost).
  { split.
    - intros a c. subst w_lost. simpl. intros [-> _]%lookup_singleton_Some. lia.
    - intros k a. subst w_lost. simpl. intros [_ <-]%lookup_singleton_Some. lia. }
  destruct (session_reuse acct (world_empty (env_fresh 0))) as (_ & H2 & _).
  destruct (session_reuse acct w_lost) as (_ & _ & H3).
  destruct (H2 0%nat w1 w2 Hfirst) as [_ Hagain].
  destruct (H3 0%nat eq_refl Hwf eq_refl) as (w' & Hnew & _).
  split; [exact Hfirst|]. split; [exact Hconn|]. split.
  - apply Hagain; [vm_compute; reflexivity|exact Hconn].
  - rewrite Hnew. reflexivity.
Defined.

(** *** The availability check *)

Lemma wait_of_nonneg (rl : Realm) (e : Env) (k : string) (a : Action)
    (L : Z) :
  0 ≤ wait_of rl e k a L.
Proof.
  unfold wait_of. destruct (_ <? L); [done|].
  destruct (merge_sort _ _) as [|x l]; [done|].
  destruct (0 <? x + HOUR - now e) eqn:E; [|done].
  apply Z.ltb_lt in E. lia.
Qed.

Lemma world_eta (w : World) (e : Env) (rl : Realm) :
  e = w_env w -> rl = w_realm w ->
  {| w_env := e; w_realm := rl; heap := heap w; next_addr := next_addr w;
     activeSessions := activeSessions w; effects := effects w |} = w.
Proof. intros -> ->. by destruct w. Qed.

Lemma time_until_spec (on : bool) (t : ActivityTracker) (a : Action) (L : Z)
    (w : World) :
  ∃ t', Scheduler.time_until on t a L w
        = (Ok ((if on
                then wait_of (w_realm w) (w_env w) (accountId t) a L
                else 0), t'), w)
        ∧ accountId t' = accountId t.
Proof.
  unfold Scheduler.time_until. destruct on; [|by exists t].
  unfold App.call.
  set (s0 := {| this := t; env := w_env w; realm := w_realm w |}).
  pose proof (getTimeUntilAvailable_fst s0 a L) as Hv.
  pose proof (getTimeUntilAvailable_frame s0 a L) as (He & Hr & Hid).
  simpl in Hv, He, Hr, Hid.
  destruct (Tracker.getTimeUntilAvailable a L _) as [x s]. simpl in *.
  exists (this s). subst x. by rewrite world_eta.
Qed.

Lemma Math_min_le (l : list Z) (x : Z) : x ∈ l -> Math_min l ≤ x.
Proof.
  intros Hx. destruct l as [|y l]; [by apply elem_of_nil in Hx|].
  destruct (min_list_elem (y :: l) (Math_min (y :: l)) eq_refl) as [_ H].
  by apply H.
Qed.

Lemma Math_min_elem (l : list Z) : l ≠ [] -> Math_min l ∈ l.
Proof.
  intros Hl. destruct l as [|y l]; [done|].
  by destruct (min_list_elem (y :: l) (Math_min (y :: l)) eq_refl) as [H _].
Qed.

(** The variables computed by the availability check, and the world left
    unchanged by it. *)
Lemma preRunCheck_spec (b : Behavior) (l : Limits) (t : ActivityTracker)
    (w : World) :
  let wait := fun a => wait_of (w_realm w) (w_env w) (accountId t) a
                         (limit_of l a) in
  ∃ pre t',
    Scheduler.preRunCheck b l t w = (Ok (pre, t'), w)
    ∧ accountId t' = accountId t
    ∧ (isBlocked pre = true ↔ ∀ a, enabled b a = true -> 0 < wait a)
    ∧ maxWaitTime pre
      = if isBlocked pre then Math_min (map wait (enabled_types b)) else 0.
Proof.
  intros wait. unfold Scheduler.preRunCheck, abind.
  destruct (time_until_spec (not_false (enableLikes b)) t Likes
              (limit_arg (likesPerHour l)) w) as (t1 & -> & Hid1).
  destruct (time_until_spec (not_false (enableComments b)) t1 Comments
              (limit_arg (commentsPerHour l)) w) as (t2 & -> & Hid2).
  destruct (time_until_spec (is_true (enableAutoDMs b)) t2 DMs
              (or_number (dmsPerHour l) 20) w) as (t3 & -> & Hid3).
  rewrite Hid2, Hid1. unfold aret.
  eexists _, t3. split; [reflexivity|]. split; [congruence|].
  cbn [isBlocked maxWaitTime].
  pose proof (wait_of_nonneg (w_realm w) (w_env w) (accountId t) Likes
                (limit_of l Likes)) as HL.
  pose proof (wait_of_nonneg (w_realm w) (w_env w) (accountId t) Comments
                (limit_of l Comments)) as HC.
  pose proof (wait_of_nonneg (w_realm w) (w_env w) (accountId t) DMs
                (limit_of l DMs)) as HD.
  unfold enabled_types. rewrite !filter_cons, filter_nil.
  assert (Hall : (∀ a, enabled b a = true -> 0 < wait a)
                 ↔ ((enabled b Likes = true -> 0 < wait Likes)
                    ∧ (enabled b Comments = true -> 0 < wait Comments)
                    ∧ (enabled b DMs = true -> 0 < wait DMs))).
  { split; [intros H; repeat split; apply H|].
    intros (H1 & H2 & H3) []; auto. }
  rewrite Hall. clear Hall. subst wait. cbn [enabled limit_of] in *.
  destruct (not_false (enableLikes b)), (not_false (enableComments b)),
    (is_true (enableAutoDMs b)); simpl;
    revert HL HC HD;
    generalize (wait_of (w_realm w) (w_env w) (accountId t) Likes
                  (limit_arg (likesPerHour l)));
    generalize (wait_of (w_realm w) (w_env w) (accountId t) Comments
                  (limit_arg (commentsPerHour l)));
    generalize (wait_of (w_realm w) (w_env w) (accountId t) DMs
                  (or_number (dmsPerHour l) 20));
    intros z y x Hx Hy Hz;
    try (destruct (Z.eqb_spec x 0)); try (destruct (Z.eqb_spec y 0));
    try (destruct (Z.eqb_spec z 0)); simpl;
    (split; [split; [try done; intros _; repeat split; intros; try done; lia
                    |try done; intros (H1 & H2 & H3);
                     try (specialize (H1 eq_refl)); try (specialize (H2 eq_refl));
                     try (specialize (H3 eq_refl)); lia]
            |done]).
Qed.

Lemma closeIfBlocked_spec (account : Account) (w : World) :
  ∃ w', Scheduler.closeIfBlocked account w = (Ok tt, w')
        ∧ activeSessions w' = delete (id account) (activeSessions w)
        ∧ w_env w' = w_env w
        ∧ next_addr w' = next_addr w
        ∧ ∀ h, activeSessions w !! id account = Some h ->
               browser (App.client_at w' h) = None
               ∧ Client.isConnected (App.client_at w' h) = false
               ∧ effects w'
                 = effects w ++ match browser (App.client_at w h) with
                                | Some _ => [EffBrowserClose]
                                | None => []
                                end.
Proof.
  app_unfold. simpl.
  destruct (activeSessions w !! id account) as [h|] eqn:Hs; simpl.
  - unfold Client.close.
    destruct (browser (App.client_at w h)) as [c|] eqn:Hb; simpl.
    + eexists. split; [reflexivity|]. simpl.
      split; [done|]. split; [done|]. split; [done|].
      intros h' [= <-]. unfold App.client_at, Client.isConnected. simpl.
      rewrite lookup_insert_eq. simpl.
      unfold App.client_at in Hb. by rewrite Hb.
    + eexists. split; [reflexivity|]. simpl.
      split; [done|]. split; [done|]. split; [done|].
      intros h' [= <-]. unfold App.client_at, Client.isConnected in *. simpl.
      rewrite lookup_insert_eq. simpl. rewrite Hb. by rewrite app_nil_r.
  - exists w. split; [done|]. split; [by rewrite delete_id|]. done.
Qed.

(** C8.  The availability check leaves the world as it is and sets
    [isBlocked] exactly when every enabled action type has a wait above 0;
    [maxWaitTime] is then the least of the waits of the enabled types (0 when
    none is enabled).  When the account is blocked, [processAccount] does
    what the blocked branch does and nothing else: the session registered for
    the account, if any, is closed and removed from the registry, whatever
    the number of sessions; no action is recorded and no client is
    created.  (The account's logger is taken to have been created.) *)
Theorem eager_close_when_blocked (sys : Sys) (account : Account)
    (character : Character) (emailService : bool) (o : Oracle) (w : World) :
  let behavior := behavior_of character account in
  let limits := limits_of character account in
  let trackerId := trackerId_of sys account in
  let w0 := (App.advance (stagger o) w).2 in
  let wait := wait_in w0 trackerId limits in
  ∃ pre t',
    Scheduler.preRunCheck behavior limits
      (this (Tracker.new trackerId (w_env w0))) w0 = (Ok (pre, t'), w0)
    ∧ (isBlocked pre = true ↔ ∀ a, enabled behavior a = true -> 0 < wait a)
    ∧ (isBlocked pre = true ->
       maxWaitTime pre = Math_min (map wait (enabled_types behavior))
       ∧ (∀ a, enabled behavior a = true -> maxWaitTime pre ≤ wait a)
       ∧ (enabled_types behavior ≠ [] ->
          ∃ a, enabled behavior a = true ∧ maxWaitTime pre = wait a)
       ∧ (logger_error o = None ->
          ∃ w', Scheduler.processAccount sys account character emailService o w
               = (Ok tt, w')
               ∧ Scheduler.closeIfBlocked account w0 = (Ok tt, w')
               ∧ activeSessions w' = delete (id account) (activeSessions w)
               ∧ w_env w' = w_env w0
               ∧ next_addr w' = next_addr w
               ∧ ∀ h, activeSessions w !! id account = Some h ->
                      Client.isConnected (App.client_at w' h) = false
                      ∧ effects w'
                        = effects w ++ match browser (App.client_at w h) with
                                       | Some _ => [EffBrowserClose]
                                       | None => []
                                       end)).
Proof.
  intros behavior limits trackerId w0 wait.
  destruct (preRunCheck_spec behavior limits
              (this (Tracker.new trackerId (w_env w0))) w0)
    as (pre & t' & Hpre & Hid & Hblocked & Hmax).
  exists pre, t'. split; [exact Hpre|]. split; [exact Hblocked|].
  intros Hb. rewrite Hb in Hmax. split; [exact Hmax|].
  assert (Hin : ∀ a, enabled behavior a = true -> a ∈ enabled_types behavior).
  { intros a Ha. unfold enabled_types. apply list_elem_of_filter. split; [done|].
    destruct a;
      [apply list_elem_of_here
      |apply list_elem_of_further, list_elem_of_here
      |do 2 apply list_elem_of_further; apply list_elem_of_here]. }
  split; [|split].
  - intros a Ha. rewrite Hmax. apply Math_min_le.
    apply list_elem_of_fmap. exists a. split; [done|]. by apply Hin.
  - intros Hne. rewrite Hmax.
    assert (map wait (enabled_types behavior) ≠ []) as Hne'.
    { destruct (enabled_types behavior); [done|]. simpl. done. }
    apply Math_min_elem in Hne'.
    apply list_elem_of_fmap in Hne' as (a & Ha & Hina).
    exists a. split; [|done].
    unfold enabled_types in Hina. by apply list_elem_of_filter in Hina as [? _].
  - intros Hlog. destruct (closeIfBlocked_spec account w0)
      as (w' & Hclose & Hsess & Henv & Hnext & Hh).
    exists w'. split; [|split; [exact Hclose|]].
    + unfold Scheduler.processAccount, abind, try_catch.
      fold behavior limits trackerId.
      change (App.advance (stagger o) w) with (Ok tt, w0).
      unfold Scheduler.createAccountLogger. rewrite Hlog. unfold aret at 1.
      unfold App.new_tracker at 1.
      fold (behavior_of character account) (limits_of character account)
        (trackerId_of sys account).
      fold behavior limits trackerId.
      rewrite Hpre, Hb, Hclose. done.
    + repeat split; try done. all: by apply Hh.
Qed.

(** The scenario of the specification: account a1 is blocked on likes and
    on comments, its two enabled types, and holds a session; one session is
    live and the ceiling is 5.  The session is closed and removed, and the
    wait is that of the comment, the older of the two records. *)
Lemma eager_close_when_blocked_witness :
  let sys := sys_linux (Some 5) in
  let acct := account_a1 no_overrides limits_one in
  let w := world_with_session env_blocked connected_client in
  (∀ a, enabled (behavior_of no_character acct) a = true ->
        0 < wait_in w (trackerId_of sys acct) (limits_of no_character acct) a)
  ∧ ∃ pre t' w',
      Scheduler.preRunCheck (behavior_of no_character acct)
        (limits_of no_character acct) (this (Tracker.new "a1" env_blocked)) w
      = (Ok (pre, t'), w)
      ∧ maxWaitTime pre = HOUR - 2000
      ∧ Scheduler.processAccount sys acct no_character false
          oracle_like_and_comment w = (Ok tt, w')
      ∧ activeSessions w' = ∅
      ∧ effects w' = [EffBrowserClose].
Proof.
  intros sys acct w.
  assert (Hall : ∀ a, enabled (behavior_of no_character acct) a = true ->
            0 < wait_in w (trackerId_of sys acct) (limits_of no_character acct) a).
  { intros [] Ha; vm_compute in Ha |- *; congruence. }
  split; [exact Hall|].
  destruct (eager_close_when_blocked sys acct no_character false
              oracle_like_and_comment w)
    as (pre & t' & Hpre & Hiff & Himp).
  destruct (Himp (proj2 Hiff Hall)) as (Hmax & _ & _ & Hclosed).
  destruct (Hclosed eq_refl) as (w' & Hrun & _ & Hsess & _ & _ & Hh).
  exists pre, t', w'. split; [exact Hpre|]. split.
  - rewrite Hmax. vm_compute. reflexivity.
  - split; [exact Hrun|]. split.
    + rewrite Hsess. apply delete_singleton_eq.
    + destruct (Hh 0%nat eq_refl) as [_ ->]. reflexivity.
Defined.

(** *** The end-of-cycle close *)

(** What the [finally] block does: it closes and forgets the session when
    [limitsReached] holds of the waits for likes and comments and the
    registry has reached the ceiling, and does nothing otherwise. *)
Lemma smartClose_spec (sys : Sys) (account : Account) (b : Behavior)
    (l : Limits) (t : ActivityTracker) (igClient : nat) (w : World) :
  let nextLike :=
    if not_false (enableLikes b)
    then wait_of (w_realm w) (w_env w) (accountId t) Likes (limit_of l Likes)
    else 0 in
  let nextComment :=
    if not_false (enableComments b)
    then wait_of (w_realm w) (w_env w) (accountId t) Comments
           (limit_of l Comments)
    else 0 in
  Scheduler.smartClose sys account b l t igClient w
  = if Scheduler.limitsReached b nextLike nextComment
       && Scheduler.size_ge (Z.of_nat (size (activeSessions w))) (maxSessions sys)
    then (App.client_close igClient ;; App.sessions_delete (id account) ;;
          aret true)%am w
    else (Ok false, w).
Proof.
  intros nextLike nextComment. unfold Scheduler.smartClose, abind at 1 2 3.
  destruct (time_until_spec (not_false (enableLikes b)) t Likes
              (limit_arg (likesPerHour l)) w) as (t1 & -> & Hid1).
  destruct (time_until_spec (not_false (enableComments b)) t1 Comments
              (limit_arg (commentsPerHour l)) w) as (t2 & -> & Hid2).
  rewrite Hid1. unfold App.sessions_size. subst nextLike nextComment.
  cbn [limit_of].
  by destruct (Scheduler.limitsReached _ _ _ && Scheduler.size_ge _ _).
Qed.

Lemma limitsReached_true (b : Behavior) (x y : Z) :
  Scheduler.limitsReached b x y = true ->
  (not_false (enableLikes b) = true -> 0 < x)
  ∧ (not_false (enableComments b) = true -> 0 < y).
Proof.
  unfold Scheduler.limitsReached.
  destruct (Z.ltb_spec 0 x), (Z.ltb_spec 0 y),
    (enableLikes b) as [[]|], (enableComments b) as [[]|]; simpl;
    intros Hr; split; intros He; try done.
Qed.

(** The session is closed at the end of a cycle only when the registry has
    reached the ceiling and the enabled types among likes and comments are
    blocked; direct messages are not looked at. *)
Lemma smartClose_only_if (sys : Sys) (account : Account) (b : Behavior)
    (l : Limits) (t : ActivityTracker) (igClient : nat) (w w' : World) :
  Scheduler.smartClose sys account b l t igClient w = (Ok true, w') ->
  (∃ m, maxSessions sys = Some m ∧ m ≤ Z.of_nat (size (activeSessions w)))
  ∧ ∀ a, a ≠ DMs -> enabled b a = true ->
         0 < wait_of (w_realm w) (w_env w) (accountId t) a (limit_of l a).
Proof.
  rewrite smartClose_spec.
  destruct (Scheduler.limitsReached _ _ _ && _) eqn:E; [|done]. intros _.
  apply andb_prop in E as [Hlim Hsize]. split.
  - unfold Scheduler.size_ge in Hsize.
    destruct (maxSessions sys) as [m|]; [|done].
    exists m. split; [done|]. by apply Z.leb_le.
  - apply limitsReached_true in Hlim as [HL HC]. intros a Ha Hen.
    destruct a; [| |done]; cbn [enabled] in Hen.
    + specialize (HL Hen). by rewrite Hen in HL.
    + specialize (HC Hen). by rewrite Hen in HC.
Qed.

Lemma smartClose_below_ceiling (sys : Sys) (account : Account) (b : Behavior)
    (l : Limits) (t : ActivityTracker) (igClient : nat) (w : World) (m : Z) :
  maxSessions sys = Some m -> Z.of_nat (size (activeSessions w)) < m ->
  Scheduler.smartClose sys account b l t igClient w = (Ok false, w).
Proof.
  intros Hm Hlt. rewrite smartClose_spec. unfold Scheduler.size_ge. rewrite Hm.
  replace (m <=? Z.of_nat (size (activeSessions w))) with false
    by (symmetry; apply Z.leb_gt; lia).
  by rewrite andb_false_r.
Qed.

(** C1, at the input where the code departs from it.  Account a1 has likes,
    comments and direct messages enabled, limits of one like and one comment
    per hour, and the ceiling is 1.  The run records one like and one
    comment.  At the end of the cycle the session is closed and removed,
    although direct messages are enabled and available (their wait is 0);
    and the availability check of the next cycle finds the account not
    blocked. *)
Theorem smartClose_ignores_dms :
  let sys := sys_linux (Some 1) in
  let acct := account_a1 with_dms limits_one in
  let b := behavior_of no_character acct in
  let l := limits_of no_character acct in
  let run := Scheduler.processAccount sys acct no_character false
               oracle_like_and_comment (world_empty (env_fresh 10000000)) in
  let next := Scheduler.preRunCheck b l
                (this (Tracker.new "a1" (w_env run.2))) run.2 in
  run.1 = Ok tt
  ∧ effects run.2
    = [EffExec (Pkill "a1"); EffDelay 2000; EffLaunch; EffBrowserClose]
  ∧ activeSessions run.2 = ∅
  ∧ enabled b DMs = true
  ∧ 0 < wait_in run.2 "a1" l Likes
  ∧ 0 < wait_in run.2 "a1" l Comments
  ∧ wait_in run.2 "a1" l DMs = 0
  ∧ match next.1 with
    | Ok (pre, _) => isBlocked pre = false
    | Throw _ => False
    end.
Proof.
  vm_compute. repeat split; reflexivity.
Qed.

(** *** Launch retries *)

Lemma launch_loop_ok (sys : Sys) (o : InitOracle) (fuel : nat) (attempt : Z)
    (c : IgClient) :
  attempt < Client.maxAttempts -> launch_result o attempt = LaunchOk ->
  Client.launch_loop sys o (S fuel) attempt c
  = Some (Ok tt, {| browser := Some true; page := true;
                    userDataDir := userDataDir c |}, [EffLaunch]).
Proof.
  intros Hlt Hok. simpl.
  replace (attempt <? Client.maxAttempts) with true
    by (symmetry; by apply Z.ltb_lt).
  by rewrite Hok.
Qed.

Lemma null_client_eta (c : IgClient) :
  browser c = None ->
  {| browser := None; page := page c; userDataDir := userDataDir c |} = c.
Proof. intros <-. by destruct c. Qed.

(** One failed launch that is not the last: the launch, the steps between
    launches, and the rest of the loop. *)
Lemma launch_loop_retry (sys : Sys) (o : InitOracle) (fuel : nat)
    (attempt : Z) (c : IgClient) :
  browser c = None -> attempt + 1 < Client.maxAttempts ->
  launch_result o attempt ≠ LaunchOk ->
  Client.launch_loop sys o (S fuel) attempt c
  = match Client.launch_loop sys o fuel (attempt + 1) c with
    | Some (r, c', evs) =>
        Some (r, c', [EffLaunch] ++ between_launches sys o c (attempt + 1)
                     ++ evs)
    | None => None
    end.
Proof.
  intros Hb Hlt Hfail. simpl.
  replace (attempt <? Client.maxAttempts) with true
    by (symmetry; apply Z.ltb_lt; lia).
  replace (Client.maxAttempts <=? attempt + 1) with false
    by (symmetry; apply Z.leb_gt; lia).
  unfold between_launches.
  replace (attempt + 1 - 1) with attempt by lia.
  replace (8000 + (attempt + 1) * 2000) with (8000 + 2000 * (attempt + 1))
    by lia.
  rewrite null_client_eta by done.
  destruct (launch_result o attempt) as [|err|err] eqn:Hr; [done| |].
  - rewrite Hb. simpl.
    destruct (Client.launch_loop sys o fuel (attempt + 1) c)
      as [[[r c'] evs]|]; [|done]. by rewrite <- app_assoc.
  - simpl.
    destruct (Client.launch_loop sys o fuel (attempt + 1) c)
      as [[[r c'] evs]|]; [|done]. by rewrite <- app_assoc.
Qed.

(** The failed launch number 5: the error is thrown. *)
Lemma launch_loop_last (sys : Sys) (o : InitOracle) (fuel : nat)
    (attempt : Z) (c : IgClient) :
  browser c = None -> attempt + 1 = Client.maxAttempts ->
  launch_result o attempt ≠ LaunchOk ->
  ∃ err, (launch_result o attempt = LaunchFails err
          ∨ launch_result o attempt = NewPageFails err)
         ∧ Client.launch_loop sys o (S fuel) attempt c
           = Some (Throw err, c,
                   [EffLaunch]
                   ++ match launch_result o attempt with
                      | NewPageFails _ => [EffBrowserClose]
                      | _ => []
                      end).
Proof.
  intros Hb Hlast Hfail. simpl.
  replace (attempt <? Client.maxAttempts) with true
    by (symmetry; apply Z.ltb_lt; lia).
  replace (Client.maxAttempts <=? attempt + 1) with true
    by (symmetry; apply Z.leb_le; lia).
  rewrite null_client_eta by done.
  destruct (launch_result o attempt) as [|err|err] eqn:Hr; [done| |];
    exists err; (split; [by eauto|]); [by rewrite Hb|done].
Qed.

(** The loop, from launch number [attempt + 1] on: after some number [n] of
    failed launches, each followed by the steps between launches, either a
    launch succeeds or launch number 5 fails and its error is thrown. *)
Lemma launch_loop_trace (sys : Sys) (o : InitOracle) (fuel : nat)
    (attempt : Z) (c : IgClient) :
  browser c = None -> 0 ≤ attempt < Client.maxAttempts ->
  (Z.to_nat (Client.maxAttempts - attempt) ≤ fuel)%nat ->
  ∃ n : nat,
    (∀ k, attempt ≤ k < attempt + Z.of_nat n -> launch_result o k ≠ LaunchOk)
    ∧ ((attempt + Z.of_nat n < Client.maxAttempts
        ∧ launch_result o (attempt + Z.of_nat n) = LaunchOk
        ∧ Client.launch_loop sys o fuel attempt c
          = Some (Ok tt,
                  {| browser := Some true; page := true;
                     userDataDir := userDataDir c |},
                  failed_launches sys o c (attempt + 1) n ++ [EffLaunch]))
       ∨ (attempt + Z.of_nat n + 1 = Client.maxAttempts
          ∧ ∃ err,
              (launch_result o (Client.maxAttempts - 1) = LaunchFails err
               ∨ launch_result o (Client.maxAttempts - 1) = NewPageFails err)
              ∧ Client.launch_loop sys o fuel attempt c
                = Some (Throw err, c,
                        failed_launches sys o c (attempt + 1) n
                        ++ [EffLaunch]
                        ++ match launch_result o (Client.maxAttempts - 1) with
                           | NewPageFails _ => [EffBrowserClose]
                           | _ => []
                           end))).
Proof.
  intros Hb. induction fuel as [|fuel IH] in attempt |- *; intros Hat Hfuel.
  { unfold Client.maxAttempts in *. lia. }
  destruct (decide (launch_result o attempt = LaunchOk)) as [Hok|Hfail].
  - exists 0%nat. split; [intros k; lia|]. left.
    rewrite Z.add_0_r. split; [lia|]. split; [done|].
    rewrite (launch_loop_ok sys o fuel attempt c); [done|lia|done].
  - destruct (decide (attempt + 1 = Client.maxAttempts)) as [Hlast|Hmore].
    + exists 0%nat. split; [intros k; lia|]. right.
      rewrite Z.add_0_r. split; [done|].
      destruct (launch_loop_last sys o fuel attempt c Hb Hlast Hfail)
        as (err & Herr & Hloop).
      replace (Client.maxAttempts - 1) with attempt by lia.
      exists err. split; [done|]. by rewrite Hloop.
    + destruct (IH (attempt + 1)) as (n & Hfails & Hn).
      { unfold Client.maxAttempts in *. lia. }
      { unfold Client.maxAttempts in *. lia. }
      exists (S n). split.
      { intros k Hk. destruct (decide (k = attempt)) as [->|]; [done|].
        apply Hfails. lia. }
      rewrite launch_loop_retry by (done || unfold Client.maxAttempts in *; lia).
      replace (attempt + Z.of_nat (S n)) with (attempt + 1 + Z.of_nat n) by lia.
      destruct Hn as [(Hlt & Hok & ->)|(Hlt & err & Herr & ->)].
      * left. split; [done|]. split; [done|]. simpl.
        by rewrite <- !app_assoc.
      * right. split; [done|]. exists err. split; [done|]. simpl.
        by rewrite <- !app_assoc.
Qed.

(** The loop never runs out of fuel in [init], whatever the client. *)
Lemma launch_loop_total (sys : Sys) (o : InitOracle) (fuel : nat)
    (attempt : Z) (c : IgClient) :
  (1 ≤ fuel)%nat -> (Z.to_nat (Client.maxAttempts - attempt) ≤ fuel)%nat ->
  is_Some (Client.launch_loop sys o fuel attempt c).
Proof.
  induction fuel as [|fuel IH] in attempt, c |- *; intros H1 Hfuel; [lia|].
  simpl. destruct (Z.ltb_spec attempt Client.maxAttempts) as [Hlt|Hge]; [|done].
  destruct (launch_result o attempt) as [|err|err]; [done| |];
    (destruct (Z.leb_spec Client.maxAttempts (attempt + 1)) as [Hlast|Hmore];
     [done|]);
    match goal with
    | |- context [Client.launch_loop sys o fuel (attempt + 1) ?c1] =>
        destruct (IH (attempt + 1) c1) as [[[r c2] evs] ->];
          [unfold Client.maxAttempts in *; lia
          |unfold Client.maxAttempts in *; lia|done]
    end.
Qed.

Lemma init_total (sys : Sys) (o : InitOracle) (c : IgClient) :
  is_Some (Client.init sys o c).
Proof.
  unfold Client.init. destruct (Client.isConnected c); [done|].
  destruct (launch_loop_total sys o (Z.to_nat Client.maxAttempts) 0 c)
    as [[[r c1] evs] ->]; [unfold Client.maxAttempts; lia|done|].
  destruct r; [|done].
  destruct (browser c1), (page c1); try done; by destruct (post_launch o).
Qed.

Lemma force_cleanup_spec (sys : Sys) (o : InitOracle) (i : Z) (c : IgClient)
    (dir : string) :
  truthy (userDataDir c) = Some dir ->
  execs (Client.force_cleanup sys o i c)
  = match platform sys with
    | Win32 => [Wmic (escape_backslashes (path_resolve sys dir))]
    | Linux => [Pkill (path_basename sys (path_resolve sys dir))]
    | OtherPlatform => []
    end
  ∧ unlinks (Client.force_cleanup sys o i c)
    = map (path_join sys (path_resolve sys dir))
          (filter (λ f, lock_present o i f = true) Client.lockFiles)
  ∧ launches (Client.force_cleanup sys o i c) = 0%nat
  ∧ backoffs (Client.force_cleanup sys o i c) = [].
Proof.
  intros Hd. unfold Client.force_cleanup, killChromeProcessByProfile.
  rewrite Hd. unfold Client.lockFiles, execs, unlinks, launches, backoffs.
  rewrite !filter_cons, filter_nil.
  destruct (platform sys); simpl;
    destruct (lock_present o i "SingletonLock"),
      (lock_present o i "SingletonCookie"),
      (lock_present o i "SingletonSocket"); simpl; done.
Qed.

(** *** Errors at the account boundary *)

(** The only error that leaves [processAccount] is that of
    [createAccountLogger], which runs before the [try]. *)
Lemma processAccount_result (sys : Sys) (account : Account)
    (character : Character) (emailService : bool) (o : Oracle) (w : World) :
  ∃ w', Scheduler.processAccount sys account character emailService o w
        = (match logger_error o with
           | Some err => Throw err
           | None => Ok tt
           end, w').
Proof.
  unfold Scheduler.processAccount, abind at 1 2, try_catch,
    Scheduler.createAccountLogger. simpl.
  destruct (logger_error o) as [err|]; simpl; [by eexists|].
  match goal with
  | |- context [match ?body ?w0 with _ => _ end] =>
      destruct (body w0) as [[[]|err] w1]
  end.
  - by eexists.
  - destruct emailService; by eexists.
Qed.

Lemma processAccount_no_throw (sys : Sys) (account : Account)
    (character : Character) (emailService : bool) (o : Oracle) (w : World) :
  logger_error o = None ->
  ∃ w', Scheduler.processAccount sys account character emailService o w
        = (Ok tt, w').
Proof.
  intros Hlog.
  destruct (processAccount_result sys account character emailService o w)
    as [w' Hrun].
  rewrite Hlog in Hrun. by exists w'.
Qed.

Lemma keeps_ret {A} (k0 : string) (x : A) : keeps_sessions k0 (aret x).
Proof. by intros w r w' [= <- <-]. Qed.

Lemma keeps_throw {A} (k0 : string) (err : string) :
  keeps_sessions k0 (@athrow A err).
Proof. by intros w r w' [= <- <-]. Qed.

Lemma keeps_bind {A B} (k0 : string) (m : AM A) (f : A -> AM B) :
  keeps_sessions k0 m -> (∀ x, keeps_sessions k0 (f x)) ->
  keeps_sessions k0 (abind m f).
Proof.
  intros Hm Hf w r w'. unfold abind.
  destruct (m w) as [[x|err] w1] eqn:E.
  - intros Hk k Hne. rewrite (Hf x _ _ _ Hk k Hne). by eapply Hm.
  - intros [= <- <-]. by eapply Hm.
Qed.

Lemma keeps_try_catch {A} (k0 : string) (m : AM A) (h : string -> AM A) :
  keeps_sessions k0 m -> (∀ err, keeps_sessions k0 (h err)) ->
  keeps_sessions k0 (try_catch m h).
Proof.
  intros Hm Hh w r w'. unfold try_catch.
  destruct (m w) as [[x|err] w1] eqn:E.
  - intros [= <- <-]. by eapply Hm.
  - intros Hk k Hne. rewrite (Hh err _ _ _ Hk k Hne). by eapply Hm.
Qed.

Lemma keeps_try_finally {A} (k0 : string) (m : AM A) (f : AM unit) :
  keeps_sessions k0 m -> keeps_sessions k0 f ->
  keeps_sessions k0 (try_finally m f).
Proof.
  intros Hm Hf w r w'. unfold try_finally.
  destruct (m w) as [r1 w1] eqn:E. destruct (f w1) as [[[]|err] w2] eqn:E2;
    intros [= <- <-] k Hne; rewrite (Hf _ _ _ E2 k Hne); by eapply Hm.
Qed.

(** A step that does not touch the registry. *)
Lemma keeps_same {A} (k0 : string) (m : AM A) :
  (∀ w r w', m w = (r, w') -> activeSessions w' = activeSessions w) ->
  keeps_sessions k0 m.
Proof. intros H w r w' Hm k _. by rewrite (H _ _ _ Hm). Qed.

Lemma keeps_sessions_set (k0 : string) (a : nat) :
  keeps_sessions k0 (App.sessions_set k0 a).
Proof.
  intros w r w' [= <- <-] k Hne. simpl. by rewrite lookup_insert_ne.
Qed.

Lemma keeps_sessions_delete (k0 : string) :
  keeps_sessions k0 (App.sessions_delete k0).
Proof.
  intros w r w' [= <- <-] k Hne. simpl. by rewrite lookup_delete_ne.
Qed.

Ltac keeps_prim :=
  apply keeps_same; intros ? ? ?; cbv beta delta
    [App.advance App.emit App.set_client App.new_client App.get_world
     App.sessions_get App.sessions_size App.new_tracker aret athrow];
  intros [= <- <-]; reflexivity.

Lemma keeps_call {A} (k0 : string) (t : ActivityTracker) (m : TM A) :
  keeps_sessions k0 (App.call t m).
Proof.
  apply keeps_same. intros w r w'. unfold App.call.
  destruct (m _) as [x s]. by intros [= <- <-].
Qed.

Lemma keeps_client_close (k0 : string) (a : nat) :
  keeps_sessions k0 (App.client_close a).
Proof.
  unfold App.client_close. apply keeps_bind; [keeps_prim|]. intros w.
  destruct (Client.close _) as [c evs].
  apply keeps_bind; [keeps_prim|]. intros _. keeps_prim.
Qed.

Lemma keeps_client_init (k0 : string) (sys : Sys) (o : InitOracle) (a : nat) :
  keeps_sessions k0 (App.client_init sys o a).
Proof.
  unfold App.client_init. apply keeps_bind; [keeps_prim|]. intros w.
  destruct (Client.init _ _ _) as [[[r c] evs]|]; [|apply keeps_throw].
  repeat (apply keeps_bind; [keeps_prim|]; intros _).
  destruct r; [apply keeps_ret|apply keeps_throw].
Qed.

Lemma keeps_track_all (k0 : string) (t : ActivityTracker) (l : list Action) :
  keeps_sessions k0 (App.track_all t l).
Proof.
  induction l as [|a l IH] in t |- *; simpl; [apply keeps_ret|].
  apply keeps_bind; [apply keeps_call|]. intros r. apply IH.
Qed.

Lemma keeps_perform (k0 trackerId : string) (a : nat) (i : Interaction) :
  keeps_sessions k0 (App.perform trackerId a i).
Proof.
  unfold App.perform. apply keeps_bind; [keeps_prim|]. intros t.
  apply keeps_bind; [apply keeps_track_all|]. intros _.
  apply keeps_bind; [keeps_prim|]. intros _.
  apply keeps_bind.
  - destruct (disconnects i); [|apply keeps_ret].
    apply keeps_bind; [keeps_prim|]. intros w. keeps_prim.
  - intros _. destruct (failure i); [apply keeps_throw|apply keeps_ret].
Qed.

Lemma keeps_time_until (k0 : string) (on : bool) (t : ActivityTracker)
    (a : Action) (L : Z) :
  keeps_sessions k0 (Scheduler.time_until on t a L).
Proof.
  unfold Scheduler.time_until. destruct on; [apply keeps_call|apply keeps_ret].
Qed.

Lemma keeps_processAccount (sys : Sys) (account : Account)
    (character : Character) (emailService : bool) (o : Oracle) :
  keeps_sessions (id account)
    (Scheduler.processAccount sys account character emailService o).
Proof.
  unfold Scheduler.processAccount.
  apply keeps_bind; [keeps_prim|]. intros _.
  apply keeps_bind.
  { unfold Scheduler.createAccountLogger.
    destruct (logger_error o); [apply keeps_throw|apply keeps_ret]. }
  intros _. apply keeps_try_catch.
  - apply keeps_bind; [keeps_prim|]. intros t.
    apply keeps_bind.
    { unfold Scheduler.preRunCheck.
      apply keeps_bind; [apply keeps_time_until|]. intros [x1 t1].
      apply keeps_bind; [apply keeps_time_until|]. intros [x2 t2].
      apply keeps_bind; [apply keeps_time_until|]. intros [x3 t3].
      apply keeps_ret. }
    intros [pre t'].
    destruct (isBlocked pre).
    + unfold Scheduler.closeIfBlocked.
      apply keeps_bind; [keeps_prim|]. intros [a|]; [|apply keeps_ret].
      apply keeps_bind; [apply keeps_client_close|]. intros _.
      apply keeps_sessions_delete.
    + apply keeps_bind.
      { unfold Scheduler.reuseOrCreateClient.
        apply keeps_bind; [keeps_prim|]. intros oa.
        apply keeps_bind; [keeps_prim|]. intros w.
        apply keeps_bind.
        - destruct oa as [a|]; [|apply keeps_ret].
          destruct (negb _); [|apply keeps_ret].
          apply keeps_bind; [apply keeps_sessions_delete|]. intros _.
          apply keeps_ret.
        - intros [a|]; [apply keeps_ret|].
          apply keeps_bind; [keeps_prim|]. intros a.
          apply keeps_bind; [apply keeps_sessions_set|]. intros _.
          apply keeps_ret. }
      intros igClient. apply keeps_try_finally.
      * apply keeps_try_catch; [|intros err; apply keeps_throw].
        unfold Scheduler.runSession.
        apply keeps_bind; [apply keeps_client_init|]. intros _.
        apply keeps_bind.
        { destruct (is_true _); [apply keeps_perform|apply keeps_ret]. }
        intros _. destruct (useHashtags o); apply keeps_perform.
      * apply keeps_bind; [|intros _; apply keeps_ret].
        unfold Scheduler.smartClose.
        apply keeps_bind; [apply keeps_time_until|]. intros [x1 t1].
        apply keeps_bind; [apply keeps_time_until|]. intros [x2 t2].
        apply keeps_bind; [keeps_prim|]. intros size.
        destruct (_ && _); [|apply keeps_ret].
        apply keeps_bind; [apply keeps_client_close|]. intros _.
        apply keeps_bind; [apply keeps_sessions_delete|]. intros _.
        apply keeps_ret.
  - intros err. destruct emailService; [|apply keeps_ret].
    unfold Scheduler.sendErrorAlert. keeps_prim.
Qed.

(** What the account boundary and the gate do keep.  An error raised in
    the [try] region of [processAccount] is caught by the outer [catch],
    whose handler does not throw: the call ends normally unless
    [createAccountLogger], which runs before the [try], failed, and then it
    throws that error.  In both cases
    the call touches no registry entry but that of its own account.  At the
    gate, the promises settled are exactly those of the tasks that settled,
    each with its own task's outcome; a rejection is handed to the rejected
    task's promise alone, and the gate's state after it is the state after a
    fulfilment: the slot is released and the head of the queue, if any, is
    started. *)
Theorem error_isolation (sys : Sys) (account : Account)
    (character : Character) (emailService : bool) (o : Oracle) (w : World)
    (N : Z) (evs : list PLimit.Event) (g : Gate) :
  PLimit.exec evs (PLimit.pLimit N) = Some g ->
  (∃ w', Scheduler.processAccount sys account character emailService o w
         = (match logger_error o with
            | Some err => Throw err
            | None => Ok tt
            end, w')
         ∧ ∀ k, k ≠ id account ->
                activeSessions w' !! k = activeSessions w !! k)
  ∧ settled g = PLimit.settle_events evs
  ∧ ∀ tid err, tid ∈ running g ->
      let g' := PLimit.run_settled tid (Rejected err) g in
      settled g' = settled g ++ [(tid, Rejected err)]
      ∧ (∀ v, queue g' = queue (PLimit.run_settled tid (Fulfilled v) g)
              ∧ activeCount g' = activeCount (PLimit.run_settled tid (Fulfilled v) g)
              ∧ running g' = running (PLimit.run_settled tid (Fulfilled v) g)
              ∧ started g' = started (PLimit.run_settled tid (Fulfilled v) g))
      ∧ (tid ∉ running g')
      ∧ (∀ n rest, queue g = n :: rest ->
           started g' = started g ++ [n] ∧ queue g' = rest ∧ n ∈ running g')
      ∧ gate_inv g'.
Proof.
  intros Hexec. split; [|split].
  - destruct (processAccount_result sys account character emailService o w)
      as [w' Hrun].
    exists w'. split; [done|].
    by apply (keeps_processAccount sys account character emailService o w _ _ Hrun).
  - by rewrite (exec_settled _ _ _ Hexec).
  - intros tid err Hin g'. subst g'.
    pose proof (gate_inv_exec _ _ _ (gate_inv_pLimit N) Hexec) as Hinv.
    split; [apply run_settled_frame|]. split; [intros v; apply run_settled_outcome_indep|].
    split; [|split; [|by apply gate_inv_run_settled]].
    + pose proof (gate_inv_run_settled tid (Rejected err) g Hinv Hin) as Hinv'.
      destruct Hinv' as (_ & Hsub' & Hst' & Hnd' & _).
      destruct (run_settled_frame tid (Rejected err) g) as (_ & _ & Hset).
      intros Hrun. rewrite Hsub' in Hnd'. apply NoDup_app in Hnd' as [Hnd' _].
      rewrite Hst', Hset, fmap_app in Hnd'. simpl in Hnd'.
      apply NoDup_app in Hnd' as (_ & Hdisj & _).
      apply (Hdisj tid Hrun). apply elem_of_app. right. apply list_elem_of_here.
    + intros n rest Hq. unfold PLimit.run_settled, PLimit.next. simpl.
      rewrite Hq. simpl. repeat split; try done.
      apply elem_of_app. right. apply list_elem_of_here.
Qed.

(** An account whose browser cannot be launched, in a world where account
    a1 holds a session: the error of [init] is caught, an alert is sent, the
    run ends normally and the session of account a1 is untouched.  A gate
    with one slot and two tasks: task 0 is rejected, its rejection is the only
    promise settled, and task 1 starts in the freed slot. *)
Lemma error_isolation_witness :
  let evs := [PLimit.Enqueue 0%nat; PLimit.Enqueue 1%nat] in
  let w := world_with_session (env_fresh 0) connected_client in
  ∃ g w',
    PLimit.exec evs (PLimit.pLimit 1) = Some g
    ∧ Scheduler.processAccount (sys_linux (Some 5)) account_a2 no_character
        true oracle_locked w = (Ok tt, w')
    ∧ launches (effects w') = 5%nat
    ∧ last (effects w') = Some (EffAlert "bob" "profile in use")
    ∧ activeSessions w' !! "a1"%string = Some 0%nat
    ∧ settled (PLimit.run_settled 0%nat (Rejected "boom") g)
      = [(0%nat, Rejected "boom")]
    ∧ running (PLimit.run_settled 0%nat (Rejected "boom") g) = [1%nat].
Proof.
  intros evs w.
  destruct (error_isolation (sys_linux (Some 5)) account_a2 no_character true
              oracle_locked w 1 evs _ eq_refl)
    as ((w' & Hrun & Hkeep) & Hsettled & Hrej).
  assert (Hw' : w' = (Scheduler.processAccount (sys_linux (Some 5)) account_a2
                        no_character true oracle_locked w).2)
    by (by rewrite Hrun).
  eexists _, w'. split; [reflexivity|]. split; [exact Hrun|].
  split; [rewrite Hw'; vm_compute; reflexivity|].
  split; [rewrite Hw'; vm_compute; reflexivity|]. split.
  - rewrite (Hkeep "a1"%string); [reflexivity|]. simpl. discriminate.
  - destruct (Hrej 0%nat "boom"%string) as (Hs & _).
    { apply list_elem_of_here. }
    split; [rewrite Hs; reflexivity|reflexivity].
Defined.

(** C6, at the input where the code departs from it.
    [createAccountLogger] runs before the [try] of [processAccount].  When
    it throws for account a2, nothing catches the error: no alert is sent
    and the promise of the gate task is rejected.  With a limit of 2 and
    account a1 (task 0) still running, the rejection of task 1 makes
    [Promise.all] in [runInstagram] throw. *)
Theorem logger_error_escapes :
  let run := Scheduler.processAccount (sys_linux (Some 5)) account_a2
               no_character true oracle_no_logger
               (world_with_session (env_fresh 0) connected_client) in
  let evs := [PLimit.Enqueue 0%nat; PLimit.Enqueue 1%nat;
              PLimit.Settle 1%nat (Scheduler.task_outcome run.1)] in
  run.1 = Throw "EACCES: permission denied, mkdir"
  ∧ effects run.2 = []
  ∧ Scheduler.task_outcome run.1 = Rejected "EACCES: permission denied, mkdir"
  ∧ match PLimit.exec evs (PLimit.pLimit 2) with
    | Some g =>
        running g = [0%nat]
        ∧ Scheduler.Promise_all (settled g)
          = Throw "EACCES: permission denied, mkdir"
    | None => False
    end.
Proof. vm_compute. repeat split; reflexivity. Qed.

Lemma between_launches_spec (sys : Sys) (o : InitOracle) (c : IgClient)
    (i : Z) :
  backoffs (between_launches sys o c i) = [8000 + 2000 * i]
  ∧ launches (between_launches sys o c i) = 0%nat
  ∧ execs (between_launches sys o c i) = execs (Client.force_cleanup sys o i c)
  ∧ unlinks (between_launches sys o c i)
    = unlinks (Client.force_cleanup sys o i c)
  ∧ (truthy (userDataDir c) = None -> Client.force_cleanup sys o i c = []).
Proof.
  unfold between_launches, backoffs, launches, execs, unlinks.
  rewrite !omap_app, !filter_app, !length_app.
  destruct (truthy (userDataDir c)) as [dir|] eqn:Hd.
  - destruct (force_cleanup_spec sys o i c dir Hd) as (_ & _ & Hl & Hbk).
    unfold launches, backoffs in Hl, Hbk. rewrite Hl, Hbk.
    destruct (launch_result o (i - 1)); simpl; rewrite ?app_nil_r; done.
  - unfold Client.force_cleanup. rewrite Hd.
    destruct (launch_result o (i - 1)); simpl; done.
Qed.

Lemma launches_app (l1 l2 : list Effect) :
  launches (l1 ++ l2) = (launches l1 + launches l2)%nat.
Proof. unfold launches. by rewrite filter_app, length_app. Qed.

Lemma launches_failed_launches (sys : Sys) (o : InitOracle) (c : IgClient)
    (i : Z) (n : nat) :
  launches (failed_launches sys o c i n) = n.
Proof.
  induction n as [|n IH] in i |- *; [done|].
  cbn [failed_launches]. rewrite !launches_app, IH.
  destruct (between_launches_spec sys o c i) as (_ & -> & _). done.
Qed.

Lemma launches_proactive (sys : Sys) (c : IgClient) :
  launches match truthy (userDataDir c) with
           | Some dir => killChromeProcessByProfile sys dir ++ [EffDelay 2000]
           | None => []
           end = 0%nat.
Proof.
  destruct (truthy (userDataDir c)); [|done].
  unfold killChromeProcessByProfile.
  by destruct (platform sys).
Qed.

(** C9, as the code has it.  On a client whose browser is not set, the loop
    of [init] makes at most 5 launches.  After [n] failed launches, numbered
    from 1, each followed by the steps between launches (closing a browser
    that had opened, the cleanup, and a wait of 8 s + 2 s × the number of the
    failed launch), either a launch succeeds and the client is connected, or
    launch number 5 fails as well and [init] throws its error.  The cleanup
    applies to a client whose profile directory is set and not the empty
    string: it runs the kill command of [killChromeProcessByProfile], which
    matches the escaped absolute profile path on Windows and the profile
    folder name on Linux and is absent on other platforms, and deletes those
    of the three lock files that exist; for a client without a profile
    directory, or with the empty string, nothing is killed or deleted.
    Whatever [init] does, a call of [processAccount] that got as far as
    [init] ends normally. *)
Theorem init_retry (sys : Sys) (o : InitOracle) (c : IgClient) :
  browser c = None ->
  (∃ n : nat,
     (n ≤ 4)%nat
     ∧ (∀ k, 0 ≤ k < Z.of_nat n -> launch_result o k ≠ LaunchOk)
     ∧ ((launch_result o (Z.of_nat n) = LaunchOk
         ∧ ∃ c', Client.launch_loop sys o (Z.to_nat Client.maxAttempts) 0 c
                 = Some (Ok tt, c',
                         failed_launches sys o c 1 n ++ [EffLaunch])
                 ∧ Client.isConnected c' = true)
        ∨ (n = 4%nat
           ∧ ∃ err evs,
               (launch_result o 4 = LaunchFails err
                ∨ launch_result o 4 = NewPageFails err)
               ∧ Client.launch_loop sys o (Z.to_nat Client.maxAttempts) 0 c
                 = Some (Throw err, c, failed_launches sys o c 1 4 ++ evs)
               ∧ launches evs = 1%nat ∧ backoffs evs = [] ∧ execs evs = []
               ∧ ∃ evs', Client.init sys o c = Some (Throw err, c, evs')
                         ∧ launches evs' = 5%nat)))
  ∧ (∀ i, backoffs (between_launches sys o c i) = [8000 + 2000 * i]
          ∧ launches (between_launches sys o c i) = 0%nat)
  ∧ (∀ i dir, truthy (userDataDir c) = Some dir ->
       execs (between_launches sys o c i)
       = match platform sys with
         | Win32 => [Wmic (escape_backslashes (path_resolve sys dir))]
         | Linux => [Pkill (path_basename sys (path_resolve sys dir))]
         | OtherPlatform => []
         end
       ∧ unlinks (between_launches sys o c i)
         = map (path_join sys (path_resolve sys dir))
               (filter (λ f, lock_present o i f = true) Client.lockFiles))
  ∧ (truthy (userDataDir c) = None ->
     ∀ i, execs (between_launches sys o c i) = []
          ∧ unlinks (between_launches sys o c i) = [])
  ∧ ∀ account character emailService (orc : Oracle) w,
      init_oracle orc = o -> logger_error orc = None ->
      ∃ w', Scheduler.processAccount sys account character emailService orc w
            = (Ok tt, w').
Proof.
  intros Hb.
  pose proof (between_launches_spec sys o c) as Hbetween.
  split; [|split; [|split; [|split]]].
  - destruct (launch_loop_trace sys o (Z.to_nat Client.maxAttempts) 0 c Hb)
      as (n & Hfails & Hn); [unfold Client.maxAttempts; lia|done|].
    rewrite Z.add_0_l in Hfails.
    assert (n ≤ 4)%nat as Hn4.
    { unfold Client.maxAttempts in Hn. destruct Hn as [(? & _)|(? & _)]; lia. }
    exists n. split; [done|]. split; [done|].
    destruct Hn as [(Hlt & Hok & Hloop)|(Hlast & err & Herr & Hloop)].
    + left. rewrite Z.add_0_l in Hok. split; [done|].
      eexists. split; [exact Hloop|done].
    + right. assert (n = 4%nat) as -> by (unfold Client.maxAttempts in Hlast; lia).
      split; [done|]. change (Client.maxAttempts - 1) with 4 in *.
      exists err. eexists. split; [done|]. split; [exact Hloop|].
      split; [by destruct (launch_result o 4)|].
      split; [by destruct (launch_result o 4)|].
      split; [by destruct (launch_result o 4)|].
      unfold Client.init, Client.isConnected. rewrite Hb, Hloop.
      eexists. split; [reflexivity|].
      rewrite !launches_app, launches_proactive, launches_failed_launches.
      by destruct (launch_result o 4).
  - intros i. destruct (Hbetween i) as (? & ? & _). done.
  - intros i dir Hd. destruct (Hbetween i) as (_ & _ & -> & -> & _).
    destruct (force_cleanup_spec sys o i c dir Hd) as (? & ? & _). done.
  - intros Hd i. destruct (Hbetween i) as (_ & _ & -> & -> & Hnil).
    by rewrite (Hnil Hd).
  - intros account character emailService orc w _.
    apply processAccount_no_throw.
Qed.

(** C9 as worded fails on a platform other than Windows and Linux: the
    first launch fails, the lock file is deleted and the client waits 10 s
    and launches again, and no process was terminated in between (nor
    before the first launch). *)
Lemma init_retry_no_kill_counterexample :
  Client.init (sys_mac None) init_second_ok (Client.new (Some "a1"%string))
  = Some (Ok tt, connected_client,
          [EffDelay 2000; EffLaunch; EffUnlink "/srv/bot/a1/SingletonLock";
           EffDelay 10000; EffLaunch])
  ∧ execs [EffDelay 2000; EffLaunch; EffUnlink "/srv/bot/a1/SingletonLock";
           EffDelay 10000; EffLaunch] = [].
Proof. split; vm_compute; reflexivity. Qed.

(** On Linux, with a profile that stays locked: the four waits are 10, 12,
    14 and 16 s, each retry is preceded by the kill command for the profile
    folder and the deletion of the lock file that exists, and the run of the
    account ends normally after the fifth failure. *)
Lemma init_retry_witness :
  let sys := sys_linux (Some 5) in
  let c := Client.new (Some "a1"%string) in
  browser c = None
  ∧ backoffs (failed_launches sys init_all_fail c 1 4)
    = [10000; 12000; 14000; 16000]
  ∧ execs (between_launches sys init_all_fail c 1) = [Pkill "a1"]
  ∧ unlinks (between_launches sys init_all_fail c 1)
    = ["/srv/bot/a1/SingletonLock"%string]
  ∧ (∃ err evs, Client.init sys init_all_fail c = Some (Throw err, c, evs)
                ∧ launches evs = 5%nat)
  ∧ ∃ w', Scheduler.processAccount sys (account_a1 no_overrides limits_one)
            no_character false oracle_locked (world_empty (env_fresh 0))
          = (Ok tt, w').
Proof.
  intros sys c.
  assert (Hb : browser c = None) by reflexivity.
  destruct (init_retry sys init_all_fail c Hb)
    as (Hloop & Hback & Hclean & _ & Hrun).
  split; [exact Hb|]. split; [vm_compute; reflexivity|].
  destruct (Hclean 1 "a1"%string eq_refl) as [He Hu].
  split; [exact He|]. split; [exact Hu|]. split.
  - destruct Hloop as (n & _ & _ & [(Hok & _)|(_ & err & evs & Hrest)]).
    + discriminate Hok.
    + destruct Hrest as (_ & _ & _ & _ & _ & evs' & Hinit & Hn).
      exists err, evs'. split; [exact Hinit|exact Hn].
  - exact (Hrun (account_a1 no_overrides limits_one) no_character false
             oracle_locked (world_empty (env_fresh 0)) eq_refl eq_refl).
Defined.

(** A profile directory that is the empty string counts as not set: the
    tests [if (this.userDataDir)] fail, so nothing is killed or deleted
    before the first launch or between launches, and the tracker of the
    account goes by the user name. *)
Example init_empty_profile :
  Client.init (sys_linux None) init_second_ok (Client.new (Some EmptyString))
  = Some (Ok tt,
          {| browser := Some true; page := true;
             userDataDir := Some EmptyString |},
          [EffLaunch; EffDelay 10000; EffLaunch])
  ∧ trackerId_of (sys_linux None)
      {| id := "a1"; username := "alice"; a_userDataDir := Some EmptyString;
         a_behavior := no_overrides; a_limits := limits_one |}
    = "alice"%string.
Proof. split; vm_compute; reflexivity. Qed.

(** *** More on the tracker *)

Lemma filter_ext_in {A} (P Q : A -> Prop) `{!∀ x, Decision (P x), !∀ x, Decision (Q x)}
    (l : list A) :
  (∀ x, x ∈ l -> (P x ↔ Q x)) -> filter P l = filter Q l.
Proof.
  induction l as [|x l IH]; intros Hext; [done|].
  rewrite !filter_cons.
  assert (filter P l = filter Q l) as ->.
  { apply IH. intros y Hy. apply Hext. by apply list_elem_of_further. }
  pose proof (Hext x (list_elem_of_here _ _)) as Hx.
  destruct (decide (P x)) as [p|np].
  - by rewrite decide_True by tauto.
  - by rewrite decide_False by tauto.
Qed.

(** One call, by a tracker whose id is not the name of a member of
    [Object.prototype], in a process where [Object.prototype] has no arrays
    of its own. *)
Lemma run_write_spec (rl : Realm) (e : Env) (w : Write) (id : string)
    (a : Action) :
  op_props rl = no_fields -> own_key (accountId (wr_tracker w)) = true ->
  (run_write (rl, e) w).1 = rl
  ∧ log_writable (run_write (rl, e) w).2 = log_writable e
  ∧ durable_history (run_write (rl, e) w).2 id a
    = durable_history e id a
      ++ (if log_writable e then stamps_of id a [w] else []).
Proof.
  intros Hop Hown. unfold run_write. simpl.
  set (s := {| this := wr_tracker w; env := at_time (wr_time w) e;
               realm := rl |}).
  assert (kept_in_file (realm s) (env s) (accountId (this s)) (wr_action w)
          = true) as Hk by (by apply own_key_kept).
  split; [by apply (trackAction_realm s)|].
  split; [apply (trackAction_env s)|].
  rewrite trackAction_history, Hk. simpl.
  rewrite durable_history_at_time. f_equal.
  destruct (log_writable e); [|done]. simpl.
  unfold stamps_of. simpl.
  destruct (decide (accountId (wr_tracker w) = id ∧ wr_action w = a))
    as [[<- <-]|Hn].
  - by rewrite bool_decide_eq_true_2.
  - rewrite bool_decide_eq_false_2; [done|]. intros [-> ->]. by apply Hn.
Qed.

Lemma stamps_of_app (id : string) (a : Action) (ws1 ws2 : list Write) :
  stamps_of id a (ws1 ++ ws2) = stamps_of id a ws1 ++ stamps_of id a ws2.
Proof. unfold stamps_of. apply omap_app. Qed.

Lemma run_writes_history (ws : list Write) (rl : Realm) (e : Env)
    (id : string) (a : Action) :
  op_props rl = no_fields ->
  Forall (λ w, own_key (accountId (wr_tracker w)) = true) ws ->
  (run_writes ws (rl, e)).1 = rl
  ∧ log_writable (run_writes ws (rl, e)).2 = log_writable e
  ∧ durable_history (run_writes ws (rl, e)).2 id a
    = durable_history e id a
      ++ (if log_writable e then stamps_of id a ws else []).
Proof.
  intros Hop. unfold run_writes.
  induction ws as [|w ws IH] using rev_ind; intros Hws.
  - simpl. destruct (log_writable e); by rewrite app_nil_r.
  - apply Forall_app in Hws as [Hws Hw].
    apply (Forall_inv (P:=λ w, own_key (accountId (wr_tracker w)) = true))
      in Hw.
    destruct (IH Hws) as (Hrl & Hwr & Hh).
    rewrite foldl_app.
    change (foldl run_write (foldl run_write (rl, e) ws) [w])
      with (run_write (foldl run_write (rl, e) ws) w).
    destruct (foldl run_write (rl, e) ws) as [rl1 e1].
    simpl in Hrl, Hwr, Hh. subst rl1.
    destruct (run_write_spec rl e1 w id a Hop Hw) as (H1 & H2 & H3).
    rewrite H1, H2, H3, Hwr, Hh. split; [done|]. split; [done|].
    rewrite <- app_assoc. f_equal.
    destruct (log_writable e); [|done]. by rewrite stamps_of_app.
Qed.

(** X1.  Calls of [trackAction] made one after the other, by tracker
    objects whose ids are not names of members of [Object.prototype]
    (whatever their in-memory copies of the log) and at any clock values,
    in a process where [Object.prototype] has no arrays of its own: they
    leave on disk, for every account and action, the old history followed by
    the clock values of the calls for that account and action, in the order
    of the calls (so nothing for an account and action that no call names);
    when the file cannot be written, nothing changes.  The built-in objects
    are left as they were. *)
Theorem trackAction_no_lost_update (ws : list Write) (rl : Realm) (e : Env)
    (id : string) (a : Action) :
  op_props rl = no_fields ->
  Forall (λ w, own_key (accountId (wr_tracker w)) = true) ws ->
  durable_history (run_writes ws (rl, e)).2 id a
  = durable_history e id a
    ++ (if log_writable e then stamps_of id a ws else [])
  ∧ (run_writes ws (rl, e)).1 = rl.
Proof.
  intros Hop Hws.
  destruct (run_writes_history ws rl e id a Hop Hws) as (? & _ & ?). done.
Qed.

(** Two trackers of account a1, both created before either call, and one of
    account a2: none of the three records is lost. *)
Lemma trackAction_no_lost_update_witness :
  let t1 := this (Tracker.new "a1" (env_fresh 0)) in
  let t2 := this (Tracker.new "a2" (env_fresh 0)) in
  let ws := [ {| wr_tracker := t1; wr_action := Likes; wr_time := 10 |};
              {| wr_tracker := t2; wr_action := Likes; wr_time := 20 |};
              {| wr_tracker := t1; wr_action := Likes; wr_time := 30 |} ] in
  op_props realm_clean = no_fields
  ∧ Forall (λ w, own_key (accountId (wr_tracker w)) = true) ws
  ∧ durable_history (run_writes ws (realm_clean, env_fresh 0)).2 "a1" Likes
    = [10; 30].
Proof.
  intros t1 t2 ws.
  assert (H1 : op_props realm_clean = no_fields) by reflexivity.
  assert (H2 : Forall (λ w, own_key (accountId (wr_tracker w)) = true) ws)
    by (repeat constructor).
  split; [exact H1|]. split; [exact H2|].
  exact (proj1 (trackAction_no_lost_update ws realm_clean (env_fresh 0)
                  "a1" Likes H1 H2)).
Defined.



(** The records [canPerformAction] counts, and the head of their sorted
    list. *)
Lemma wait_of_blocked (rl : Realm) (e : Env) (id : string) (a : Action)
    (L : Z) :
  1 ≤ L -> (Z.of_nat (recent_count rl e id a) <? L) = false ->
  ∃ h, h ∈ filter (λ t, now e - HOUR < t) (history_of rl e id a)
       ∧ (∀ x, x ∈ filter (λ t, now e - HOUR < t) (history_of rl e id a) ->
               h ≤ x)
       ∧ wait_of rl e id a L = h + HOUR - now e
       ∧ 0 < wait_of rl e id a L.
Proof.
  intros HL Hb. unfold wait_of. unfold recent_count in Hb. rewrite Hb.
  apply Z.ltb_ge in Hb.
  destruct (merge_sort Z.le _) as [|h tl] eqn:Hs.
  - pose proof (merge_sort_Permutation Z.le
      (filter (λ t, now e - HOUR < t) (history_of rl e id a))) as Hp.
    rewrite Hs in Hp. apply Permutation_length in Hp. simpl in Hp. lia.
  - apply head_merge_sort_min in Hs as [Hh Hle].
    exists h. pose proof Hh as Hh'. apply list_elem_of_filter in Hh' as [Hlt _].
    assert ((0 <? h + HOUR - now e) = true) as -> by (apply Z.ltb_lt; lia).
    repeat split; try done. lia.
Qed.

(** X3.  For a limit of at least 1, the wait is 0 exactly when the action
    is available; it is never negative. *)
Theorem wait_zero_iff_available (s : TState) (a : Action) (L : Z) :
  1 ≤ L ->
  0 ≤ (Tracker.getTimeUntilAvailable a L s).1
  ∧ ((Tracker.getTimeUntilAvailable a L s).1 = 0
     ↔ (Tracker.canPerformAction a L s).1 = true).
Proof.
  intros HL. rewrite getTimeUntilAvailable_fst, canPerformAction_fst.
  split; [apply wait_of_nonneg|].
  destruct (Z.of_nat (recent_count _ _ _ a) <? L) eqn:Hb.
  - split; [done|]. intros _. unfold wait_of. unfold recent_count in Hb.
    by rewrite Hb.
  - destruct (wait_of_blocked _ _ _ _ _ HL Hb) as (h & _ & _ & _ & Hpos).
    split; [lia|done].
Qed.

Lemma wait_zero_iff_available_witness :
  1 ≤ 10
  ∧ (Tracker.getTimeUntilAvailable Likes 10 (Tracker.new "a1" env_ten_likes)).1 ≠ 0.
Proof.
  split; [lia|].
  intros H0.
  apply (proj2 (wait_zero_iff_available (Tracker.new "a1" env_ten_likes)
                  Likes 10 ltac:(lia))) in H0.
  vm_compute in H0. discriminate H0.
Defined.

(** X4.  When no record of the account and action is stamped after the clock
    value, the wait is at most one hour. *)
Theorem wait_at_most_one_hour (s : TState) (a : Action) (L : Z) :
  future_count (realm s) (env s) (accountId (this s)) a = 0%nat ->
  0 ≤ (Tracker.getTimeUntilAvailable a L s).1 ≤ HOUR.
Proof.
  intros Hf. rewrite getTimeUntilAvailable_fst.
  split; [apply wait_of_nonneg|].
  unfold wait_of.
  destruct (_ <? L); [unfold HOUR; lia|].
  destruct (merge_sort Z.le _) as [|h tl] eqn:Hs; [unfold HOUR; lia|].
  apply head_merge_sort_min in Hs as [Hh _].
  apply list_elem_of_filter in Hh as [Hlt Hin].
  assert (h ≤ now (env s)).
  { destruct (decide (now (env s) < h)) as [Hfut|]; [|lia].
    unfold future_count in Hf.
    assert (h ∈ filter (λ t, now (env s) < t)
                   (history_of (realm s) (env s) (accountId (this s)) a)) as Hm
      by (by apply list_elem_of_filter).
    destruct (filter _ _); [by apply elem_of_nil in Hm|done]. }
  destruct (0 <? h + HOUR - now (env s)); lia.
Qed.

Lemma wait_at_most_one_hour_witness :
  future_count realm_clean env_ten_likes "a1" Likes = 0%nat
  ∧ 0 ≤ (Tracker.getTimeUntilAvailable Likes 10 (Tracker.new "a1" env_ten_likes)).1
      ≤ HOUR.
Proof.
  assert (Hf : future_count realm_clean env_ten_likes "a1" Likes = 0%nat)
    by (vm_compute; reflexivity).
  split; [exact Hf|].
  exact (wait_at_most_one_hour (Tracker.new "a1" env_ten_likes) Likes 10 Hf).
Defined.

(** X5.  The wait is exact.  When the records counted for the account and
    action are as many as the limit, and nothing is recorded meanwhile, the
    action stays unavailable at every clock value before [now + wait] and is
    available at [now + wait]. *)
Theorem wait_is_exact (s : TState) (a : Action) (L : Z) :
  let w := (Tracker.getTimeUntilAvailable a L s).1 in
  1 ≤ L ->
  Z.of_nat (recent_count (realm s) (env s) (accountId (this s)) a) = L ->
  0 < w
  ∧ (∀ r, now (env s) ≤ r < now (env s) + w ->
       (Tracker.canPerformAction a L (state_at r s)).1 = false)
  ∧ (Tracker.canPerformAction a L (state_at (now (env s) + w) s)).1 = true.
Proof.
  intros w HL Hc. subst w. rewrite getTimeUntilAvailable_fst.
  assert ((Z.of_nat (recent_count (realm s) (env s) (accountId (this s)) a) <? L) = false)
    as Hb by (apply Z.ltb_ge; lia).
  destruct (wait_of_blocked _ _ _ _ _ HL Hb) as (h & Hh & Hmin & -> & Hpos).
  split; [done|]. split.
  - intros r Hr. rewrite canPerformAction_fst. simpl.
    apply Z.ltb_ge. rewrite <- Hc. apply Nat2Z.inj_le.
    unfold recent_count. rewrite history_of_at_time. simpl.
    rewrite (filter_ext_in (λ t, r - HOUR < t) (λ t, now (env s) - HOUR < t));
      [done|].
    intros x Hx. split; [lia|]. intros Hlt.
    assert (h ≤ x) by (apply Hmin; by apply list_elem_of_filter). lia.
  - rewrite canPerformAction_fst. simpl. apply Z.ltb_lt. rewrite <- Hc.
    apply Nat2Z.inj_lt.
    unfold recent_count. rewrite history_of_at_time. simpl.
    rewrite <- (list_filter_filter_l (λ t, now (env s) + (h + HOUR - now (env s)) - HOUR < t)
                  (λ t, now (env s) - HOUR < t)).
    + apply (length_filter_lt _ _ h); [done|lia].
    + intros x Hx. apply list_elem_of_filter in Hh as [Hh _]. lia.
Qed.

Lemma wait_is_exact_witness :
  1 ≤ 10
  ∧ Z.of_nat (recent_count realm_clean env_ten_likes "a1" Likes) = 10
  ∧ (Tracker.canPerformAction Likes 10
       (state_at (10000000 + 5 * MINUTE - 1) (Tracker.new "a1" env_ten_likes))).1
    = false
  ∧ (Tracker.canPerformAction Likes 10
       (state_at (10000000 + 5 * MINUTE) (Tracker.new "a1" env_ten_likes))).1
    = true.
Proof.
  assert (Hc : Z.of_nat (recent_count realm_clean env_ten_likes "a1" Likes)
               = 10) by (vm_compute; reflexivity).
  pose proof (wait_is_exact (Tracker.new "a1" env_ten_likes) Likes 10
                ltac:(lia) Hc) as (_ & Hbefore & Hat).
  assert (Hw : (Tracker.getTimeUntilAvailable Likes 10
                  (Tracker.new "a1" env_ten_likes)).1 = 5 * MINUTE)
    by (vm_compute; reflexivity).
  split; [lia|]. split; [exact Hc|]. split.
  - apply Hbefore. rewrite Hw. simpl. unfold MINUTE. lia.
  - rewrite Hw in Hat. exact Hat.
Defined.

(** X6.  While nothing is recorded, an action that is available stays
    available as the clock advances, and under any larger limit. *)
Theorem availability_monotone (s : TState) (a : Action) (L L' r : Z) :
  now (env s) ≤ r -> L ≤ L' ->
  (Tracker.canPerformAction a L s).1 = true ->
  (Tracker.canPerformAction a L' (state_at r s)).1 = true.
Proof.
  intros Hr HL. rewrite !canPerformAction_fst. simpl.
  rewrite !Z.ltb_lt. intros Hlt.
  assert (recent_count (realm s) (at_time r (env s)) (accountId (this s)) a
          ≤ recent_count (realm s) (env s) (accountId (this s)) a)%nat; [|lia].
  unfold recent_count. rewrite history_of_at_time. simpl.
  rewrite <- (list_filter_filter_l (λ t, r - HOUR < t)
                (λ t, now (env s) - HOUR < t)) by (intros x; lia).
  apply length_filter.
Qed.

Lemma availability_monotone_witness :
  now (env (Tracker.new "a1" env_ten_likes)) ≤ 10000000 + HOUR
  ∧ 11 ≤ 12
  ∧ (Tracker.canPerformAction Likes 12
       (state_at (10000000 + HOUR) (Tracker.new "a1" env_ten_likes))).1 = true.
Proof.
  assert (H1 : now (env (Tracker.new "a1" env_ten_likes)) ≤ 10000000 + HOUR)
    by (vm_compute; discriminate).
  split; [exact H1|]. split; [lia|].
  apply (availability_monotone (Tracker.new "a1" env_ten_likes) Likes 11 12
           (10000000 + HOUR) H1 ltac:(lia)).
  vm_compute. reflexivity.
Defined.
(** *** More on the gate *)

(** X7.  The gate wastes no slot: in every state it can reach, the number
    of running tasks is the smaller of the limit (0 for a negative limit) and
    the number of tasks submitted and not yet settled. *)
Theorem pLimit_work_conserving (N : Z) (evs : list PLimit.Event) (g : Gate) :
  PLimit.exec evs (PLimit.pLimit N) = Some g ->
  Z.of_nat (length (running g))
  = Z.min (Z.max 0 N)
          (Z.of_nat (length (submitted g)) - Z.of_nat (length (settled g))).
Proof.
  intros Hexec.
  pose proof (gate_inv_exec _ _ _ (gate_inv_pLimit N) Hexec)
    as (Hac & Hsub & Hst & Hnd & Hq & Hmax).
  pose proof (exec_concurrency _ _ _ Hexec) as Hc. simpl in Hc.
  rewrite Hc in Hmax, Hq.
  assert (Z.of_nat (length (submitted g)) - Z.of_nat (length (settled g))
          = Z.of_nat (length (running g)) + Z.of_nat (length (queue g))) as ->.
  { rewrite Hsub, length_app, Hst, length_app, length_fmap. lia. }
  destruct (queue g) as [|q rest] eqn:Eq; simpl length.
  - lia.
  - assert (N ≤ activeCount g) by (by apply Hq). lia.
Qed.

Lemma pLimit_work_conserving_witness :
  ∃ g, PLimit.exec [PLimit.Enqueue 0%nat; PLimit.Enqueue 1%nat;
                    PLimit.Enqueue 2%nat; PLimit.Settle 0%nat (Rejected "boom")]
         (PLimit.pLimit 2) = Some g
       ∧ Z.of_nat (length (running g)) = 2.
Proof.
  eexists. split; [vm_compute; reflexivity|].
  refine (eq_trans
            (pLimit_work_conserving 2
               [PLimit.Enqueue 0%nat; PLimit.Enqueue 1%nat;
                PLimit.Enqueue 2%nat; PLimit.Settle 0%nat (Rejected "boom")]
               _ ltac:(vm_compute; reflexivity)) eq_refl).
Defined.

Lemma serial_inv_step (g g' : Gate) (ev : PLimit.Event) :
  serial_inv g -> PLimit.step g ev = Some g' -> serial_inv g'.
Proof.
  intros (Hinv & Hc & Hord) Hstep.
  pose proof (gate_inv_step _ _ _ Hinv Hstep) as Hinv'.
  pose proof (step_concurrency _ _ _ Hstep) as Hc'.
  split; [done|]. split; [congruence|].
  destruct Hinv as (Hac & Hsub & Hst & Hnd & Hq & Hmax).
  rewrite Hc in Hmax.
  destruct ev as [id|id o]; simpl in Hstep; case_decide; try done;
    injection Hstep as <-.
  - unfold PLimit.enqueue. simpl. rewrite Hc.
    destruct (activeCount g <? 1) eqn:Hlt; simpl; [|done].
    rewrite Hord. by rewrite <- app_assoc.
  - assert (running g = [id]) as Hr.
    { destruct (running g) as [|x [|y l]] eqn:Er; simpl in Hac.
      - by apply elem_of_nil in H.
      - by apply list_elem_of_singleton in H as ->.
      - lia. }
    unfold PLimit.run_settled, PLimit.next. simpl. rewrite Hr.
    rewrite filter_cons_False by (intros Hne; by apply Hne).
    rewrite filter_nil.
    destruct (queue g) as [|n rest]; simpl; rewrite Hord, Hr, fmap_app; simpl.
    + by rewrite app_nil_r.
    + done.
Qed.

Lemma serial_inv_exec (evs : list PLimit.Event) (g g' : Gate) :
  serial_inv g -> PLimit.exec evs g = Some g' -> serial_inv g'.
Proof.
  induction evs as [|ev evs IH] in g |- *; simpl.
  - by intros ? [= <-].
  - intros Hinv. destruct (PLimit.step g ev) as [g1|] eqn:Hs; [|done].
    apply IH. by eapply serial_inv_step.
Qed.

(** X8.  With the limit 1 the tasks run one at a time and in the order of
    their submission: the tasks settled so far, in the order they settled,
    then the running one, if any, then the queue, make up the list of the
    submissions. *)
Theorem pLimit_one_serial (evs : list PLimit.Event) (g : Gate) :
  PLimit.exec evs (PLimit.pLimit 1) = Some g ->
  (settled g).*1 ++ running g ++ queue g = submitted g
  ∧ (length (running g) ≤ 1)%nat.
Proof.
  intros Hexec.
  assert (serial_inv (PLimit.pLimit 1)) as H0.
  { split; [apply gate_inv_pLimit|]. done. }
  pose proof (serial_inv_exec _ _ _ H0 Hexec)
    as ((Hac & Hsub & Hst & Hnd & Hq & Hmax) & Hc & Hord).
  split.
  - by rewrite Hsub, Hord, app_assoc.
  - rewrite Hc in Hmax. lia.
Qed.

Lemma pLimit_one_serial_witness :
  ∃ g, PLimit.exec [PLimit.Enqueue 7%nat; PLimit.Enqueue 3%nat;
                    PLimit.Enqueue 5%nat; PLimit.Settle 7%nat (Fulfilled 0);
                    PLimit.Settle 3%nat (Rejected "boom")]
         (PLimit.pLimit 1) = Some g
       ∧ (settled g).*1 ++ running g ++ queue g = [7%nat; 3%nat; 5%nat].
Proof.
  eexists. split; [vm_compute; reflexivity|].
  refine (eq_trans
            (proj1 (pLimit_one_serial
                      [PLimit.Enqueue 7%nat; PLimit.Enqueue 3%nat;
                       PLimit.Enqueue 5%nat; PLimit.Settle 7%nat (Fulfilled 0);
                       PLimit.Settle 3%nat (Rejected "boom")]
                      _ ltac:(vm_compute; reflexivity))) eq_refl).
Defined.

(** *** [runInstagram] *)

Lemma enqueue_all_seq (c : Z) (k : nat) :
  let n := Nat.min (Z.to_nat c) k in
  enqueue_all (seq 0 k) (PLimit.pLimit c)
  = {| concurrency := c;
       queue := seq n (k - n);
       activeCount := Z.of_nat n;
       running := seq 0 n;
       settled := [];
       started := seq 0 n;
       submitted := seq 0 k |}.
Proof.
  intros n. subst n. unfold enqueue_all. induction k as [|k IH].
  - simpl. rewrite Nat.min_0_r. done.
  - rewrite seq_S, foldl_app. simpl in *. rewrite IH.
    unfold PLimit.enqueue. simpl.
    destruct (decide (k < Z.to_nat c)%nat) as [Hlt|Hge].
    + rewrite (Nat.min_r _ k), (Nat.min_r _ (S k)) by lia.
      assert ((Z.of_nat k <? c) = true) as -> by (apply Z.ltb_lt; lia).
      unfold PLimit.run. simpl.
      rewrite !Nat.sub_diag. simpl.
      f_equal; try lia; symmetry; apply (seq_S k 0).
    + rewrite (Nat.min_l _ k), (Nat.min_l _ (S k)) by lia.
      assert ((Z.of_nat (Z.to_nat c) <? c) = false) as ->
        by (apply Z.ltb_ge; lia).
      f_equal.
      replace (S k - Z.to_nat c)%nat with (S (k - Z.to_nat c)) by lia.
      rewrite (seq_S (k - Z.to_nat c)). do 2 f_equal. lia.
Qed.

(** X9.  [runInstagram] hands the gate one task for each enabled account of
    accounts.json, in the order of the file, and none for the others; the
    first N of them (N the limit read from MAX_CONCURRENT_SESSIONS, 5 when it
    is unset or empty, 0 when it is not a number or negative) are started at
    once and the rest are queued in order.  When no account is enabled it
    returns before anything is set up. *)
Theorem runInstagram_first_N (p : Proc) (accounts : list AccountEntry) :
  let enabledAccounts := filter (λ a, ae_enabled a = true) accounts in
  let n := length enabledAccounts in
  let N := Z.to_nat (default 0
             (parseInt10 p (default "5"%string
                (js_or (getenv p "MAX_CONCURRENT_SESSIONS") None)))) in
  match runInstagram p accounts with
  | None => enabledAccounts = []
  | Some sub =>
      enabledAccounts ≠ []
      ∧ tasks sub = map ae_account enabledAccounts
      ∧ submitted (gate sub) = seq 0 n
      ∧ running (gate sub) = seq 0 (Nat.min N n)
      ∧ started (gate sub) = seq 0 (Nat.min N n)
      ∧ queue (gate sub) = seq (Nat.min N n) (n - Nat.min N n)
      ∧ settled (gate sub) = []
  end.
Proof.
  intros enabledAccounts n N. unfold runInstagram.
  fold enabledAccounts. fold n.
  destruct (Z.of_nat n =? 0) eqn:Hn.
  - apply Z.eqb_eq in Hn. subst n. by destruct enabledAccounts.
  - apply Z.eqb_neq in Hn. simpl.
    rewrite enqueue_all_seq. simpl. fold N.
    split; [|done]. intros E. subst n. rewrite E in Hn. done.
Qed.
(** *** More on [init] *)

(** The launch loop, whatever the client it starts from: it ends with an
    open browser and page exactly when one of the launches left succeeds,
    and with no browser and the error of the last launch otherwise. *)
Lemma launch_loop_outcome (sys : Sys) (o : InitOracle) (fuel : nat)
    (attempt : Z) (c : IgClient) :
  0 ≤ attempt < Client.maxAttempts ->
  (Z.to_nat (Client.maxAttempts - attempt) ≤ fuel)%nat ->
  ∃ r c1 evs,
    Client.launch_loop sys o fuel attempt c = Some (r, c1, evs)
    ∧ userDataDir c1 = userDataDir c
    ∧ ((r = Ok tt ∧ browser c1 = Some true ∧ page c1 = true
        ∧ ∃ k, attempt ≤ k < Client.maxAttempts ∧ launch_result o k = LaunchOk)
       ∨ ((∃ err, r = Throw err) ∧ browser c1 = None
          ∧ ∀ k, attempt ≤ k < Client.maxAttempts ->
                 launch_result o k ≠ LaunchOk)).
Proof.
  induction fuel as [|fuel IH] in attempt, c |- *; intros Hat Hfuel.
  { unfold Client.maxAttempts in *. lia. }
  simpl.
  replace (attempt <? Client.maxAttempts) with true
    by (symmetry; apply Z.ltb_lt; lia).
  destruct (launch_result o attempt) as [|err|err] eqn:Hr.
  - eexists _, _, _. split; [reflexivity|]. split; [done|]. left.
    repeat split; try done. exists attempt. split; [lia|done].
  - destruct (Z.leb_spec Client.maxAttempts (attempt + 1)) as [Hlast|Hmore].
    + eexists _, _, _. split; [reflexivity|]. split; [done|]. right.
      split; [by eexists|]. split; [done|].
      intros k Hk. assert (k = attempt) as -> by lia. by rewrite Hr.
    + match goal with
      | |- context [Client.launch_loop sys o fuel (attempt + 1) ?c1] =>
          destruct (IH (attempt + 1) c1)
            as (r & c2 & evs & -> & Hd & Hcases);
            [unfold Client.maxAttempts in *; lia
            |unfold Client.maxAttempts in *; lia|]
      end.
      eexists _, _, _. split; [reflexivity|]. split; [done|].
      destruct Hcases as [(-> & Hb & Hp & k & Hk & Hok)|(Herr & Hb & Hall)].
      * left. repeat split; try done. exists k. split; [lia|done].
      * right. split; [done|]. split; [done|].
        intros k Hk. destruct (decide (k = attempt)) as [->|Hne].
        -- by rewrite Hr.
        -- apply Hall. lia.
  - destruct (Z.leb_spec Client.maxAttempts (attempt + 1)) as [Hlast|Hmore].
    + eexists _, _, _. split; [reflexivity|]. split; [done|]. right.
      split; [by eexists|]. split; [done|].
      intros k Hk. assert (k = attempt) as -> by lia. by rewrite Hr.
    + match goal with
      | |- context [Client.launch_loop sys o fuel (attempt + 1) ?c1] =>
          destruct (IH (attempt + 1) c1)
            as (r & c2 & evs & -> & Hd & Hcases);
            [unfold Client.maxAttempts in *; lia
            |unfold Client.maxAttempts in *; lia|]
      end.
      eexists _, _, _. split; [reflexivity|]. split; [done|].
      destruct Hcases as [(-> & Hb & Hp & k & Hk & Hok)|(Herr & Hb & Hall)].
      * left. repeat split; try done. exists k. split; [lia|done].
      * right. split; [done|]. split; [done|].
        intros k Hk. destruct (decide (k = attempt)) as [->|Hne].
        -- by rewrite Hr.
        -- apply Hall. lia.
Qed.

Lemma init_outcome_aux (sys : Sys) (o : InitOracle) (c : IgClient) :
  Client.isConnected c = false ->
  ∃ r c1 evs,
    Client.init sys o c = Some (r, c1, evs)
    ∧ userDataDir c1 = userDataDir c
    ∧ (Client.isConnected c1 = true
       ↔ ∃ k, 0 ≤ k < Client.maxAttempts ∧ launch_result o k = LaunchOk)
    ∧ (r = Ok tt
       ↔ (∃ k, 0 ≤ k < Client.maxAttempts ∧ launch_result o k = LaunchOk)
         ∧ post_launch o = None)
    ∧ (Client.isConnected c1 = true -> ∀ err, post_launch o = Some err ->
       r = Throw err).
Proof.
  intros Hc. unfold Client.init. rewrite Hc.
  destruct (launch_loop_outcome sys o (Z.to_nat Client.maxAttempts) 0 c)
    as (r & c1 & evs & -> & Hd & Hcases);
    [unfold Client.maxAttempts; lia|unfold Client.maxAttempts; lia|].
  destruct Hcases as [(-> & Hb & Hp & Hk)|([err ->] & Hb & Hall)].
  - rewrite Hb, Hp.
    assert (Client.isConnected c1 = true) as Hconn
      by (unfold Client.isConnected; by rewrite Hb).
    destruct (post_launch o) as [err|] eqn:Hpost.
    + eexists _, _, _. split; [reflexivity|]. split; [done|].
      split; [done|]. split; [|by intros _ ? [= <-]].
      split; [done|]. by intros [_ ?].
    + eexists _, _, _. split; [reflexivity|]. split; [done|].
      split; [done|]. split; [done|]. done.
  - assert (Client.isConnected c1 = false) as Hconn
      by (unfold Client.isConnected; by rewrite Hb).
    eexists _, _, _. split; [reflexivity|]. split; [done|].
    rewrite Hconn. split; [|split].
    + split; [done|]. intros (k & Hk & Hok). exfalso. by apply (Hall k).
    + split; [done|]. intros [(k & Hk & Hok) _]. exfalso. by apply (Hall k).
    + done.
Qed.

(** X10.  [init] on a client that is not connected always returns.  It
    leaves the client connected exactly when one of the five launches
    succeeds, and it returns normally exactly when, in addition, the steps
    after the launch (proxy, user agent, login) succeed. *)
Theorem init_outcome (sys : Sys) (o : InitOracle) (c : IgClient) :
  Client.isConnected c = false ->
  ∃ r c1 evs,
    Client.init sys o c = Some (r, c1, evs)
    ∧ userDataDir c1 = userDataDir c
    ∧ (Client.isConnected c1 = true
       ↔ ∃ k, 0 ≤ k < Client.maxAttempts ∧ launch_result o k = LaunchOk)
    ∧ (r = Ok tt
       ↔ (∃ k, 0 ≤ k < Client.maxAttempts ∧ launch_result o k = LaunchOk)
         ∧ post_launch o = None).
Proof.
  intros Hc.
  destruct (init_outcome_aux sys o c Hc) as (r & c1 & evs & H1 & H2 & H3 & H4 & _).
  by exists r, c1, evs.
Qed.

Lemma init_outcome_witness :
  Client.isConnected lost_client = false
  ∧ ∃ c1 evs, Client.init (sys_linux (Some 5)) init_second_ok lost_client
              = Some (Ok tt, c1, evs)
              ∧ Client.isConnected c1 = true.
Proof.
  split; [reflexivity|].
  destruct (init_outcome (sys_linux (Some 5)) init_second_ok lost_client eq_refl)
    as (r & c1 & evs & Hinit & _ & Hconn & Hok).
  assert (Hk : ∃ k, 0 ≤ k < Client.maxAttempts
                    ∧ launch_result init_second_ok k = LaunchOk).
  { exists 1. split; [unfold Client.maxAttempts; lia|reflexivity]. }
  exists c1, evs. split.
  - rewrite Hinit. by rewrite (proj2 Hok (conj Hk eq_refl)).
  - by apply Hconn.
Defined.

(** X11.  When a launch succeeds and a step after it fails, [init] throws
    and leaves the browser open and connected; the next [init] on that client
    then returns at once, with no launch and without repeating the failed
    steps, whatever they would do this time. *)
Theorem init_after_failed_login (sys : Sys) (o o' : InitOracle) (c : IgClient)
    (k : Z) (err : string) :
  Client.isConnected c = false ->
  0 ≤ k < Client.maxAttempts -> launch_result o k = LaunchOk ->
  post_launch o = Some err ->
  ∃ c1 evs,
    Client.init sys o c = Some (Throw err, c1, evs)
    ∧ Client.isConnected c1 = true
    ∧ Client.init sys o' c1 = Some (Ok tt, c1, []).
Proof.
  intros Hc Hk Hok Hpost.
  destruct (init_outcome_aux sys o c Hc)
    as (r & c1 & evs & Hinit & _ & Hconn & _ & Herr).
  assert (Client.isConnected c1 = true) as Hc1 by (apply Hconn; eauto).
  exists c1, evs. split; [|split; [done|]].
  - by rewrite Hinit, (Herr Hc1 err Hpost).
  - unfold Client.init. by rewrite Hc1.
Qed.

Lemma init_after_failed_login_witness :
  Client.isConnected (Client.new (Some "a1"%string)) = false
  ∧ 0 ≤ 0 < Client.maxAttempts
  ∧ ∃ c1 evs,
      Client.init (sys_linux (Some 5)) init_login_fails
        (Client.new (Some "a1"%string))
      = Some (Throw "Login failed"%string, c1, evs)
      ∧ Client.init (sys_linux (Some 5)) init_login_fails c1
        = Some (Ok tt, c1, []).
Proof.
  split; [reflexivity|]. split; [unfold Client.maxAttempts; lia|].
  destruct (init_after_failed_login (sys_linux (Some 5)) init_login_fails
              init_login_fails (Client.new (Some "a1"%string)) 0
              "Login failed"%string eq_refl
              ltac:(unfold Client.maxAttempts; lia) eq_refl eq_refl)
    as (c1 & evs & H1 & _ & H2).
  by exists c1, evs.
Defined.
(** *** More on the end-of-cycle close *)

Lemma limitsReached_iff (b : Behavior) (x y : Z) :
  Scheduler.limitsReached b x y = true
  ↔ (not_false (enableLikes b) = true ∨ not_false (enableComments b) = true)
    ∧ (not_false (enableLikes b) = true -> 0 < x)
    ∧ (not_false (enableComments b) = true -> 0 < y).
Proof.
  unfold Scheduler.limitsReached.
  destruct (Z.ltb_spec 0 x), (Z.ltb_spec 0 y),
    (enableLikes b) as [[]|], (enableComments b) as [[]|]; simpl;
    (split; [intros Hr; try done;
             (split; [first [by left|by right]
                     |split; intros; first [done|lia]])
            |intros (Hor & HL & HC); try done;
             try (specialize (HL eq_refl)); try (specialize (HC eq_refl));
             try lia; by destruct Hor]).
Qed.

Lemma close_and_forget_ok (account : Account) (igClient : nat) (w : World) :
  ((App.client_close igClient ;; App.sessions_delete (id account) ;;
    aret true)%am w).1 = Ok true.
Proof.
  app_unfold. simpl. by destruct (Client.close (App.client_at w igClient)).
Qed.

(** X12.  The end-of-cycle rule, exactly.  The [finally] block closes the
    session if and only if the registry has reached the ceiling, likes or
    comments are enabled, and each of likes and comments that is enabled has
    a wait above 0.  Direct messages play no part; an account with neither
    likes nor comments enabled is never closed here. *)
Theorem smartClose_iff (sys : Sys) (account : Account) (b : Behavior)
    (l : Limits) (t : ActivityTracker) (igClient : nat) (w : World) :
  (Scheduler.smartClose sys account b l t igClient w).1 = Ok true
  ↔ (∃ m, maxSessions sys = Some m ∧ m ≤ Z.of_nat (size (activeSessions w)))
    ∧ (enabled b Likes = true ∨ enabled b Comments = true)
    ∧ ∀ a, a ≠ DMs -> enabled b a = true ->
           0 < wait_of (w_realm w) (w_env w) (accountId t) a (limit_of l a).
Proof.
  rewrite smartClose_spec.
  assert (Hsize : Scheduler.size_ge (Z.of_nat (size (activeSessions w)))
                    (maxSessions sys) = true
                  ↔ ∃ m, maxSessions sys = Some m
                         ∧ m ≤ Z.of_nat (size (activeSessions w))).
  { unfold Scheduler.size_ge. destruct (maxSessions sys) as [m|].
    - rewrite Z.leb_le. split; [by exists m|by intros (? & [= <-] & ?)].
    - split; [done|by intros (? & ? & _)]. }
  destruct (Scheduler.limitsReached _ _ _ && _) eqn:E.
  - rewrite close_and_forget_ok. split; [intros _|done].
    apply andb_prop in E as [Hlim Hs]. apply limitsReached_iff in Hlim
      as (Hor & HL & HC).
    split; [by apply Hsize|]. split; [done|].
    intros a Ha Hen. destruct a; [| |done]; cbn [enabled] in Hen.
    + specialize (HL Hen). by rewrite Hen in HL.
    + specialize (HC Hen). by rewrite Hen in HC.
  - simpl. split; [done|]. intros (Hm & Hor & Hall).
    apply Hsize in Hm. rewrite Hm, andb_true_r in E.
    assert (Scheduler.limitsReached b
              (if not_false (enableLikes b)
               then wait_of (w_realm w) (w_env w) (accountId t) Likes
                      (limit_of l Likes)
               else 0)
              (if not_false (enableComments b)
               then wait_of (w_realm w) (w_env w) (accountId t) Comments
                      (limit_of l Comments)
               else 0) = true) as Ht; [|by rewrite Ht in E].
    apply limitsReached_iff. split; [done|]. split; intros Hen; rewrite Hen.
    + by apply Hall.
    + by apply Hall.
Qed.
(** *** [chooseCharacter] *)

Lemma merge_char_limits_frame (cd : CharData) (b : BaseConfig) :
  bc_focusOn (merge_char_limits cd b) = bc_focusOn b
  ∧ bc_topics (merge_char_limits cd b) = bc_topics b
  ∧ bc_behavior (merge_char_limits cd b) = bc_behavior b.
Proof. unfold merge_char_limits. by destruct (cd_limits cd). Qed.

Lemma merge_character_focusOn (cd : CharData) (b : BaseConfig)
    (f : option (list string)) (extra : list string) :
  extraKnowledge cd = Some extra -> bc_focusOn b = Some f ->
  bc_focusOn (merge_character cd b) = Some (Some (default [] f ++ extra)).
Proof.
  intros He Hf. unfold merge_character. rewrite He.
  destruct (cd_behavior cd) as [cb|]; simpl; rewrite Hf; simpl;
    destruct (cd_topics cd) as [|items|s|], (bc_topics b) as [t|]; simpl;
    try (by destruct (merge_char_limits_frame cd
                        (set_focusOn (default [] f ++ extra) b)) as [-> _]);
    unfold merge_char_limits; by destruct (cd_limits cd).
Qed.

Lemma choose_all_app (files : string -> CharFile)
    (l1 l2 : list (option string)) (m : ModuleExport) :
  choose_all files (l1 ++ l2) m = choose_all files l2 (choose_all files l1 m).
Proof. unfold choose_all. apply foldl_app. Qed.

Lemma chooseCharacter_merges (files : string -> CharFile) (name : string)
    (cd : CharData) (cfg : BaseConfig) :
  no_character_file (Some name) = false ->
  files name = FileParsed cd ->
  chooseCharacter files (Some name) (Exported cfg)
  = (RShared, Exported (merge_character cd cfg)).
Proof.
  intros Hname Hfile. unfold chooseCharacter. rewrite Hname. simpl.
  by rewrite Hfile.
Qed.

Lemma choose_all_same (files : string -> CharFile) (name : string)
    (cd : CharData) (extra : list string) (k : nat) (cfg : BaseConfig)
    (f : option (list string)) :
  no_character_file (Some name) = false ->
  files name = FileParsed cd ->
  extraKnowledge cd = Some extra ->
  bc_focusOn cfg = Some f ->
  ∃ cfg',
    choose_all files (replicate k (Some name)) (Exported cfg) = Exported cfg'
    ∧ bc_focusOn cfg'
      = match k with
        | O => Some f
        | S _ => Some (Some (default [] f ++ concat (replicate k extra)))
        end.
Proof.
  intros Hname Hfile He.
  induction k as [|k IH] in cfg, f |- *; intros Hf.
  - by exists cfg.
  - destruct (IH (merge_character cd cfg) (Some (default [] f ++ extra)))
      as (cfg' & Hc & Hfc).
    { by apply merge_character_focusOn. }
    exists cfg'. split.
    + rewrite <- Hc.
      change (replicate (S k) (Some name))
        with (Some name :: replicate k (Some name)).
      change (choose_all files (Some name :: replicate k (Some name))
                (Exported cfg))
        with (choose_all files (replicate k (Some name))
                (chooseCharacter files (Some name) (Exported cfg)).2).
      by rewrite (chooseCharacter_merges files name cd cfg Hname Hfile).
    + rewrite Hfc. destruct k as [|k]; simpl.
      * by rewrite app_nil_r.
      * by rewrite <- app_assoc.
Qed.

(** X13.  The configuration exported by config/adrian-style is one object
    that every call writes to: each call of [chooseCharacter] for a character
    file appends the file's biography, lore and knowledge to [focusOn] once
    more.  After k + 1 calls for the same file, [focusOn] is what it was at
    first followed by k + 1 copies of them. *)
Theorem chooseCharacter_accumulates (files : string -> CharFile)
    (name : string) (cd : CharData) (cfg : BaseConfig)
    (f : option (list string)) (extra : list string) (k : nat) :
  no_character_file (Some name) = false ->
  files name = FileParsed cd ->
  extraKnowledge cd = Some extra ->
  bc_focusOn cfg = Some f ->
  ∃ cfg',
    choose_all files (replicate (S k) (Some name)) (Exported cfg)
    = Exported cfg'
    ∧ bc_focusOn cfg'
      = Some (Some (default [] f ++ concat (replicate (S k) extra))).
Proof.
  intros Hname Hfile He Hf.
  exact (choose_all_same files name cd extra (S k) cfg f Hname Hfile He Hf).
Qed.

(** Two cycles over an account whose character is alice.json: her three
    entries are in [focusOn] twice. *)
Lemma chooseCharacter_accumulates_witness :
  no_character_file (Some "alice.json"%string) = false
  ∧ character_files "alice.json" = FileParsed char_alice
  ∧ ∃ cfg',
      choose_all character_files
        [Some "alice.json"%string; Some "alice.json"%string]
        (Exported base_style) = Exported cfg'
      ∧ bc_focusOn cfg'
        = Some (Some ["family"; "Bio: gardener"; "Knowledge: roses";
                      "Knowledge: tulips"; "Bio: gardener";
                      "Knowledge: roses"; "Knowledge: tulips"]%string).
Proof.
  split; [reflexivity|]. split; [reflexivity|].
  destruct (chooseCharacter_accumulates character_files "alice.json"
              char_alice base_style (Some ["family"%string])
              ["Bio: gardener"; "Knowledge: roses"; "Knowledge: tulips"]%string
              1 eq_refl eq_refl eq_refl eq_refl) as (cfg' & H1 & H2).
  exists cfg'. split; [exact H1|exact H2].
Defined.

Lemma merge_character_limits (cd : CharData) (b : BaseConfig) (cl : Limits) :
  merge_completes cd b = true -> cd_limits cd = Some cl ->
  bc_limits (merge_character cd b)
  = Some (merge_limits (default no_limits (bc_limits b)) cl).
Proof.
  unfold merge_completes, merge_character. intros Hc Hl.
  destruct (extraKnowledge cd) as [extra|]; [|done].
  destruct (cd_behavior cd) as [cb|]; simpl;
    destruct (bc_focusOn b) as [f|]; simpl;
    destruct (cd_topics cd) as [|items|s|], (bc_topics b) as [t|];
    simpl in *; try done; unfold merge_char_limits; rewrite Hl; reflexivity.
Qed.

(** X14.  Settings leak from one account to the next.  After
    [chooseCharacter] has merged a character file that sets limits, a call
    without a character file returns the same object: the limits
    [processAccount] then reads for an account that names no character are
    the exported ones overridden by that file's. *)
Theorem chooseCharacter_settings_leak (files : string -> CharFile)
    (name : string) (cd : CharData) (cfg : BaseConfig) (cl : Limits) :
  no_character_file (Some name) = false ->
  files name = FileParsed cd ->
  merge_completes cd cfg = true ->
  cd_limits cd = Some cl ->
  let first := chooseCharacter files (Some name) (Exported cfg) in
  let second := chooseCharacter files None first.2 in
  first.1 = RShared ∧ second.1 = RShared ∧ second.2 = first.2
  ∧ c_limits (character_of (deref second.1 second.2))
    = Some (merge_limits (default no_limits (bc_limits cfg)) cl).
Proof.
  intros Hname Hfile Hc Hl first second. subst first second.
  rewrite (chooseCharacter_merges files name cd cfg Hname Hfile). simpl.
  repeat split. by apply merge_character_limits.
Qed.

(** After a cycle for the account of alice.json, an account without a
    character gets her limit of 3 likes per hour. *)
Lemma chooseCharacter_settings_leak_witness :
  no_character_file (Some "alice.json"%string) = false
  ∧ character_files "alice.json" = FileParsed char_alice
  ∧ merge_completes char_alice base_style = true
  ∧ likesPerHour
      (limits_of
         (character_of
            (deref (chooseCharacter character_files None
                      (chooseCharacter character_files
                         (Some "alice.json"%string) (Exported base_style)).2).1
               (chooseCharacter character_files None
                  (chooseCharacter character_files
                     (Some "alice.json"%string) (Exported base_style)).2).2))
         account_plain)
    = Some 3.
Proof.
  split; [reflexivity|]. split; [reflexivity|]. split; [reflexivity|].
  destruct (chooseCharacter_settings_leak character_files "alice.json"
              char_alice base_style _ eq_refl eq_refl eq_refl eq_refl)
    as (_ & _ & _ & H).
  unfold limits_of. rewrite H. reflexivity.
Defined.
(** *** The quota in [interactWithPosts] *)

Lemma recent_count_later (rl : Realm) (e : Env) (r : Z) (id : string)
    (a : Action) :
  now e ≤ r ->
  (recent_count rl (at_time r e) id a ≤ recent_count rl e id a)%nat.
Proof.
  intros Hr. unfold recent_count. rewrite history_of_at_time. simpl.
  rewrite <- (list_filter_filter_l (λ t, r - HOUR < t)
                (λ t, now e - HOUR < t)) by (intros x; lia).
  apply length_filter.
Qed.

Lemma Likes_not_DMs : Likes ≠ DMs.
Proof. done. Qed.

Lemma Comments_not_DMs : Comments ≠ DMs.
Proof. done. Qed.

Section PostsQuota.
Variable id : string.
Variables BL BC : nat.

Local Abbreviation prel := (posts_rel id BL BC).

Lemma posts_frame_refl (w : World) : posts_frame id w w.
Proof.
  unfold posts_frame. repeat split; try done; try lia.
  intros a. exists []. split; [by rewrite app_nil_r|].
  intros x Hx. by apply elem_of_nil in Hx.
Qed.

Lemma posts_frame_trans (w1 w2 w3 : World) :
  posts_frame id w1 w2 -> posts_frame id w2 w3 -> posts_frame id w1 w3.
Proof.
  intros (Hn1 & Hw1 & Hh1 & Ha1 & Hs1 & He1 & Ho1 & Hp1)
         (Hn2 & Hw2 & Hh2 & Ha2 & Hs2 & He2 & Ho2 & Hp2).
  unfold posts_frame. repeat split; try congruence; try lia.
  - intros id' a Hc. rewrite Ho2, Ho1; done.
  - intros a. destruct (Hp1 a) as (n1 & E1 & B1).
    destruct (Hp2 a) as (n2 & E2 & B2).
    exists (n1 ++ n2). split; [by rewrite E2, E1, app_assoc|].
    intros x [Hx|Hx]%elem_of_app.
    + specialize (B1 x Hx). lia.
    + specialize (B2 x Hx). lia.
Qed.

Lemma posts_rel_refl (w : World) : prel w w.
Proof. split; [apply posts_frame_refl|done]. Qed.

Lemma posts_rel_trans (w1 w2 w3 : World) :
  prel w1 w2 -> prel w2 w3 -> prel w1 w3.
Proof.
  intros [F1 Q1] [F2 Q2]. split; [by eapply posts_frame_trans|auto].
Qed.

Lemma posts_frame_later (ms : Z) (w : World) :
  0 ≤ ms -> posts_frame id w (later ms w).
Proof.
  intros Hms. unfold posts_frame, later. simpl.
  repeat split; try done; try lia.
  intros a. exists []. split; [by rewrite app_nil_r|].
  intros x Hx. by apply elem_of_nil in Hx.
Qed.

Lemma posts_rel_later (ms : Z) (w : World) : 0 ≤ ms -> prel w (later ms w).
Proof.
  intros Hms. split; [by apply posts_frame_later|].
  intros [HL HC]. unfold quota_within, later. simpl.
  pose proof (recent_count_later (w_realm w) (w_env w) (now (w_env w) + ms)
                id Likes ltac:(lia)).
  pose proof (recent_count_later (w_realm w) (w_env w) (now (w_env w) + ms)
                id Comments ltac:(lia)).
  split; lia.
Qed.

Lemma advance_later (ms : Z) (w : World) :
  App.advance ms w = (Ok tt, later ms w).
Proof. done. Qed.

Lemma await_later {A} (s : Step A) (w : World) :
  Posts.await s w = (outcome s, later (took s) w).
Proof.
  unfold Posts.await, abind. rewrite advance_later.
  by destruct (outcome s).
Qed.

(** A relation established up to [w0] is carried to the end of a run from
    [w0]. *)
Lemma prel_prefix {A} (P : Res A -> Prop) (m : AM A) (w w0 : World) :
  prel w w0 ->
  (∃ r w', m w0 = (r, w') ∧ prel w0 w' ∧ P r) ->
  ∃ r w', m w0 = (r, w') ∧ prel w w' ∧ P r.
Proof.
  intros R0 (r & w' & Hm & R & HP). exists r, w'.
  split; [done|]. split; [by eapply posts_rel_trans|done].
Qed.

(** The queries through [call].  [canPerformAction] may prune the arrays of
    a built-in object: the world it leaves differs at most there, and the
    counts of the account are the same. *)
Lemma call_canPerformAction (t : ActivityTracker) (a : Action) (L : Z)
    (w : World) :
  accountId t = id ->
  ∃ t' w', App.call t (Tracker.canPerformAction a L) w
           = (Ok ((Z.of_nat (recent_count (w_realm w') (w_env w') id a) <? L),
                  t'), w')
           ∧ accountId t' = id
           ∧ prel w w'.
Proof.
  intros Hid. unfold App.call.
  set (s0 := {| this := t; env := w_env w; realm := w_realm w |}).
  pose proof (canPerformAction_fst s0 a L) as Hv.
  pose proof (canPerformAction_frame s0 a L) as (He & Hacc).
  pose proof (λ a', canPerformAction_recent s0 a a' L) as Hcnt.
  simpl in Hv, He, Hacc, Hcnt. rewrite Hid in Hv, Hacc, Hcnt.
  destruct (Tracker.canPerformAction a L s0) as [x s]. simpl in *.
  exists (this s),
    {| w_env := env s; w_realm := realm s; heap := heap w;
       next_addr := next_addr w; activeSessions := activeSessions w;
       effects := effects w |}.
  simpl. split; [|split; [done|]].
  - rewrite He, Hcnt. by subst x.
  - split.
    + unfold posts_frame. simpl. rewrite He.
      repeat split; try done; try lia.
      intros a'. exists []. split; [by rewrite app_nil_r|].
      intros y Hy. by apply elem_of_nil in Hy.
    + unfold quota_within. simpl. by rewrite He, !Hcnt.
Qed.

Lemma call_getRecentCount (t : ActivityTracker) (a : Action) (w : World) :
  ∃ v t', App.call t (Tracker.getRecentCount a) w = (Ok (v, t'), w)
          ∧ accountId t' = accountId t.
Proof.
  unfold App.call.
  set (s0 := {| this := t; env := w_env w; realm := w_realm w |}).
  pose proof (getRecentCount_frame s0 a) as (He & Hr & Hid).
  simpl in He, Hr, Hid.
  destruct (Tracker.getRecentCount a s0) as [x s]. simpl in *.
  exists x, (this s). by rewrite world_eta.
Qed.

Lemma can_spec (on : bool) (t : ActivityTracker) (a : Action) (L : Z)
    (w : World) :
  accountId t = id ->
  ∃ t' w', Posts.can on t a L w
           = (Ok (on && (Z.of_nat (recent_count (w_realm w') (w_env w') id a)
                         <? L), t'), w')
           ∧ accountId t' = id
           ∧ prel w w'.
Proof.
  intros Hid. unfold Posts.can.
  destruct on; [by apply call_canPerformAction|].
  exists t, w. split; [done|]. split; [done|]. apply posts_rel_refl.
Qed.

(** A record made when the count is below the limit keeps the count within
    the bound. *)
Lemma call_trackAction (t : ActivityTracker) (a : Action) (w : World) :
  accountId t = id -> a ≠ DMs ->
  ∃ t' w', App.call t (Tracker.trackAction a) w = (Ok (tt, t'), w')
           ∧ accountId t' = id
           ∧ posts_frame id w w'
           ∧ now (w_env w') = now (w_env w)
           ∧ ∀ a', (recent_count (w_realm w') (w_env w') id a'
                    ≤ recent_count (w_realm w) (w_env w) id a'
                      + (if decide (a' = a) then 1 else 0))%nat.
Proof.
  intros Hid Ha. unfold App.call.
  set (s0 := {| this := t; env := w_env w; realm := w_realm w |}).
  pose proof (trackAction_env s0 a) as (Hnow & Hwr & Hacc).
  pose proof (λ a' id', trackAction_history s0 a a' id') as Hhist.
  pose proof (λ a', trackAction_history_of s0 a a') as Hof.
  simpl in Hacc, Hnow, Hwr, Hhist, Hof. rewrite Hid in Hhist, Hof.
  destruct (Tracker.trackAction a s0) as [[] s]. simpl in *.
  eexists (this s), _. split; [reflexivity|]. simpl.
  split; [congruence|]. split; [|split; [done|]].
  - unfold posts_frame. simpl. repeat split; try done; try lia.
    + intros id' a' Hc. rewrite Hhist.
      rewrite bool_decide_eq_false_2, andb_false_r; [by rewrite app_nil_r|].
      intros [-> ->]. destruct Hc as [Hc|Hc]; [by apply Hc|by apply Ha].
    + intros a'. rewrite Hhist. eexists. split; [done|].
      intros x Hx. destruct (_ && _ && _); [|by apply elem_of_nil in Hx].
      apply list_elem_of_singleton in Hx as ->. lia.
  - intros a'. unfold recent_count. rewrite Hof, Hnow, filter_app, length_app.
    apply Nat.add_le_mono_l.
    destruct (decide (a' = a)) as [->|Hne]; [|simpl; lia].
    destruct (lands _ _ _ _); [|simpl; lia].
    etrans; [apply length_filter|done].
Qed.


Variables LL LC : Z.
Hypothesis LL_bound : LL ≤ Z.of_nat BL.
Hypothesis LC_bound : LC ≤ Z.of_nat BC.

Lemma likeStep_rel (b : Behavior) (t : ActivityTracker) (v : PostView)
    (label : option LikeLabel) (w : World) :
  accountId t = id -> 0 ≤ took (pv_connected v) -> 0 ≤ pv_click v ->
  ∃ r w', Posts.likeStep b LL t v label w = (r, w')
          ∧ prel w w'
          ∧ ∀ t', r = Ok t' -> accountId t' = id.
Proof.
  intros Hid Hc Hk. unfold Posts.likeStep.
  destruct (not_false (enableLikes b));
    [|eexists _, w; split; [reflexivity|]; split;
      [apply posts_rel_refl|by intros ? [= <-]]].
  unfold abind at 1.
  destruct (call_canPerformAction t Likes LL w Hid) as (t1 & w0 & -> & Hid1 & R0).
  apply (prel_prefix (λ r, ∀ t', r = Ok t' -> accountId t' = id) _ w w0 R0).
  clear R0 w. rename w0 into w.
  destruct (Z.of_nat (recent_count (w_realm w) (w_env w) id Likes) <? LL)
    eqn:Hok; simpl.
  - apply Z.ltb_lt in Hok.
    destruct label as [[| |]|];
      try (eexists _, w; split; [reflexivity|]; split;
           [apply posts_rel_refl|by intros ? [= <-]]).
    unfold abind at 1, try_catch. rewrite await_later.
    set (w1 := later (took (pv_connected v)) w).
    assert (prel w w1) as R1 by (by apply posts_rel_later).
    assert (∀ isConnected : bool,
              ∃ r w',
                (if isConnected
                 then (App.advance (pv_click v) ;;
                       do r <- App.call t1 (Tracker.trackAction Likes);
                       aret r.2)%am
                 else aret t1) w1 = (r, w')
                ∧ prel w w'
                ∧ ∀ t', r = Ok t' -> accountId t' = id) as Hrest.
    { intros [|].
      - unfold abind at 1. rewrite advance_later.
        set (w2 := later (pv_click v) w1).
        assert (prel w1 w2) as R2 by (by apply posts_rel_later).
        unfold abind.
        destruct (call_trackAction t1 Likes w2 Hid1 Likes_not_DMs)
          as (t2 & w3 & -> & Hid2 & F3 & Hnow & Hcnt).
        eexists _, w3. split; [reflexivity|]. split; [|by intros ? [= <-]].
        split.
        + eapply posts_frame_trans; [|exact F3].
          eapply posts_frame_trans; [apply R1|apply R2].
        + intros Q0. destruct (proj2 R2 (proj2 R1 Q0)) as [_ HC2].
          split.
          * pose proof (Hcnt Likes) as HcL. rewrite decide_True in HcL by done.
            assert (recent_count (w_realm w2) (w_env w2) id Likes
                    ≤ recent_count (w_realm w) (w_env w) id Likes)%nat.
            { etrans; [apply (recent_count_later (w_realm w1) (w_env w1))|
                       apply (recent_count_later (w_realm w) (w_env w))];
                simpl; lia. }
            lia.
          * pose proof (Hcnt Comments) as HcC.
            rewrite decide_False in HcC by done. lia.
      - eexists _, w1. split; [reflexivity|]. split; [done|].
        by intros ? [= <-]. }
    destruct (outcome (pv_connected v)) as [isConnected|err].
    + apply Hrest.
    + unfold aret at 1. apply (Hrest false).
  - unfold abind.
    destruct (call_getRecentCount t1 Likes w) as (x & t2 & -> & Hid2).
    eexists _, w. split; [reflexivity|]. split; [apply posts_rel_refl|].
    intros ? [= <-]. simpl. congruence.
Qed.

Lemma commentStep_rel (b : Behavior) (t : ActivityTracker) (v : PostView)
    (w : World) :
  accountId t = id -> 0 ≤ took (pv_comment_box v) ->
  0 ≤ took (pv_comment_post v) ->
  ∃ r w', Posts.commentStep b LC t v w = (r, w')
          ∧ prel w w'
          ∧ ∀ t', r = Ok t' -> accountId t' = id.
Proof.
  intros Hid Hc Hk. unfold Posts.commentStep.
  destruct (not_false (enableComments b));
    [|eexists _, w; split; [reflexivity|]; split;
      [apply posts_rel_refl|by intros ? [= <-]]].
  unfold abind at 1.
  destruct (call_canPerformAction t Comments LC w Hid)
    as (t1 & w0 & -> & Hid1 & R0).
  apply (prel_prefix (λ r, ∀ t', r = Ok t' -> accountId t' = id) _ w w0 R0).
  clear R0 w. rename w0 into w.
  destruct (Z.of_nat (recent_count (w_realm w) (w_env w) id Comments) <? LC)
    eqn:Hok; simpl.
  - apply Z.ltb_lt in Hok.
    unfold abind at 1. rewrite await_later.
    set (w1 := later (took (pv_comment_box v)) w).
    assert (prel w w1) as R1 by (by apply posts_rel_later).
    destruct (outcome (pv_comment_box v)) as [[|]|err];
      try (eexists _, w1; split; [reflexivity|]; split;
           [done|by intros ? [=]]).
    + unfold abind at 1. rewrite await_later.
      set (w2 := later (took (pv_comment_post v)) w1).
      assert (prel w1 w2) as R2 by (by apply posts_rel_later).
      destruct (outcome (pv_comment_post v)) as [[|]|err];
        try (eexists _, w2; split; [reflexivity|]; split;
             [by eapply posts_rel_trans|by intros ? [=]]).
      * unfold abind at 1.
        destruct (call_trackAction t1 Comments w2 Hid1 Comments_not_DMs)
          as (t2 & w3 & -> & Hid2 & F3 & Hnow & Hcnt).
        unfold abind. rewrite advance_later.
        eexists _, (later 2000 w3). split; [reflexivity|].
        split; [|by intros ? [= <-]].
        assert (prel w w3) as R3.
        { split.
          - eapply posts_frame_trans; [|exact F3].
            eapply posts_frame_trans; [apply R1|apply R2].
          - intros Q0. destruct (proj2 R2 (proj2 R1 Q0)) as [HL2 _].
            split.
            + pose proof (Hcnt Likes) as HcL.
              rewrite decide_False in HcL by done. lia.
            + pose proof (Hcnt Comments) as HcC.
              rewrite decide_True in HcC by done.
              assert (recent_count (w_realm w2) (w_env w2) id Comments
                      ≤ recent_count (w_realm w) (w_env w) id Comments)%nat.
              { etrans; [apply (recent_count_later (w_realm w1) (w_env w1))|
                         apply (recent_count_later (w_realm w) (w_env w))];
                  simpl; lia. }
              lia. }
        eapply posts_rel_trans; [exact R3|]. apply posts_rel_later. lia.
      * eexists _, w2. split; [reflexivity|]. split;
          [by eapply posts_rel_trans|]. by intros ? [= <-].
    + eexists _, w1. split; [reflexivity|]. split; [done|].
      by intros ? [= <-].
  - unfold abind.
    destruct (call_getRecentCount t1 Comments w) as (x & t2 & -> & Hid2).
    eexists _, w. split; [reflexivity|]. split; [apply posts_rel_refl|].
    intros ? [= <-]. simpl. congruence.
Qed.


Local Abbreviation sound := (posts_sound id BL BC).

Lemma sound_ret {A} (P : A -> Prop) (x : A) (w : World) :
  P x -> sound P (aret x) w.
Proof.
  intros HP. exists (Ok x), w. split; [done|]. split; [apply posts_rel_refl|].
  by intros ? [= <-].
Qed.

Lemma sound_bind {A B} (P : A -> Prop) (Q : B -> Prop) (m : AM A)
    (k : A -> AM B) (w : World) :
  sound P m w -> (∀ x w1, P x -> sound Q (k x) w1) -> sound Q (abind m k) w.
Proof.
  intros (r & w1 & Hm & R1 & HP) Hk. unfold posts_sound, abind. rewrite Hm.
  destruct r as [x|err].
  - destruct (Hk x w1 (HP x eq_refl)) as (r2 & w2 & Hk2 & R2 & HQ).
    exists r2, w2. split; [done|]. split; [by eapply posts_rel_trans|done].
  - exists (Throw err), w1. split; [done|]. split; [done|]. by intros ? [=].
Qed.

Lemma sound_try_catch {A} (P : A -> Prop) (m : AM A) (h : string -> AM A)
    (w : World) :
  sound P m w -> (∀ err w1, sound P (h err) w1) -> sound P (try_catch m h) w.
Proof.
  intros (r & w1 & Hm & R1 & HP) Hh. unfold posts_sound, try_catch.
  rewrite Hm.
  destruct r as [x|err].
  - exists (Ok x), w1. split; [done|]. split; [done|]. done.
  - destruct (Hh err w1) as (r2 & w2 & Hk2 & R2 & HQ).
    exists r2, w2. split; [done|]. split; [by eapply posts_rel_trans|done].
Qed.

Lemma sound_weaken {A} (P Q : A -> Prop) (m : AM A) (w : World) :
  (∀ x, P x -> Q x) -> sound P m w -> sound Q m w.
Proof.
  intros HPQ (r & w1 & Hm & R1 & HP). exists r, w1.
  split; [done|]. split; [done|]. intros x Hx. by apply HPQ, HP.
Qed.

Lemma sound_advance (ms : Z) (w : World) :
  0 ≤ ms -> sound (λ _, True) (App.advance ms) w.
Proof.
  intros Hms. exists (Ok tt), (later ms w). split; [done|].
  split; [by apply posts_rel_later|done].
Qed.

Lemma sound_await {A} (s : Step A) (w : World) :
  0 ≤ took s -> sound (λ _, True) (Posts.await s) w.
Proof.
  intros Hms. exists (outcome s), (later (took s) w).
  split; [apply await_later|]. split; [by apply posts_rel_later|done].
Qed.

Lemma sound_can (on : bool) (t : ActivityTracker) (a : Action) (L : Z)
    (w : World) :
  accountId t = id ->
  sound (λ r, accountId r.2 = id) (Posts.can on t a L) w.
Proof.
  intros Hid. destruct (can_spec on t a L w Hid) as (t' & w' & Hc & Hid' & R).
  eexists _, w'. split; [exact Hc|]. split; [exact R|].
  by intros ? [= <-].
Qed.

Lemma iteration_sound (b : Behavior) (t : ActivityTracker) (v : PostView)
    (w : World) :
  accountId t = id ->
  0 ≤ took (pv_post v) ∧ 0 ≤ took (pv_button v)
  ∧ 0 ≤ took (pv_connected v) ∧ 0 ≤ pv_click v
  ∧ 0 ≤ took (pv_caption v) ∧ 0 ≤ took (pv_comment_box v)
  ∧ 0 ≤ took (pv_comment_post v) ∧ 0 ≤ pv_wait v
  ∧ 0 ≤ took (pv_scroll v) ->
  ∃ r w', Posts.iteration b LL LC t v w = (Ok r, w')
          ∧ prel w w'
          ∧ ∀ t', r = Some t' -> accountId t' = id.
Proof.
  intros Hid (H1 & H2 & H3 & H4 & H5 & H6 & H7 & H8 & H9).
  set (P := λ r : option ActivityTracker, ∀ t', r = Some t' -> accountId t' = id).
  assert (sound P (Posts.iteration b LL LC t v) w) as Hs.
  { unfold Posts.iteration.
    destruct (pv_exit v); [by apply sound_ret|].
    eapply sound_bind; [by apply sound_can|]. intros [canLike t1] w1 Ht1.
    simpl in Ht1.
    eapply sound_bind; [by apply sound_can|]. intros [canComment t2] w2 Ht2.
    simpl in Ht2.
    destruct (negb canLike && negb canComment); [by apply sound_ret|].
    apply sound_try_catch; [|intros; by apply sound_ret].
    eapply sound_bind; [by apply sound_await|]. intros found w3 _.
    destruct (negb found); [by apply sound_ret|].
    eapply sound_bind; [by apply sound_await|]. intros label w4 _.
    eapply sound_bind; [apply (likeStep_rel b t2 v label w4); done|].
    intros t3 w5 Ht3.
    eapply sound_bind; [by apply sound_await|]. intros _ w6 _.
    eapply sound_bind; [apply (commentStep_rel b t3 v w6); done|].
    intros t4 w7 Ht4.
    eapply sound_bind; [by apply sound_advance|]. intros _ w8 _.
    eapply sound_bind; [by apply sound_advance|]. intros _ w9 _.
    eapply sound_bind; [by apply sound_await|]. intros _ w10 _.
    apply sound_ret. by intros ? [= <-]. }
  destruct Hs as (r & w' & Hrun & R & HP).
  assert (∃ x, r = Ok x) as [x ->].
  { revert Hrun. unfold Posts.iteration.
    destruct (pv_exit v); [intros [= <- _]; by eexists|].
    unfold abind at 1.
    destruct (can_spec (not_false (enableLikes b)) t Likes LL w Hid)
      as (t1 & w1 & -> & Hid1 & _).
    unfold abind at 1.
    destruct (can_spec (not_false (enableComments b)) t1 Comments LC w1 Hid1)
      as (t2 & w2 & -> & _ & _).
    destruct (negb _ && negb _); [intros [= <- _]; by eexists|].
    unfold try_catch.
    destruct (abind _ _ w2) as [[x|err] w3]; intros [= <- _]; by eexists. }
  exists x, w'. split; [done|]. split; [done|]. by apply HP.
Qed.


Lemma posts_loop_sound (b : Behavior) (feed : Feed) (fuel : nat)
    (postIndex : Z) (t : ActivityTracker) (w : World) :
  accountId t = id -> feed_clock_ok feed ->
  (Z.to_nat (Posts.maxPosts - postIndex + 1) < fuel)%nat ->
  ∃ w', Posts.posts_loop b LL LC feed fuel postIndex t w = (Ok tt, w')
        ∧ prel w w'.
Proof.
  intros Hid (_ & _ & Hfeed).
  induction fuel as [|fuel IH] in postIndex, t, w, Hid |- *; intros Hfuel;
    [lia|].
  simpl. destruct (Z.leb_spec postIndex Posts.maxPosts) as [Hle|Hgt].
  - destruct (iteration_sound b t (feed_post feed postIndex) w Hid
                (Hfeed postIndex)) as (r & w1 & Hit & R1 & Hr).
    unfold abind. rewrite Hit. destruct r as [t1|].
    + destruct (IH (postIndex + 1) t1 w1 (Hr t1 eq_refl)) as (w2 & Hl & R2);
        [lia|].
      exists w2. split; [done|]. by eapply posts_rel_trans.
    + by exists w1.
  - exists w. split; [done|]. apply posts_rel_refl.
Qed.

End PostsQuota.

Lemma interactWithPosts_rel (sys : Sys) (c : IgClient) (username : string)
    (b : Behavior) (l : Limits) (feed : Feed) (w : World) (BL BC : nat) :
  let id := match truthy (userDataDir c) with
            | Some dir => path_basename sys dir
            | None => username
            end in
  feed_clock_ok feed ->
  or_number (likesPerHour l) 10 ≤ Z.of_nat BL ->
  or_number (commentsPerHour l) 5 ≤ Z.of_nat BC ->
  ∃ r w', Posts.interactWithPosts sys c username b l feed w = (r, w')
          ∧ posts_rel id BL BC w w'
          ∧ (page c = true -> outcome (feed_load feed) = Ok tt -> r = Ok tt).
Proof.
  intros id Hfeed HL HC. unfold Posts.interactWithPosts. fold id.
  destruct (page c); cbn [negb];
    [|eexists _, w; split; [reflexivity|]; split; [apply posts_rel_refl|done]].
  unfold abind at 1, App.new_tracker at 1.
  set (t0 := this (Tracker.new id (w_env w))).
  assert (accountId t0 = id) as Hid by done.
  unfold abind at 1, try_catch, abind at 1. rewrite await_later.
  pose proof Hfeed as (Hload & Hshot & _).
  set (w1 := later (took (feed_load feed)) w).
  assert (posts_rel id BL BC w w1) as R1 by (by apply posts_rel_later).
  destruct (outcome (feed_load feed)) as [[]|err] eqn:Hout.
  - unfold aret at 1. cbn [negb].
    unfold abind at 1.
    destruct (can_spec id BL BC (not_false (enableLikes b)) t0 Likes
                (or_number (likesPerHour l) 10) w1 Hid)
      as (t1 & w1a & -> & Hid1 & Ra).
    unfold abind at 1.
    destruct (can_spec id BL BC (not_false (enableComments b)) t1 Comments
                (or_number (commentsPerHour l) 5) w1a Hid1)
      as (t2 & w1b & -> & Hid2 & Rb).
    assert (posts_rel id BL BC w w1b) as R1b.
    { eapply posts_rel_trans; [exact R1|].
      eapply posts_rel_trans; [exact Ra|exact Rb]. }
    destruct (negb _ && negb _).
    + by exists (Ok tt), w1b.
    + destruct (posts_loop_sound id BL BC _ _ HL HC b feed
                  (S (Z.to_nat Posts.maxPosts)) 1 t2 w1b) as (w2 & -> & R2);
        [congruence|done|unfold Posts.maxPosts; lia|].
      exists (Ok tt), w2. split; [done|]. split; [|done].
      by eapply posts_rel_trans.
  - unfold abind at 1. rewrite await_later.
    set (w2 := later (took (feed_screenshot feed)) w1).
    assert (posts_rel id BL BC w w2) as R2.
    { eapply posts_rel_trans; [exact R1|]. by apply posts_rel_later. }
    destruct (outcome (feed_screenshot feed)) as [[]|err2]; simpl.
    + exists (Ok tt), w2. split; [done|]. split; [done|]. done.
    + exists (Throw err2), w2. split; [done|]. split; [done|]. done.
Qed.

(** X15.  [interactWithPosts] checks the quota before every record.  When
    the clock does not run backwards and nobody else records for the
    account meanwhile, the numbers of likes and comments of the account that
    [canPerformAction] counts are, at the end, at most the larger of what
    they were at the start and the hourly limit in force here
    ([likesPerHour || 10], [commentsPerHour || 5]).  Besides that, the call
    appends likes and comments to the account's histories, and touches
    neither its direct messages, nor other accounts, nor the registry; and
    when the page is set and the feed loads it returns normally, whatever
    the page does afterwards. *)
Theorem interactWithPosts_quota (sys : Sys) (c : IgClient) (username : string)
    (b : Behavior) (l : Limits) (feed : Feed) (w : World) :
  let id := match truthy (userDataDir c) with
            | Some dir => path_basename sys dir
            | None => username
            end in
  let run := Posts.interactWithPosts sys c username b l feed w in
  feed_clock_ok feed ->
  Z.of_nat (recent_count (w_realm run.2) (w_env run.2) id Likes)
  ≤ Z.max (Z.of_nat (recent_count (w_realm w) (w_env w) id Likes))
          (or_number (likesPerHour l) 10)
  ∧ Z.of_nat (recent_count (w_realm run.2) (w_env run.2) id Comments)
    ≤ Z.max (Z.of_nat (recent_count (w_realm w) (w_env w) id Comments))
            (or_number (commentsPerHour l) 5)
  ∧ posts_frame id w run.2
  ∧ (page c = true -> outcome (feed_load feed) = Ok tt -> run.1 = Ok tt).
Proof.
  intros id run Hfeed.
  set (BL := Nat.max (recent_count (w_realm w) (w_env w) id Likes)
               (Z.to_nat (or_number (likesPerHour l) 10))).
  set (BC := Nat.max (recent_count (w_realm w) (w_env w) id Comments)
               (Z.to_nat (or_number (commentsPerHour l) 5))).
  destruct (interactWithPosts_rel sys c username b l feed w BL BC Hfeed)
    as (r0 & w' & Hrun & [F Q] & Hok);
    [subst BL BC; lia|subst BL BC; lia|].
  subst run. fold id in Hrun. rewrite Hrun. simpl. fold id in Q, F.
  destruct Q as [QL QC]; [split; subst BL BC; lia|].
  fold id in F, QL, QC. subst BL BC.
  split; [lia|]. split; [lia|]. split; [exact F|exact Hok].
Qed.

(** Three likes and two comments an hour, on a feed where every post can be
    liked and commented on: the run ends with three likes and two comments
    recorded. *)
Lemma interactWithPosts_quota_witness :
  let run := Posts.interactWithPosts (sys_linux (Some 5)) connected_client
               "alice" no_overrides
               {| likesPerHour := Some 3; commentsPerHour := Some 2;
                  dmsPerHour := None |}
               feed_open (world_empty (env_fresh 10000000)) in
  feed_clock_ok feed_open
  ∧ Z.of_nat (recent_count (w_realm run.2) (w_env run.2) "a1" Likes) ≤ 3
  ∧ Z.of_nat (recent_count (w_realm run.2) (w_env run.2) "a1" Comments) ≤ 2
  ∧ length (durable_history (w_env run.2) "a1" Likes) = 3%nat
  ∧ length (durable_history (w_env run.2) "a1" Comments) = 2%nat.
Proof.
  intros run.
  assert (Hfeed : feed_clock_ok feed_open).
  { unfold feed_clock_ok. simpl. repeat split; lia. }
  split; [exact Hfeed|].
  pose proof (interactWithPosts_quota (sys_linux (Some 5)) connected_client
                "alice" no_overrides
                {| likesPerHour := Some 3; commentsPerHour := Some 2;
                   dmsPerHour := None |}
                feed_open (world_empty (env_fresh 10000000)) Hfeed)
    as (HL & HC & _ & _).
  split; [exact HL|]. split; [exact HC|].
  split; vm_compute; reflexivity.
Defined.
(** *** The activity log across accounts *)

















(** *** The name of an account's log directory *)

Lemma safeId_all_safe (s : string) : all_safe (safeId s) = true.
Proof.
  induction s as [|c s IH]; [done|]. simpl. rewrite IH, andb_true_r.
  destruct (is_safe_char c) eqn:E; [done|]. reflexivity.
Qed.

Lemma safeId_fixed (s : string) : all_safe s = true -> safeId s = s.
Proof.
  induction s as [|c s IH]; [done|]. simpl.
  intros [Hc Hs]%andb_prop. by rewrite Hc, IH.
Qed.

(** X17.  The directory name [createAccountLogger] derives from an account
    id has the length of the id and only characters of [a-zA-Z0-9_-] (so no
    path separator and no dot); deriving it again changes nothing, and it is
    the id itself exactly when the id has only such characters. *)
Theorem safeId_spec (accountId : string) :
  String.length (safeId accountId) = String.length accountId
  ∧ all_safe (safeId accountId) = true
  ∧ safeId (safeId accountId) = safeId accountId
  ∧ (safeId accountId = accountId ↔ all_safe accountId = true).
Proof.
  split; [|split; [apply safeId_all_safe|split]].
  - induction accountId as [|c s IH]; [done|]. simpl. by rewrite IH.
  - apply safeId_fixed, safeId_all_safe.
  - split; [|apply safeId_fixed].
    intros <-. apply safeId_all_safe.
Qed.

(** *** [ScheduleTracker] *)

(** X18.  For hours of the day, [isSleepTime] answers true exactly when the
    current hour lies in the window that starts at the start hour and ends
    before the end hour, going round midnight when it has to: counted from
    the start hour, the current hour comes before the end hour.  In
    particular the window is empty when the two hours are equal. *)
Theorem isSleepTime_cyclic (sleepStartHour sleepEndHour currentHour : Z) :
  0 ≤ sleepStartHour < 24 -> 0 ≤ sleepEndHour < 24 -> 0 ≤ currentHour < 24 ->
  Schedule.isSleepTime sleepStartHour sleepEndHour currentHour = true
  ↔ (currentHour - sleepStartHour) mod 24
    < (sleepEndHour - sleepStartHour) mod 24.
Proof.
  intros Hs He Hc. unfold Schedule.isSleepTime.
  destruct (Z.ltb_spec sleepEndHour sleepStartHour);
    rewrite ?orb_true_iff, ?andb_true_iff, ?Z.leb_le, ?Z.ltb_lt;
    Z.div_mod_to_equations; lia.
Qed.

Lemma isSleepTime_cyclic_witness :
  0 ≤ 23 < 24 ∧ 0 ≤ 7 < 24 ∧ 0 ≤ 3 < 24
  ∧ (3 - 23) mod 24 < (7 - 23) mod 24.
Proof.
  split; [lia|]. split; [lia|]. split; [lia|].
  apply (isSleepTime_cyclic 23 7 3); [lia|lia|lia|reflexivity].
Defined.

(** X19.  [setNextActiveTime] then [getNextActiveTime], on any two tracker
    objects whose ids are not [__proto__] and name no object held by
    [Object.prototype], in a process where [Object.prototype] has no
    [nextActiveTime]: the call returns normally and leaves the built-in
    objects alone, and the time read is the time set when the two are for
    the same account and the file can be written, and is what it was before
    otherwise. *)
Theorem setNextActiveTime_read_back (timestamp : Z) (t1 t2 : ScheduleTracker)
    (e : SchedEnv) (rl : SchedRealm) :
  sop_next rl = None ->
  st_accountId t1 ≠ "__proto__"%string ->
  sop_objs rl !! st_accountId t1 = None ->
  st_accountId t2 ≠ "__proto__"%string ->
  sop_objs rl !! st_accountId t2 = None ->
  ∃ t1' e',
    Schedule.setNextActiveTime timestamp t1 e rl = (Ok tt, t1', e', rl)
    ∧ (Schedule.getNextActiveTime t2 e' rl).1
      = if sched_writable e && bool_decide (st_accountId t2 = st_accountId t1)
        then timestamp
        else (Schedule.getNextActiveTime t2 e rl).1.
Proof.
  intros Hop Hp1 Hf1 Hp2 Hf2.
  assert (∀ d id, id ≠ "__proto__"%string -> sop_objs rl !! id = None ->
                  Schedule.resolve rl d id
                  = match d !! id with Some _ => Some SEntry | None => None end)
    as Hres.
  { intros d id Hp Hf. unfold Schedule.resolve.
    destruct (d !! id); [done|].
    rewrite decide_False by done. rewrite Hf, Hop. by destruct (decide _). }
  unfold Schedule.setNextActiveTime, Schedule.getNextActiveTime,
    Schedule.loadData.
  rewrite !Hres by done.
  assert (∃ d1, match default ∅ (sched_file e) !! st_accountId t1 with
                | Some _ => (SEntry, default ∅ (sched_file e))
                | None => (SEntry, <[st_accountId t1 := Some 0]>
                                     (default ∅ (sched_file e)))
                end = (SEntry, d1)
                ∧ ∀ k, k ≠ st_accountId t1 ->
                       d1 !! k = default ∅ (sched_file e) !! k)
    as (d1 & Hd1 & Hother).
  { destruct (default ∅ (sched_file e) !! st_accountId t1).
    - by eexists.
    - eexists. split; [done|]. intros k Hk. by rewrite lookup_insert_ne. }
  replace (match match default ∅ (sched_file e) !! st_accountId t1 with
                 | Some _ => Some SEntry
                 | None => None
                 end with
           | Some o => (o, default ∅ (sched_file e))
           | None => (SEntry, <[st_accountId t1 := Some 0]>
                                (default ∅ (sched_file e)))
           end) with (SEntry, d1)
    by (rewrite <- Hd1; by destruct (default ∅ (sched_file e) !! _)).
  eexists _, _. split; [reflexivity|].
  unfold Schedule.saveData. simpl.
  rewrite Hres by done.
  destruct (sched_writable e); simpl; [|done].
  case_bool_decide as Hid.
  - rewrite Hid, lookup_insert_eq. unfold Schedule.get_next.
    by rewrite lookup_insert_eq.
  - rewrite lookup_insert_ne, Hother by done.
    destruct (default ∅ (sched_file e) !! st_accountId t2) as [v|]; [|done].
    unfold Schedule.get_next. by rewrite lookup_insert_ne, Hother by done.
Qed.

Lemma setNextActiveTime_read_back_witness :
  let t := {| st_accountId := "a1"; st_data := ∅ |} in
  let e := {| sched_file := None; sched_writable := true |} in
  sop_next sched_realm_clean = None
  ∧ "a1"%string ≠ "__proto__"%string
  ∧ sop_objs sched_realm_clean !! "a1"%string = None
  ∧ ∃ e', (Schedule.setNextActiveTime 5000 t e sched_realm_clean).1.2 = e'
          ∧ (Schedule.getNextActiveTime t e' sched_realm_clean).1 = 5000.
Proof.
  intros t e.
  assert (H1 : sop_next sched_realm_clean = None) by reflexivity.
  assert (H2 : "a1"%string ≠ "__proto__"%string) by discriminate.
  assert (H3 : sop_objs sched_realm_clean !! "a1"%string = None)
    by (vm_compute; reflexivity).
  split; [exact H1|]. split; [exact H2|]. split; [exact H3|].
  destruct (setNextActiveTime_read_back 5000 t t e sched_realm_clean
              H1 H2 H3 H2 H3) as (t1' & e' & Hset & Hget).
  exists e'. split; [by rewrite Hset|]. exact Hget.
Defined.

(** For the id [constructor] the time set stays in the process: it is read
    back there although the file cannot be written, and a process started
    afterwards reads 0 although the file can be written. *)
Example schedule_prototype_id :
  let t := {| st_accountId := "constructor"; st_data := ∅ |} in
  let locked := {| sched_file := None; sched_writable := false |} in
  let fresh := {| sched_file := None; sched_writable := true |} in
  let r1 := Schedule.setNextActiveTime 5000 t locked sched_realm_clean in
  let r2 := Schedule.setNextActiveTime 5000 t fresh sched_realm_clean in
  (Schedule.getNextActiveTime t r1.1.2 r1.2).1 = 5000
  ∧ sched_file r2.1.2 = Some ∅
  ∧ (Schedule.getNextActiveTime t r2.1.2 sched_realm_clean).1 = 0.
Proof. vm_compute. done. Qed.

(** *** [JobHistory] *)

(** X20.  [addProcessed] on a history with a job list: afterwards the job
    is processed, the answer for every other job is as before, a list
    without duplicates stays so, a second [addProcessed] of the same job
    changes nothing, and when the job was new and the file can be written, a
    [JobHistory] created afterwards finds the same list. *)
Theorem addProcessed_spec (limitId : string) (h : JobHistory) (e : JHEnv)
    (jobs : list string) :
  searched_jobs h = Some jobs ->
  ∃ h' e',
    History.addProcessed limitId h e = (Ok tt, h', e')
    ∧ History.isProcessed limitId h' = Ok true
    ∧ (∀ other, other ≠ limitId ->
         History.isProcessed other h' = History.isProcessed other h)
    ∧ (NoDup jobs -> NoDup (default [] (searched_jobs h')))
    ∧ History.addProcessed limitId h' e' = (Ok tt, h', e')
    ∧ (History.isProcessed limitId h = Ok false -> jh_writable e = true ->
       History.new e' = (Ok h', e')).
Proof.
  intros Hj. unfold History.addProcessed, History.isProcessed. rewrite Hj.
  case_bool_decide as Hin.
  - exists h, e. rewrite Hj. rewrite bool_decide_eq_true_2 by done.
    repeat split; try done.
  - eexists _, _. split; [reflexivity|]. simpl.
    assert (limitId ∈ jobs ++ [limitId]) as Hnew.
    { apply elem_of_app. right. apply list_elem_of_here. }
    rewrite bool_decide_eq_true_2 by done.
    split; [done|]. split; [|split; [|split; [done|]]].
    + intros other Hne. f_equal. apply bool_decide_ext.
      rewrite elem_of_app, list_elem_of_singleton. tauto.
    + intros Hnd. apply NoDup_app. split; [done|].
      split; [|apply NoDup_singleton].
      intros x Hx ->%list_elem_of_singleton. by apply Hin.
    + intros _ Hw. unfold History.saveHistory, History.new,
        History.ensureFile. rewrite Hw. simpl. done.
Qed.

Lemma addProcessed_spec_witness :
  searched_jobs {| searched_jobs := Some ["job-1"%string] |}
  = Some ["job-1"%string]
  ∧ ∃ h' e',
      History.addProcessed "job-2"
        {| searched_jobs := Some ["job-1"%string] |}
        {| jh_file := HCorrupt; jh_writable := true |} = (Ok tt, h', e')
      ∧ History.isProcessed "job-2" h' = Ok true
      ∧ History.isProcessed "job-1" h' = Ok true
      ∧ History.new e' = (Ok h', e').
Proof.
  split; [reflexivity|].
  destruct (addProcessed_spec "job-2"
              {| searched_jobs := Some ["job-1"%string] |}
              {| jh_file := HCorrupt; jh_writable := true |}
              ["job-1"%string] eq_refl)
    as (h' & e' & Hadd & Hp & Hother & _ & _ & Hnew).
  exists h', e'. split; [exact Hadd|]. split; [exact Hp|]. split.
  - rewrite (Hother "job-1"%string); [reflexivity|discriminate].
  - apply Hnew; reflexivity.
Defined.

(** *** [JobAnalyzer.getNextKey] *)

Lemma rotate_nat_add_next (i j n : nat) :
  (0 < n)%nat ->
  rotate_nat_add ((i + 1) mod n) j n = rotate_nat_add i (S j) n.
Proof.
  intros Hn. rewrite <- rotate_nat_add_add_mod. unfold rotate_nat_add.
  f_equal. f_equal. lia.
Qed.

Lemma getNextKeys_gen (k : nat) (keys : list string) (i : nat) :
  (i < length keys)%nat ->
  getNextKeys k {| apiKeys := keys; currentKeyIndex := i |}
  = (map (λ j, keys !! rotate_nat_add i j (length keys)) (seq 0 k),
     {| apiKeys := keys;
        currentKeyIndex := rotate_nat_add i k (length keys) |}).
Proof.
  induction k as [|k IH] in i |- *; intros Hi.
  { simpl. by rewrite rotate_nat_add_0. }
  assert (0 < length keys)%nat as Hn by lia.
  cbn [getNextKeys]. unfold getNextKey. cbn [apiKeys currentKeyIndex].
  replace (length keys =? 0)%nat with false
    by (symmetry; apply Nat.eqb_neq; lia).
  rewrite IH by (apply Nat.mod_upper_bound; lia). f_equal.
  - cbn [seq map]. f_equal.
    + by rewrite rotate_nat_add_0.
    + rewrite <- fmap_S_seq, <- list_fmap_compose.
      apply list_fmap_ext. intros _ j _. simpl.
      by rewrite rotate_nat_add_next.
  - f_equal. by apply rotate_nat_add_next.
Qed.

(** X21.  [getNextKey] hands the keys out in turn.  With n keys and the
    index at i, the next n calls return all the keys, each once, starting
    with the key at i and going round, and leave the index at i again. *)
Theorem getNextKey_round_robin (r : KeyRing) :
  (currentKeyIndex r < length (apiKeys r))%nat ->
  getNextKeys (length (apiKeys r)) r
  = (map Some (rotate (currentKeyIndex r) (apiKeys r)), r).
Proof.
  destruct r as [keys i]. simpl. intros Hi.
  rewrite getNextKeys_gen by done. f_equal.
  - apply list_eq. intros j.
    rewrite !list_lookup_fmap.
    destruct (decide (j < length keys)%nat) as [Hj|Hj].
    + rewrite lookup_seq_lt by done. simpl.
      rewrite lookup_rotate_r by done.
      destruct (keys !! rotate_nat_add i j (length keys)) eqn:E; [done|].
      apply lookup_ge_None in E.
      pose proof (rotate_nat_add_lt i j (length keys) ltac:(lia)). lia.
    + rewrite lookup_seq_ge by lia. simpl.
      rewrite (proj2 (lookup_ge_None _ _)); [done|].
      rewrite length_rotate. lia.
  - f_equal. unfold rotate_nat_add.
    rewrite <- Nat2Z.inj_add, <- Nat2Z.inj_mod, Nat2Z.id.
    rewrite <- (Nat.mul_1_l (length keys)) at 1.
    rewrite Nat.Div0.mod_add. by apply Nat.mod_small.
Qed.

Lemma getNextKey_round_robin_witness :
  (1 < 3)%nat
  ∧ getNextKeys 3 {| apiKeys := ["k0"; "k1"; "k2"]%string;
                     currentKeyIndex := 1 |}
    = ([Some "k1"; Some "k2"; Some "k0"]%string,
       {| apiKeys := ["k0"; "k1"; "k2"]%string; currentKeyIndex := 1 |}).
Proof.
  split; [lia|].
  exact (getNextKey_round_robin
           {| apiKeys := ["k0"; "k1"; "k2"]%string; currentKeyIndex := 1 |}
           ltac:(simpl; lia)).
Defined.
(** *** [getNextAgentApiKey] *)

(** The indices tried after [j] rotations that started at index [i]. *)
Lemma tried_after_size (i j n : nat) :
  (j ≤ n)%nat ->
  size (list_to_set (C := gset (option nat))
          (map (λ m, Some (rotate_nat_add i m n)) (seq 0 j))) = j.
Proof.
  intros Hj. rewrite size_list_to_set.
  - by rewrite length_map, length_seq.
  - apply NoDup_fmap_2_strong; [|apply NoDup_seq].
    intros x y Hx%elem_of_seq Hy%elem_of_seq [= Heq].
    rewrite <- (rotate_nat_sub_add i n x), <- (rotate_nat_sub_add i n y)
      by lia.
    by rewrite Heq.
Qed.

Lemma agent_key_calls_gen (keys : list string) (i k j : nat) :
  (i < length keys)%nat -> (j + k < length keys)%nat ->
  agent_key_calls k keys
    {| currentAgentApiKeyIndex := Some (rotate_nat_add i j (length keys));
       triedAgentApiKeys :=
         list_to_set (map (λ m, Some (rotate_nat_add i m (length keys)))
                        (seq 0 j)) |}
  = (map (λ m, Ok (keys !! rotate_nat_add i m (length keys))) (seq (S j) k),
     {| currentAgentApiKeyIndex :=
          Some (rotate_nat_add i (j + k) (length keys));
        triedAgentApiKeys :=
          list_to_set (map (λ m, Some (rotate_nat_add i m (length keys)))
                         (seq 0 (j + k))) |}).
Proof.
  intros Hi. induction k as [|k IH] in j |- *; intros Hjk.
  { simpl. by rewrite Nat.add_0_r. }
  cbn [agent_key_calls]. unfold getNextAgentApiKey.
  cbn [currentAgentApiKeyIndex triedAgentApiKeys].
  assert ({[Some (rotate_nat_add i j (length keys))]}
          ∪ list_to_set (map (λ m, Some (rotate_nat_add i m (length keys)))
                           (seq 0 j))
          = list_to_set (C := gset (option nat))
              (map (λ m, Some (rotate_nat_add i m (length keys)))
                 (seq 0 (S j)))) as ->.
  { rewrite seq_S, map_app, list_to_set_app_L. simpl.
    rewrite (right_id_L ∅ (∪)). apply (comm_L (∪)). }
  rewrite tried_after_size by lia.
  replace (length keys <=? S j)%nat with false
    by (symmetry; apply Nat.leb_gt; lia).
  replace (length keys =? 0)%nat with false
    by (symmetry; apply Nat.eqb_neq; lia).
  assert ((rotate_nat_add i j (length keys) + 1) mod length keys
          = rotate_nat_add i (S j) (length keys))%nat as ->.
  { rewrite rotate_nat_add_S by lia. by rewrite Nat.add_1_r. }
  rewrite (IH (S j)) by lia.
  replace (S j + k)%nat with (j + S k)%nat by lia. done.
Qed.

Lemma agent_key_calls_app (a b : nat) (keys : list string) (st : AgentKeys) :
  agent_key_calls (a + b) keys st
  = let (rs1, st1) := agent_key_calls a keys st in
    let (rs2, st2) := agent_key_calls b keys st1 in
    (rs1 ++ rs2, st2).
Proof.
  induction a as [|a IH] in st |- *; simpl.
  - by destruct (agent_key_calls b keys st).
  - destruct (getNextAgentApiKey keys st) as [r st1]. rewrite IH.
    destruct (agent_key_calls a keys st1) as [rs1 st2].
    by destruct (agent_key_calls b keys st2).
Qed.

(** X22.  Starting with no key marked as tried, [getNextAgentApiKey] goes
    once round the n keys: the first n - 1 calls return the keys that follow
    the current one, in order and going round, and call number n throws,
    clears the marks and leaves the index where it started. *)
Theorem getNextAgentApiKey_round (geminiApiKeys : list string) (i : nat) :
  (i < length geminiApiKeys)%nat ->
  agent_key_calls (length geminiApiKeys) geminiApiKeys
    {| currentAgentApiKeyIndex := Some i; triedAgentApiKeys := ∅ |}
  = (map (λ key, Ok (Some key)) (tail (rotate i geminiApiKeys))
     ++ [Throw all_keys_tried],
     {| currentAgentApiKeyIndex := Some i; triedAgentApiKeys := ∅ |}).
Proof.
  intros Hi. set (n := length geminiApiKeys).
  replace n with ((n - 1) + 1)%nat at 1 by lia.
  rewrite agent_key_calls_app.
  pose proof (agent_key_calls_gen geminiApiKeys i (n - 1) 0 Hi
                ltac:(subst n; lia)) as Hgen.
  simpl in Hgen. rewrite rotate_nat_add_0 in Hgen by done.
  fold n in Hgen. rewrite Hgen. clear Hgen.
  cbn [agent_key_calls]. unfold getNextAgentApiKey.
  cbn [currentAgentApiKeyIndex triedAgentApiKeys].
  assert ({[Some (rotate_nat_add i (n - 1) n)]}
          ∪ list_to_set (map (λ m, Some (rotate_nat_add i m n))
                           (seq 0 (n - 1)))
          = list_to_set (C := gset (option nat))
              (map (λ m, Some (rotate_nat_add i m n)) (seq 0 (S (n - 1)))))
    as ->.
  { rewrite seq_S, map_app, list_to_set_app_L. simpl.
    rewrite (right_id_L ∅ (∪)). apply (comm_L (∪)). }
  rewrite tried_after_size by lia. fold n.
  replace (n <=? S (n - 1))%nat with true
    by (symmetry; apply Nat.leb_le; lia).
  replace (n =? 0)%nat with false by (symmetry; apply Nat.eqb_neq; lia).
  f_equal.
  - f_equal. apply list_eq. intros j. rewrite !list_lookup_fmap.
    rewrite lookup_tail.
    destruct (decide (j < n - 1)%nat) as [Hj|Hj].
    + rewrite lookup_seq_lt by done. simpl.
      rewrite lookup_rotate_r by (fold n; lia). fold n.
      destruct (geminiApiKeys !! rotate_nat_add i (S j) n) eqn:E; [done|].
      apply lookup_ge_None in E.
      pose proof (rotate_nat_add_lt i (S j) n ltac:(lia)). fold n in E. lia.
    + rewrite lookup_seq_ge by lia. simpl.
      rewrite (proj2 (lookup_ge_None _ _)); [done|].
      rewrite length_rotate. fold n. lia.
  - f_equal. f_equal.
    assert ((rotate_nat_add i (n - 1) n + 1) mod n
            = rotate_nat_add i (S (n - 1)) n)%nat as ->.
    { rewrite rotate_nat_add_S by lia. by rewrite Nat.add_1_r. }
    replace (S (n - 1)) with n by lia.
    unfold rotate_nat_add.
    rewrite <- Nat2Z.inj_add, <- Nat2Z.inj_mod, Nat2Z.id.
    rewrite <- (Nat.mul_1_l n) at 1.
    rewrite Nat.Div0.mod_add. by apply Nat.mod_small.
Qed.

Lemma getNextAgentApiKey_round_witness :
  (1 < 3)%nat
  ∧ agent_key_calls 3 ["k0"; "k1"; "k2"]%string
      {| currentAgentApiKeyIndex := Some 1%nat; triedAgentApiKeys := ∅ |}
    = ([Ok (Some "k2"%string); Ok (Some "k0"%string); Throw all_keys_tried],
       {| currentAgentApiKeyIndex := Some 1%nat; triedAgentApiKeys := ∅ |}).
Proof.
  split; [lia|].
  exact (getNextAgentApiKey_round ["k0"; "k1"; "k2"]%string 1
           ltac:(simpl; lia)).
Defined.
(** *** A cycle on a warm session *)

Lemma quiet_from_refl (w : World) : quiet_from w w.
Proof. exists []. split; [by rewrite app_nil_r|apply Forall_nil_2]. Qed.

Lemma quiet_from_trans (w1 w2 w3 : World) :
  quiet_from w1 w2 -> quiet_from w2 w3 -> quiet_from w1 w3.
Proof.
  intros (e1 & E1 & Q1) (e2 & E2 & Q2). exists (e1 ++ e2).
  split; [by rewrite E2, E1, app_assoc|by apply Forall_app].
Qed.

Lemma quiet_from_same (w w' : World) :
  effects w' = effects w -> quiet_from w w'.
Proof.
  intros E. exists []. split; [by rewrite app_nil_r|apply Forall_nil_2].
Qed.

Lemma kq_ret {A} (x : A) (w : World) : keeps_quiet (aret x) w.
Proof. intros r w' [= <- <-]. apply quiet_from_refl. Qed.

Lemma kq_throw {A} (err : string) (w : World) : keeps_quiet (@athrow A err) w.
Proof. intros r w' [= <- <-]. apply quiet_from_refl. Qed.

Lemma kq_bind {A B} (m : AM A) (f : A -> AM B) (w : World) :
  keeps_quiet m w ->
  (∀ x w1, m w = (Ok x, w1) -> keeps_quiet (f x) w1) ->
  keeps_quiet (abind m f) w.
Proof.
  intros Hm Hf r w'. unfold abind.
  destruct (m w) as [[x|err] w1] eqn:E.
  - intros Hk. eapply quiet_from_trans;
      [exact (Hm _ _ E)|exact (Hf x w1 eq_refl _ _ Hk)].
  - intros [= <- <-]. exact (Hm _ _ E).
Qed.

Lemma kq_try_catch {A} (m : AM A) (h : string -> AM A) (w : World) :
  keeps_quiet m w -> (∀ err w1, keeps_quiet (h err) w1) ->
  keeps_quiet (try_catch m h) w.
Proof.
  intros Hm Hh r w'. unfold try_catch.
  destruct (m w) as [[x|err] w1] eqn:E.
  - intros [= <- <-]. exact (Hm _ _ E).
  - intros Hk. eapply quiet_from_trans;
      [exact (Hm _ _ E)|exact (Hh err w1 _ _ Hk)].
Qed.

Lemma kq_try_finally {A} (m : AM A) (f : AM unit) (w : World) :
  keeps_quiet m w -> (∀ w1, keeps_quiet f w1) ->
  keeps_quiet (try_finally m f) w.
Proof.
  intros Hm Hf r w'. unfold try_finally.
  destruct (m w) as [r1 w1] eqn:E. destruct (f w1) as [[[]|err] w2] eqn:E2;
    intros [= <- <-];
    (eapply quiet_from_trans; [exact (Hm _ _ E)|exact (Hf w1 _ _ E2)]).
Qed.

(** A step that adds no effect. *)
Lemma kq_same {A} (m : AM A) (w : World) :
  (∀ r w', m w = (r, w') -> effects w' = effects w) -> keeps_quiet m w.
Proof. intros H r w' Hm. apply quiet_from_same. by eapply H. Qed.

Ltac kq_prim :=
  apply kq_same; intros ? ?; cbv beta delta
    [App.advance App.set_client App.new_client App.get_world
     App.sessions_get App.sessions_set App.sessions_delete App.sessions_size
     App.new_tracker aret athrow];
  intros [= <- <-]; reflexivity.

Lemma kq_call {A} (t : ActivityTracker) (m : TM A) (w : World) :
  keeps_quiet (App.call t m) w.
Proof.
  apply kq_same. intros r w'. unfold App.call.
  destruct (m _) as [x s]. by intros [= <- <-].
Qed.

Lemma kq_client_close (a : nat) (w : World) :
  keeps_quiet (App.client_close a) w.
Proof.
  unfold App.client_close. apply kq_bind; [kq_prim|]. intros w0 w1 _.
  unfold Client.close.
  destruct (browser (App.client_at w0 a)).
  - apply kq_bind; [kq_prim|]. intros _ w2 _.
    intros r w' [= <- <-]. exists [EffBrowserClose]. split; [done|].
    apply Forall_cons. split; [by left|apply Forall_nil_2].
  - apply kq_bind; [kq_prim|]. intros _ w2 _.
    intros r w' [= <- <-]. simpl. apply quiet_from_same. simpl.
    by rewrite app_nil_r.
Qed.

Lemma kq_track_all (t : ActivityTracker) (l : list Action) (w : World) :
  keeps_quiet (App.track_all t l) w.
Proof.
  induction l as [|a l IH] in t, w |- *; simpl; [apply kq_ret|].
  apply kq_bind; [apply kq_call|]. intros r w1 _. apply IH.
Qed.

Lemma kq_perform (trackerId : string) (a : nat) (i : Interaction) (w : World) :
  keeps_quiet (App.perform trackerId a i) w.
Proof.
  unfold App.perform. apply kq_bind; [kq_prim|]. intros t w1 _.
  apply kq_bind; [apply kq_track_all|]. intros _ w2 _.
  apply kq_bind; [kq_prim|]. intros _ w3 _.
  apply kq_bind.
  - destruct (disconnects i); [|apply kq_ret].
    apply kq_bind; [kq_prim|]. intros w0 w4 _. kq_prim.
  - intros _ w4 _. destruct (failure i); [apply kq_throw|apply kq_ret].
Qed.

Lemma kq_time_until (on : bool) (t : ActivityTracker) (a : Action) (L : Z)
    (w : World) :
  keeps_quiet (Scheduler.time_until on t a L) w.
Proof.
  unfold Scheduler.time_until. destruct on; [apply kq_call|apply kq_ret].
Qed.

Lemma kq_smartClose (sys : Sys) (account : Account) (b : Behavior)
    (l : Limits) (t : ActivityTracker) (igClient : nat) (w : World) :
  keeps_quiet (Scheduler.smartClose sys account b l t igClient) w.
Proof.
  unfold Scheduler.smartClose.
  apply kq_bind; [apply kq_time_until|]. intros [x1 t1] w1 _.
  apply kq_bind; [apply kq_time_until|]. intros [x2 t2] w2 _.
  apply kq_bind; [kq_prim|]. intros size w3 _.
  destruct (_ && _); [|apply kq_ret].
  apply kq_bind; [apply kq_client_close|]. intros _ w4 _.
  apply kq_bind; [kq_prim|]. intros _ w5 _. apply kq_ret.
Qed.

Lemma kq_closeIfBlocked (account : Account) (w : World) :
  keeps_quiet (Scheduler.closeIfBlocked account) w.
Proof.
  unfold Scheduler.closeIfBlocked.
  apply kq_bind; [kq_prim|]. intros [a|] w1 _; [|apply kq_ret].
  apply kq_bind; [apply kq_client_close|]. intros _ w2 _. kq_prim.
Qed.

(** [init] on a connected client adds no effect and keeps it connected. *)
Lemma kq_client_init_connected (sys : Sys) (o : InitOracle) (a : nat)
    (w : World) :
  Client.isConnected (App.client_at w a) = true ->
  keeps_quiet (App.client_init sys o a) w.
Proof.
  intros Hc. unfold App.client_init.
  apply kq_bind; [kq_prim|]. intros w0 w1 [= <- <-].
  unfold Client.init. rewrite Hc.
  apply kq_bind; [kq_prim|]. intros _ w1 _.
  apply kq_bind.
  { intros r w' [= <- <-]. apply quiet_from_same. simpl. by rewrite app_nil_r. }
  intros _ w2 _. apply kq_bind; [kq_prim|]. intros _ w3 _. apply kq_ret.
Qed.

(** X23.  A cycle of [processAccount] for an account whose registered
    session is connected starts no browser: whatever the cycle does next
    (it finds the account blocked, interacts, fails), the only effects it adds
    are the closing of a browser and an alert; no launch, no kill command, no
    lock file deleted, no back-off wait. *)
Theorem warm_session_no_launch (sys : Sys) (account : Account)
    (character : Character) (emailService : bool) (o : Oracle) (w : World)
    (h : nat) :
  activeSessions w !! id account = Some h ->
  Client.isConnected (App.client_at w h) = true ->
  let w' := (Scheduler.processAccount sys account character emailService o w).2 in
  ∃ evs, effects w' = effects w ++ evs
         ∧ quiet evs
         ∧ launches evs = 0%nat ∧ execs evs = [] ∧ unlinks evs = []
         ∧ backoffs evs = [].
Proof.
  intros Hs Hc w'.
  assert (keeps_quiet
            (Scheduler.processAccount sys account character emailService o) w)
    as Hq.
  { unfold Scheduler.processAccount.
    apply kq_bind; [kq_prim|]. intros [] w0 Hadv.
    unfold App.advance in Hadv. injection Hadv as <-.
    apply kq_bind.
    { unfold Scheduler.createAccountLogger.
      destruct (logger_error o); [apply kq_throw|apply kq_ret]. }
    intros [] w1 Hlog.
    assert (activeSessions w1 !! id account = Some h
            ∧ Client.isConnected (App.client_at w1 h) = true) as [Hs1 Hc1].
    { unfold Scheduler.createAccountLogger in Hlog.
      destruct (logger_error o); [done|]. by injection Hlog as <-. }
    apply kq_try_catch.
    - apply kq_bind; [kq_prim|]. intros t w2 Hnt. injection Hnt as <- <-.
      match goal with
      | |- keeps_quiet (abind (Scheduler.preRunCheck ?b ?l ?t0) _) _ =>
          destruct (preRunCheck_spec b l t0 w1) as (pre & t' & Hpre & _)
      end.
      apply kq_bind.
      { intros r w3. rewrite Hpre. intros [= <- <-]. apply quiet_from_refl. }
      intros [pre' t''] w3. rewrite Hpre. intros [= <- <- <-].
      destruct (isBlocked pre); [apply kq_closeIfBlocked|].
      apply kq_bind.
      { intros r w3. rewrite (reuse_connected account w1 h Hs1 Hc1).
        intros [= <- <-]. apply quiet_from_refl. }
      intros igClient w3. rewrite (reuse_connected account w1 h Hs1 Hc1).
      intros [= <- <-].
      apply kq_try_finally.
      + apply kq_try_catch; [|intros err w4; apply kq_throw].
        unfold Scheduler.runSession.
        apply kq_bind; [by apply kq_client_init_connected|]. intros _ w4 _.
        apply kq_bind.
        { destruct (is_true _); [apply kq_perform|apply kq_ret]. }
        intros _ w5 _. destruct (useHashtags o); apply kq_perform.
      + intros w4. apply kq_bind; [apply kq_smartClose|].
        intros _ w5 _. apply kq_ret.
    - intros err w2. destruct emailService; [|apply kq_ret].
      unfold Scheduler.sendErrorAlert. intros r w3 [= <- <-].
      eexists. split; [reflexivity|].
      apply Forall_cons. split; [right; by eexists _, _|apply Forall_nil_2]. }
  subst w'.
  destruct (Scheduler.processAccount sys account character emailService o w)
    as [r w1] eqn:Hrun.
  destruct (Hq r w1 Hrun) as (evs & E & Q). simpl.
  exists evs. split; [done|]. split; [done|].
  clear -Q. unfold launches, execs, unlinks, backoffs.
  induction Q as [|ev evs Hev Q (IH1 & IH2 & IH3 & IH4)]; [done|].
  destruct Hev as [->|(u & m & ->)]; simpl.
  - rewrite filter_cons_False by done. done.
  - rewrite filter_cons_False by done. done.
Qed.

(** Account a1 is blocked and holds a connected session: the cycle only
    closes it. *)
Lemma warm_session_no_launch_witness :
  let w := world_with_session env_blocked connected_client in
  let w' := (Scheduler.processAccount (sys_linux (Some 5))
               (account_a1 no_overrides limits_one) no_character false
               oracle_like_and_comment w).2 in
  activeSessions w !! "a1"%string = Some 0%nat
  ∧ Client.isConnected (App.client_at w 0%nat) = true
  ∧ ∃ evs, effects w' = effects w ++ evs ∧ launches evs = 0%nat.
Proof.
  intros w w'. split; [reflexivity|]. split; [reflexivity|].
  destruct (warm_session_no_launch (sys_linux (Some 5))
              (account_a1 no_overrides limits_one) no_character false
              oracle_like_and_comment w 0%nat eq_refl eq_refl)
    as (evs & E & _ & L & _).
  exists evs. split; [exact E|exact L].
Defined.
